(** * Beehive: the replicated registry and the Raft node that drives it

    A shallow embedding of [registry.go] (the registry state machine), of
    the two variants of [raft/node.go] (the node that proposes, applies and
    answers requests) and of [sync.go] (the synchronous requests on top of
    the handlers), with the properties of the consensus core proved about
    them.

    Conventions.
    - A Go [uint64] is a [Z] in [0, 2^64); [wrap64] writes the wrap-around
      of [++] and [+] out.
    - A Go [map] is a [gmap]; a slice is a [list].
    - [glog.Fatalf] ends the process: a computation that reaches it has
      outcome [Fatal] and no state.
    - An [interface{}] that may be [nil] is an [option]. *)

From stdpp Require Import gmap strings list fin_maps.
From Stdlib Require Import ZArith.

Open Scope Z_scope.

(** ** Machine integers *)

Definition uint64_modulus : Z := 2 ^ 64.

Definition wrap64 (x : Z) : Z := x `mod` uint64_modulus.

(** ** Errors

    The error values of the repository that the modelled code returns.
    [ErrCtx] is what [ctx.Err()] returns once the context is done. *)

Inductive ctx_error := Canceled | DeadlineExceeded.

Inductive error :=
  | ErrUnsupportedRequest
  | ErrInvalidParam
  | ErrNoSuchHive
  | ErrDuplicateHive
  | ErrNoSuchBee
  | ErrDuplicateBee
  | ErrStopped
  | ErrCtx (e : ctx_error)
  | ErrNodeIDNil                 (* errors.New("node id is nil") *)
  | ErrDuplicateNode (id : Z)    (* fmt.Errorf("%v is duplicate", id) *)
  | ErrNoSuchNode (id : Z)       (* fmt.Errorf("no such node %v", id) *)
  | ErrEncode.                   (* an error of the gob encoder *)

Global Instance ctx_error_eq_dec : EqDecision ctx_error.
Proof. solve_decision. Defined.

Global Instance error_eq_dec : EqDecision error.
Proof. solve_decision. Defined.

(** ** Outcomes: a value, or the process was terminated *)

Inductive outcome (A : Type) : Type :=
  | Ret (a : A)
  | Fatal.

Arguments Ret {A} a.
Arguments Fatal {A}.

(** ** Bytes *)

Abbreviation bytes := (list Byte.byte).

Global Instance byte_eq_dec : EqDecision Byte.byte := Byte.byte_eq_dec.

(** * The types of the Raft engine that the repository uses ([raftpb]) *)

Module raftpb.

Inductive ConfChangeType :=
  | ConfChangeAddNode
  | ConfChangeRemoveNode
  | ConfChangeOther (n : Z).      (* the type is an int32 *)

Record ConfChange := mkConfChange {
  cc_ID : Z;
  cc_Type : ConfChangeType;
  cc_NodeID : Z;
  cc_Context : bytes
}.

Record ConfState := mkConfState { Nodes : list Z }.

Inductive EntryType :=
  | EntryNormal
  | EntryConfChange
  | EntryOther (n : Z).

Record Entry := mkEntry {
  Type_ : EntryType;
  Term : Z;
  Index : Z;
  Data : bytes
}.

Global Instance ConfChangeType_eq_dec : EqDecision ConfChangeType.
Proof. solve_decision. Defined.

Global Instance ConfChange_eq_dec : EqDecision ConfChange.
Proof. solve_decision. Defined.

End raftpb.

(** [raft.NodeInfo]: the id and the address of a hive. *)
Record NodeInfo := mkNodeInfo { info_ID : Z; info_Addr : string }.

Global Instance NodeInfo_eq_dec : EqDecision NodeInfo.
Proof. solve_decision. Defined.

(** * The registry state machine ([registry.go]) *)

Module Registry.

(** [HiveInfo] is [raft.NodeInfo] under another name ([HiveInfo(n)] converts
    one into the other): an id and an address. *)
Record HiveInfo := mkHiveInfo { hive_ID : Z; hive_Addr : string }.

Definition HiveInfo_of (n : NodeInfo) : HiveInfo :=
  mkHiveInfo (info_ID n) (info_Addr n).

(** Modelled from the spec: the type [Colony] is declared outside the files
    at hand.  The spec gives [Colony {Leader: u64, Followers: [u64]}], with
    [IsNil] iff [Leader == 0]. *)
Record Colony := mkColony { Leader : Z; Followers : list Z }.

Global Instance HiveInfo_eq_dec : EqDecision HiveInfo.
Proof. solve_decision. Defined.

Global Instance Colony_eq_dec : EqDecision Colony.
Proof. solve_decision. Defined.

(** Modelled from the spec: [Colony{}], the zero value of the type. *)
Definition nilColony : Colony := mkColony 0 [].

(** Modelled from the spec: [Colony.IsNil], true iff the leader is 0. *)
Definition IsNil (c : Colony) : bool := bool_decide (Leader c = 0).

(** Modelled from the spec: [Colony.Contains]; a colony is the set made of
    its leader and its followers ("if the new colony still contains it"). *)
Definition Contains (c : Colony) (id : Z) : bool :=
  bool_decide (id = Leader c) || bool_decide (id ∈ Followers c).

(** Modelled from the spec: [Colony.Equals]; the spec has no words for it,
    two colonies are taken to be equal when leader and followers agree.
    The development only relies on [Equals c c = true]. *)
Definition Equals (c1 c2 : Colony) : bool := bool_decide (c1 = c2).

Record BeeInfo := mkBeeInfo {
  bee_ID : Z;
  bee_Hive : Z;
  bee_App : string;
  bee_Colony : Colony;
  bee_Detached : bool
}.

Global Instance BeeInfo_eq_dec : EqDecision BeeInfo.
Proof. solve_decision. Defined.

Definition with_Colony (b : BeeInfo) (c : Colony) : BeeInfo :=
  mkBeeInfo (bee_ID b) (bee_Hive b) (bee_App b) c (bee_Detached b).

Definition with_Hive (b : BeeInfo) (h : Z) : BeeInfo :=
  mkBeeInfo (bee_ID b) h (bee_App b) (bee_Colony b) (bee_Detached b).

(** Modelled from the spec: the constant [Nil] of the bee ids is declared
    outside the files at hand; the spec speaks of a non-zero id. *)
Definition Nil : Z := 0.

(** ** The cell store

    [cellStore] and its methods [colony], [assign], [cells] and
    [updateColony], and the keys of the cells, are declared outside the
    files at hand. *)

(** Modelled from the spec: [CellKey], "an application-defined key naming a
    unit of sharded state", taken to be a string. *)
Definition CellKey : Type := string.

(** Modelled from the spec: [MappedCells], a list of cell keys. *)
Definition MappedCells : Type := list CellKey.

(** Modelled from the spec: [cellStore], "for each (App, Cell) key, the
    Colony owning it". *)
Abbreviation cellStore := (gmap (string * CellKey) Colony).

(** Modelled from the spec: [newCellStore], the store without cells. *)
Definition newCellStore : cellStore := ∅.

(** Modelled from the spec: [s.colony(app, k)], the colony that owns the
    cell, if any. *)
Definition colony (app : string) (k : CellKey) (s : cellStore) : option Colony :=
  s !! (app, k).

(** Modelled from the spec: [s.assign(app, k, c)], the cell is owned by [c]
    from now on. *)
Definition assign (app : string) (k : CellKey) (c : Colony) (s : cellStore)
  : cellStore :=
  <[(app, k) := c]> s.

(** Modelled from the spec: the cells (of any application) whose owning
    colony is led by [bee]. *)
Definition owned (bee : Z) (s : cellStore) : gset CellKey :=
  set_map snd (dom (filter (λ kc, Leader kc.2 = bee) s)).

(** Modelled from the spec: [s.cells(bee)], "all cells owned by" the bee,
    without duplicates. *)
Definition cells (bee : Z) (s : cellStore) : MappedCells :=
  elements (owned bee s).

(** [for _, k := range ks { s.assign(app, k, c) }] *)
Definition assign_all (app : string) (ks : MappedCells) (c : Colony)
    (s : cellStore) : cellStore :=
  foldl (λ s k, assign app k c s) s ks.

(** Modelled from the spec: [s.updateColony(app, old, new)], "re-assign each
    cell currently owned by Old in CellStore to New": every cell, of
    whatever application, whose owning colony is led by the leader of [old]
    is owned by [new] afterwards.  A cell is owned by the leader of its
    colony, as for [cells].  The words of the spec make no use of the
    application that is handed in, and describe no error. *)
Definition store_updateColony (app : string) (old new : Colony) (s : cellStore)
  : cellStore * option error :=
  ((λ c, if bool_decide (Leader c = Leader old) then new else c) <$> s, None).

(** ** The registry *)

Record registry := mkRegistry {
  HiveID : Z;
  BeeID : Z;
  Hives : gmap Z HiveInfo;
  Bees : gmap Z BeeInfo;
  Store : cellStore
}.

Definition set_HiveID (v : Z) (r : registry) : registry :=
  mkRegistry v (BeeID r) (Hives r) (Bees r) (Store r).
Definition set_BeeID (v : Z) (r : registry) : registry :=
  mkRegistry (HiveID r) v (Hives r) (Bees r) (Store r).
Definition set_Hives (v : gmap Z HiveInfo) (r : registry) : registry :=
  mkRegistry (HiveID r) (BeeID r) v (Bees r) (Store r).
Definition set_Bees (v : gmap Z BeeInfo) (r : registry) : registry :=
  mkRegistry (HiveID r) (BeeID r) (Hives r) v (Store r).
Definition set_Store (v : cellStore) (r : registry) : registry :=
  mkRegistry (HiveID r) (BeeID r) (Hives r) (Bees r) v.

(** [newRegistry]: hive ids start from one "to preserve the first hive's
    ID". *)
Definition newRegistry : registry :=
  mkRegistry 1 0 ∅ ∅ newCellStore.

(** ** Requests and replies *)

Inductive request :=
  | noOp
  | newHiveID (Addr : string)
  | newBeeID
  | addBee (info : BeeInfo)
  | delBee (id : Z)
  | moveBee (ID FromHive ToHive : Z)
  | updateColony (Old New : Colony)
  | lockMappedCell (C : Colony) (App : string) (Cells : MappedCells)
  | transferCells (From To : Colony)
  | otherRequest.          (* a value of any other type *)

(** The [interface{}] that [Apply] returns. *)
Inductive reply :=
  | RNil
  | RUint64 (v : Z)
  | RColony (c : Colony).

(** ** The monad of the registry methods: state, and fatal termination *)

Definition M (A : Type) : Type := registry → outcome (A * registry).

Global Instance M_ret : MRet M := λ A a r, Ret (a, r).

Global Instance M_bind : MBind M := λ A B f m r,
  match m r with
  | Ret (a, r') => f a r'
  | Fatal => Fatal
  end.

Definition get : M registry := λ r, Ret (r, r).
Definition put (r : registry) : M unit := λ _, Ret (tt, r).
Definition modify (f : registry → registry) : M unit := λ r, Ret (tt, f r).
Definition fatal {A} : M A := λ _, Fatal.

(** [for _, x := range l { body x }] *)
Fixpoint forM_ {A} (l : list A) (body : A → M unit) : M unit :=
  match l with
  | [] => mret tt
  | x :: l' => body x ≫= λ _, forM_ l' body
  end.

(** ** The methods *)

(** [addHive]: fatal when another hive already has the address. *)
Definition addHive (info : HiveInfo) : M (option error) :=
  r ← get;
  if existsb (λ h, bool_decide (hive_Addr h = hive_Addr info)
                   && negb (bool_decide (hive_ID h = hive_ID info)))
       (map_to_list (Hives r)).*2
  then fatal
  else
    modify (set_Hives (<[hive_ID info := info]> (Hives r)));;
    mret None.

Definition delHive (id : Z) : M (option error) :=
  r ← get;
  match Hives r !! id with
  | None => mret (Some ErrNoSuchHive)   (* fmt.Errorf("no such hive %v", id) *)
  | Some _ => modify (set_Hives (delete id (Hives r)));; mret None
  end.

Definition do_newHiveID (addr : string) : M Z :=
  modify (λ r, set_HiveID (wrap64 (HiveID r + 1)) r);;
  r ← get;
  (if bool_decide (addr ≠ "")
   then addHive (mkHiveInfo (HiveID r) addr) ≫= λ _, mret tt
   else mret tt);;
  r ← get;
  mret (HiveID r).

Definition do_newBeeID : M Z :=
  modify (λ r, set_BeeID (wrap64 (BeeID r + 1)) r);;
  r ← get;
  mret (BeeID r).

Definition do_addBee (info : BeeInfo) : M (option error) :=
  if bool_decide (bee_ID info = Nil) then fatal else
  r ← get;
  match Bees r !! bee_ID info with
  | Some _ => mret (Some ErrDuplicateBee)
  | None =>
    if bool_decide (BeeID r < bee_ID info) then fatal else
    modify (set_Bees (<[bee_ID info := info]> (Bees r)));;
    mret None
  end.

Definition do_delBee (id : Z) : M (option error) :=
  r ← get;
  match Bees r !! id with
  | None => mret (Some ErrNoSuchBee)
  | Some _ => modify (set_Bees (delete id (Bees r)));; mret None
  end.

Definition do_moveBee (id from to : Z) : M (option error) :=
  r ← get;
  match Bees r !! id with
  | None => mret (Some ErrNoSuchBee)
  | Some b =>
    if bool_decide (bee_Hive b ≠ from) then mret (Some ErrInvalidParam) else
    if bool_decide (from = to) then mret None else
    modify (set_Bees (<[id := with_Hive b to]> (Bees r)));;
    mret None
  end.

Definition mustFindBee (id : Z) : M BeeInfo :=
  r ← get;
  match Bees r !! id with
  | Some info => mret info
  | None => fatal
  end.

(** [r.Bees[id] = b] *)
Definition setBee (id : Z) (b : BeeInfo) : M unit :=
  modify (λ r, set_Bees (<[id := b]> (Bees r)) r).

Definition do_updateColony (Old New : Colony) : M (option error) :=
  if IsNil New || IsNil Old then mret (Some ErrInvalidParam) else
  b ← mustFindBee (Leader New);
  r ← get;
  let '(s, err) := store_updateColony (bee_App b) Old New (Store r) in
  put (set_Store s r);;
  match err with
  | Some e => mret (Some e)
  | None =>
    (if bool_decide (Leader Old ≠ Leader New) then
       b ← mustFindBee (Leader Old);
       setBee (Leader Old)
         (with_Colony b (if Contains New (Leader Old) then New else nilColony))
     else mret tt);;
    forM_ (Followers Old) (λ f,
      if negb (Contains New f) then
        b ← mustFindBee f;
        setBee f (with_Colony b nilColony)
      else mret tt);;
    forM_ (Followers New) (λ f,
      b ← mustFindBee f;
      setBee f (with_Colony b New));;
    b ← mustFindBee (Leader New);
    setBee (Leader New) (with_Colony b New);;
    mret None
  end.

(** The first loop of [lock]: [c] is [l.Colony], [locked] and [openk] the
    two locals. *)
Fixpoint lock_scan (app : string) (ks : MappedCells)
    (c : Colony) (locked : bool) (openk : MappedCells)
  : M (Colony * bool * MappedCells) :=
  match ks with
  | [] => mret (c, locked, openk)
  | k :: ks' =>
    r ← get;
    match colony app k (Store r) with
    | None =>
      if locked then
        put (set_Store (assign app k c (Store r)) r);;
        lock_scan app ks' c locked openk
      else lock_scan app ks' c locked (openk ++ [k])
    | Some c' =>
      if locked && negb (Equals c' c) then fatal
      else lock_scan app ks' c' true openk
    end
  end.

Definition lock (C : Colony) (app : string) (ks : MappedCells)
  : M (Colony * option error) :=
  if bool_decide (Leader C = 0) then mret (nilColony, Some ErrInvalidParam) else
  '(c, locked, openk) ← lock_scan app ks C false [];
  if locked : bool then
    modify (λ r, set_Store (assign_all app openk c (Store r)) r);;
    mret (c, None)
  else
    modify (λ r, set_Store (assign_all app ks c (Store r)) r);;
    mret (c, None).

Definition transfer (From To : Colony) : M (option error) :=
  r ← get;
  match Bees r !! Leader From with
  | None => mret (Some ErrNoSuchBee)
  | Some i =>
    let keys := cells (Leader From) (Store r) in
    if bool_decide (length keys = 0%nat) then mret (Some ErrInvalidParam) else
    put (set_Store (assign_all (bee_App i) keys To (Store r)) r);;
    mret None
  end.

(** [Apply]: the reply and the error of the request. *)
Definition Apply (req : request) : M (reply * option error) :=
  match req with
  | noOp => mret (RNil, None)
  | newHiveID addr => id ← do_newHiveID addr; mret (RUint64 id, None)
  | newBeeID => id ← do_newBeeID; mret (RUint64 id, None)
  | addBee info => e ← do_addBee info; mret (RNil, e)
  | delBee id => e ← do_delBee id; mret (RNil, e)
  | moveBee id from to => e ← do_moveBee id from to; mret (RNil, e)
  | updateColony Old New => e ← do_updateColony Old New; mret (RNil, e)
  | lockMappedCell C app ks => '(c, e) ← lock C app ks; mret (RColony c, e)
  | transferCells From To => e ← transfer From To; mret (RNil, e)
  | otherRequest => mret (RNil, Some ErrUnsupportedRequest)
  end.

(** [ApplyConfChange]: a hive joins or leaves. *)
Definition ApplyConfChange (cc : raftpb.ConfChange) (n : NodeInfo)
  : M (option error) :=
  match raftpb.cc_Type cc with
  | raftpb.ConfChangeAddNode =>
    if bool_decide (info_ID n ≠ raftpb.cc_NodeID cc) then fatal else
    (if bool_decide (info_Addr n ≠ "")
     then addHive (HiveInfo_of n) ≫= λ _, mret tt
     else mret tt);;
    mret None
  | raftpb.ConfChangeRemoveNode =>
    delHive (raftpb.cc_NodeID cc);;
    mret None
  | raftpb.ConfChangeOther _ => mret None
  end.

(** ** The read API *)

(** [HiveInfo{}] and [BeeInfo{}], the zero values that a lookup of a
    missing key hands out. *)
Definition zeroHiveInfo : HiveInfo := mkHiveInfo 0 "".

Definition zeroBeeInfo : BeeInfo := mkBeeInfo 0 0 "" nilColony false.

(** [r.hives()], in the order the map hands the hives out. *)
Definition hives (r : registry) : list HiveInfo := (map_to_list (Hives r)).*2.

Definition hive (id : Z) (r : registry) : HiveInfo * option error :=
  match Hives r !! id with
  | Some i => (i, None)
  | None => (zeroHiveInfo, Some ErrNoSuchHive)
  end.

(** [r.bees()], in the order the map hands the bees out. *)
Definition bees (r : registry) : list BeeInfo := (map_to_list (Bees r)).*2.

Definition beesOfHive (id : Z) (r : registry) : list BeeInfo :=
  filter (λ b, bee_Hive b = id) (bees r).

Definition bee (id : Z) (r : registry) : BeeInfo * option error :=
  match Bees r !! id with
  | Some i => (i, None)
  | None => (zeroBeeInfo, Some ErrNoSuchBee)
  end.

(** [beeAndHive]: fatal when the bee stored under [id] has another id. *)
Definition beeAndHive (id : Z) (r : registry)
  : outcome (BeeInfo * HiveInfo * option error) :=
  match Bees r !! id with
  | None => Ret (zeroBeeInfo, zeroHiveInfo, Some ErrNoSuchBee)
  | Some bi =>
    if bool_decide (bee_ID bi ≠ id) then Fatal else
    match Hives r !! bee_Hive bi with
    | None => Ret (bi, zeroHiveInfo, Some ErrNoSuchHive)
    | Some hi => Ret (bi, hi, None)
    end
  end.

(** The loop of [beeForCells] over the cells, from the locals [info] and
    [hasAll]: whether the loop returned from inside, and the two locals. *)
Fixpoint beeForCells_range (app : string) (ks : MappedCells)
    (info : BeeInfo) (hasAll : bool) (r : registry)
  : outcome (bool * BeeInfo * bool) :=
  match ks with
  | [] => Ret (false, info, hasAll)
  | k :: ks' =>
    match colony app k (Store r) with
    | None => beeForCells_range app ks' info false r
    | Some col =>
      match (if bool_decide (bee_ID info = 0) then
               let info' := default zeroBeeInfo (Bees r !! Leader col) in
               if bool_decide (bee_ID info' ≠ Leader col) then Fatal
               else Ret (info', hasAll)
             else if bool_decide (bee_ID info ≠ Leader col)
                  then Ret (info, false)
                  else Ret (info, hasAll)) with
      | Fatal => Fatal
      | Ret (info', hasAll') =>
        if negb hasAll' then Ret (true, info', hasAll')
        else beeForCells_range app ks' info' hasAll' r
      end
    end
  end.

Definition beeForCells (app : string) (ks : MappedCells) (r : registry)
  : outcome (BeeInfo * bool * option error) :=
  match beeForCells_range app ks zeroBeeInfo true r with
  | Fatal => Fatal
  | Ret (true, info, hasAll) => Ret (info, hasAll, None)
  | Ret (false, info, hasAll) =>
    if bool_decide (bee_ID info = 0)
    then Ret (info, hasAll, Some ErrNoSuchBee)
    else Ret (info, hasAll, None)
  end.

(** The loop of [initHives]: the hives are added one after the other, and
    the first error ends the loop. *)
Fixpoint initHives_range (hs : list HiveInfo) : M (option error) :=
  match hs with
  | [] => mret None
  | h :: hs' =>
    err ← addHive h;
    match err with
    | Some e => mret (Some e)
    | None => initHives_range hs'
    end
  end.

(** [initHives]: Go leaves open in which order [range] goes through a map,
    and it may differ from one run to the next.  The map comes as [order],
    its entries in the order in which this run visits them. *)
Definition initHives (order : list (Z * HiveInfo)) : M (option error) :=
  initHives_range order.*2.

(** A sequence of requests applied in order; the replies and errors. *)
Fixpoint Apply_all (reqs : list request) : M (list (reply * option error)) :=
  match reqs with
  | [] => mret []
  | q :: reqs' =>
    x ← Apply q;
    xs ← Apply_all reqs';
    mret (x :: xs)
  end.

(** ** Notions used to state the properties of the registry *)

(** Another hive than [id] already has the address. *)
Definition addr_taken (addr : string) (id : Z) (hives : gmap Z HiveInfo) : Prop :=
  ∃ k h, hives !! k = Some h ∧ hive_Addr h = addr ∧ hive_ID h ≠ id.

(** The bees of a colony: its leader and its followers. *)
Definition members (c : Colony) : list Z := Leader c :: Followers c.

(** Every bee is stored under its id, which is not zero and at most
    [BeeID]. *)
Definition bees_wf (r : registry) : Prop :=
  ∀ k b, Bees r !! k = Some b → bee_ID b = k ∧ k ≠ 0 ∧ k ≤ BeeID r.

(** Every hive is stored under its id, and no two hives have the same
    address. *)
Definition hives_wf (r : registry) : Prop :=
  ∀ k1 h1 k2 h2, Hives r !! k1 = Some h1 → Hives r !! k2 = Some h2 →
    hive_ID h1 = k1 ∧ (hive_Addr h1 = hive_Addr h2 → k1 = k2).

(** The counters are 64-bit values that can be incremented without
    wrapping around. *)
Definition counters_free (r : registry) : Prop :=
  0 ≤ HiveID r ∧ HiveID r + 1 < uint64_modulus ∧
  0 ≤ BeeID r ∧ BeeID r + 1 < uint64_modulus.

(** Everything but [Bees] is the same. *)
Definition same_but_Bees (r r' : registry) : Prop :=
  HiveID r' = HiveID r ∧ BeeID r' = BeeID r ∧ Hives r' = Hives r ∧
  Store r' = Store r.

(** The bee [b'] is the bee [b], but for its colony. *)
Definition same_but_Colony (b b' : BeeInfo) : Prop :=
  bee_ID b' = bee_ID b ∧ bee_Hive b' = bee_Hive b ∧ bee_App b' = bee_App b ∧
  bee_Detached b' = bee_Detached b.

Definition paint (P : bool) (c : Colony) (b : BeeInfo) : BeeInfo :=
  if P then with_Colony b c else b.

(** The bee with id [id] after [updateColony{Old, New}]: a member of [New]
    belongs to [New], a member of [Old] that is not in [New] belongs to no
    colony, any other bee is as before. *)
Definition updated (Old New : Colony) (id : Z) (b : BeeInfo) : BeeInfo :=
  if Contains New id then with_Colony b New
  else if Contains Old id then with_Colony b nilColony
  else b.

(** Nothing but the store changes. *)
Definition same_but_Store (r r' : registry) : Prop :=
  HiveID r' = HiveID r ∧ BeeID r' = BeeID r ∧ Hives r' = Hives r ∧
  Bees r' = Bees r.

(** The counters and the hives are the same, and so are the ids of the bees
    under every key. *)
Definition repainted (r r' : registry) : Prop :=
  HiveID r' = HiveID r ∧ BeeID r' = BeeID r ∧ Hives r' = Hives r ∧
  ∀ k, bee_ID <$> Bees r' !! k = bee_ID <$> Bees r !! k.

End Registry.

(** * The Raft node ([raft/node.go], the newer and the older variant) *)

Module Raft.

Import raftpb.

(** Modelled from the spec: [RequestID], "{NodeID: u64, Seq: u64}"; the type
    is declared outside the files at hand. *)
Record RequestID := mkRequestID { NodeID : Z; Seq : Z }.

Global Instance RequestID_eq_dec : EqDecision RequestID.
Proof. solve_decision. Defined.

Global Instance RequestID_countable : Countable RequestID.
Proof.
  refine (inj_countable' (λ i, (NodeID i, Seq i))
                         (λ p, mkRequestID p.1 p.2) _).
  by intros [].
Defined.

(** Modelled from the spec: [Request], "{ID: RequestID, Data: opaque}".
    [Any] is the type of the non-nil values an [interface{}] of the
    application may hold. *)
Record Request (Any : Type) := mkRequest {
  req_ID : RequestID;
  req_Data : option Any
}.

(** Modelled from the spec: [Response], "{ID: RequestID, Data: opaque, Err:
    error-or-none}". *)
Record Response (Any : Type) := mkResponse {
  res_ID : RequestID;
  res_Data : option Any;
  res_Err : option error
}.

Arguments mkRequest {Any} _ _.
Arguments req_ID {Any} _.
Arguments req_Data {Any} _.
Arguments mkResponse {Any} _ _ _.
Arguments res_ID {Any} _.
Arguments res_Data {Any} _.
Arguments res_Err {Any} _.

(** The encoders and decoders, which are declared outside the files at
    hand, are parameters. [None] stands for the error they return. *)
Class Codec (Any : Type) := {
  encode_Request : Request Any → option bytes;        (* r.Encode() *)
  decode_Request : bytes → option (Request Any);      (* req.Decode(b) *)
  decode_NodeInfo : bytes → option NodeInfo;          (* bhgob.Decode(&info, b) *)
  unmarshal_ConfChange : bytes → option ConfChange;   (* pbutil.MustUnmarshal *)
  of_NodeInfo : NodeInfo → Any;                       (* a NodeInfo as interface{} *)
  as_NodeInfo : Any → option NodeInfo                 (* the assertion .(NodeInfo) *)
}.

(** Modelled from the spec: the [Store] interface of the newer variant,
    "Apply(data) → (reply, err), ApplyConfChange(cc, NodeInfo) → err,
    Restore(bytes) → err"; the methods work on the state of the store. *)
Class Store (Any S : Type) := {
  store_Apply : Any → S → outcome ((option Any * option error) * S);
  store_ApplyConfChange :
    ConfChange → NodeInfo → S → outcome (option error * S);
  store_Restore : bytes → S → outcome (option error * S)
}.

(** The [Store] interface of the older variant, as the older [node.go] uses
    it: [Apply] has one result, [Restore] an error. *)
Class OldStore (Any S : Type) := {
  old_Apply : option Any → S → outcome (option Any * S);
  old_Restore : bytes → S → outcome (option error * S)
}.

(** The methods of the Raft engine ([etcdraft.Node]) that are driven here. *)
Class Engine (E : Type) := {
  raft_StartNode : Z → list (Z * bytes) → E;
  raft_RestartNode : Z → list Entry → E;
  raft_Propose : bytes → E → E;
  raft_ProposeConfChange : ConfChange → E → E;
  raft_ApplyConfChange : ConfChange → E → ConfState * E
}.

(** ** The rendezvous [line]

    [line] with [wait], [call] and [cancel] is declared outside the files
    at hand. *)

Section Line.
Context {Any : Type}.

(** Modelled from the spec: [line], "a process-local map keyed by RequestID
    whose value is a single-slot reply channel held by the blocked caller".
    The channels live in a store of their own, since the caller keeps its
    channel after the entry is removed from the map. *)
Record line := mkLine {
  reqs : gmap RequestID nat;
  chans : gmap nat (option (Response Any))
}.

(** Modelled from the spec: [line.init], no caller waits. *)
Definition line_init : line := mkLine ∅ ∅.

(** Modelled from the spec: "wait(id): atomically insert a fresh
    single-slot channel; returns the channel." *)
Definition line_wait (id : RequestID) (l : line) : nat * line :=
  let ch := fresh (dom (chans l)) in
  (ch, mkLine (<[id := ch]> (reqs l)) (<[ch := None]> (chans l))).

(** Modelled from the spec: the "non-blocking send to the one-slot
    channel". *)
Definition chan_send (ch : nat) (res : Response Any)
    (cs : gmap nat (option (Response Any))) : gmap nat (option (Response Any)) :=
  match cs !! ch with
  | Some None => <[ch := Some res]> cs
  | _ => cs
  end.

(** Modelled from the spec: "call(response): look up response.ID; if
    present, deliver the response and remove the entry. If absent, drop
    silently." *)
Definition line_call (res : Response Any) (l : line) : line :=
  match reqs l !! res_ID res with
  | Some ch => mkLine (delete (res_ID res) (reqs l)) (chan_send ch res (chans l))
  | None => l
  end.

(** Modelled from the spec: "cancel(id): remove the entry if present." *)
Definition line_cancel (id : RequestID) (l : line) : line :=
  mkLine (delete id (reqs l)) (chans l).

End Line.

Arguments line Any : clear implicits.

(** ** The id generator

    [gen.NewSeqIDGen] and [GenID] are declared outside the files at hand. *)

(** Modelled from the spec: [gen.NewSeqIDGen], "a monotonic generator
    seeded from" its argument; the state is the last id handed out. *)
Definition NewSeqIDGen (init : Z) : Z := init.

(** Modelled from the spec: [GenID] of the "monotonic generator"; each id is
    one more than the one before, the first one more than the seed. *)
Definition GenID (g : Z) : Z * Z :=
  let g' := wrap64 (g + 1) in (g', g').

(** ** The node *)

Record Node (Any S E : Type) := mkNode {
  n_id : Z;
  n_node : E;
  n_line : line Any;
  n_gen : Z;
  n_store : S;
  n_snapCount : Z;
  n_done : bool               (* the channel [done] is closed *)
}.

Arguments mkNode {Any S E} _ _ _ _ _ _ _.
Arguments n_id {Any S E} _.
Arguments n_node {Any S E} _.
Arguments n_line {Any S E} _.
Arguments n_gen {Any S E} _.
Arguments n_store {Any S E} _.
Arguments n_snapCount {Any S E} _.
Arguments n_done {Any S E} _.

(** What is on disk under the data directory: the id that the metadata of
    the WAL parses to (if it parses), the entries that [ReadAll] returns,
    and the newest snapshot. *)
Record WAL := mkWAL {
  wal_id : option Z;
  wal_ents : list Entry
}.

Record Snapshot := mkSnapshot { snap_Index : Z; snap_Data : bytes }.

Record disk := mkDisk {
  d_wal : option WAL;           (* [None]: [wal.Exist] is false *)
  d_snap : option Snapshot
}.

(** One case of a [select] of a blocked caller. *)
Inductive select_case := CaseReply | CaseCtxDone | CaseNodeDone.

(** A caller between the proposal and the [select]: its id and channel. *)
Record pending := mkPending { p_id : RequestID; p_ch : nat }.

Section Node.
Context {Any S E : Type} `{!Codec Any} `{!Engine E}.

Abbreviation node := (Node Any S E).

Definition set_line (l : line Any) (n : node) : node :=
  mkNode (n_id n) (n_node n) l (n_gen n) (n_store n) (n_snapCount n) (n_done n).
Definition set_engine (e : E) (n : node) : node :=
  mkNode (n_id n) e (n_line n) (n_gen n) (n_store n) (n_snapCount n) (n_done n).
Definition set_gen (g : Z) (n : node) : node :=
  mkNode (n_id n) (n_node n) (n_line n) g (n_store n) (n_snapCount n) (n_done n).
Definition set_store (s : S) (n : node) : node :=
  mkNode (n_id n) (n_node n) (n_line n) (n_gen n) s (n_snapCount n) (n_done n).

(** [ents[len(ents)-1].Index]; an empty slice makes the index panic. *)
Definition last_index (ents : list Entry) : outcome Z :=
  match last ents with
  | Some e => Ret (Index e)
  | None => Fatal
  end.

(** The part of [NewNode] that both variants share: the disk is read;
    the store restored from the snapshot, the engine, and [lastIndex].
    [restore] is what the variant does with the data of a snapshot. *)
Definition NewNode_boot (restore : bytes → S → outcome S) (id : Z)
    (peers : list (Z * bytes)) (d : disk) (store : S) : outcome (E * S * Z) :=
  match d_wal d with
  | None =>
    if bool_decide (id = 0) then Fatal
    else Ret (raft_StartNode id peers, store, 0)
  | Some w =>
    match (match d_snap d with
           | Some sn => restore (snap_Data sn) store
           | None => Ret store
           end) with
    | Fatal => Fatal
    | Ret s' =>
      match wal_id w with
      | None => Fatal
      | Some walid =>
        if bool_decide (walid ≠ id) then Fatal else
        match last_index (wal_ents w) with
        | Fatal => Fatal
        | Ret lastIndex => Ret (raft_RestartNode id (wal_ents w), s', lastIndex)
        end
      end
    end
  end.

(** [NewNode], newer variant: the generator starts from
    [lastIndex + 2*snapCount]. *)
Definition NewNode `{!Store Any S} (id : Z) (peers : list (Z * bytes))
    (d : disk) (store : S) (snapCount : Z) : outcome node :=
  match NewNode_boot
          (λ b s, match store_Restore b s with
                  | Ret (None, s') => Ret s'
                  | _ => Fatal      (* "cannot restore snapshot" *)
                  end) id peers d store with
  | Fatal => Fatal
  | Ret (e, s, lastIndex) =>
    Ret (mkNode id e line_init
           (NewSeqIDGen (wrap64 (lastIndex + wrap64 (2 * snapCount))))
           s snapCount false)
  end.

(** [NewNode], older variant: the generator starts from [lastIndex], and
    the error of [Restore] is not looked at. *)
Definition Old_NewNode `{!OldStore Any S} (id : Z) (peers : list (Z * bytes))
    (d : disk) (store : S) (snapCount : Z) : outcome node :=
  match NewNode_boot
          (λ b s, match old_Restore b s with
                  | Ret (_, s') => Ret s'
                  | Fatal => Fatal
                  end) id peers d store with
  | Fatal => Fatal
  | Ret (e, s, lastIndex) =>
    Ret (mkNode id e line_init (NewSeqIDGen lastIndex) s snapCount false)
  end.

Definition genID (n : node) : RequestID * node :=
  let '(seq, g) := GenID (n_gen n) in
  (mkRequestID (n_id n) seq, set_gen g n).

(** [Process], up to the [select]: the id is drawn, the request encoded,
    the wait-slot registered and the bytes proposed.  An encoding error is
    returned to the caller right away. *)
Definition Process_submit (req : option Any) (n : node)
  : (error + pending) * node :=
  let '(rid, n1) := genID n in
  match encode_Request (mkRequest rid req) with
  | None => (inl ErrEncode, n1)
  | Some b =>
    let '(ch, l) := line_wait rid (n_line n1) in
    (inr (mkPending rid ch), set_engine (raft_Propose b (n_node n1)) (set_line l n1))
  end.

(** The channel of the caller has a response in its slot. *)
Definition chan_recv (ch : nat) (l : line Any)
  : option (Response Any * line Any) :=
  match chans l !! ch with
  | Some (Some res) => Some (res, mkLine (reqs l) (<[ch := None]> (chans l)))
  | _ => None
  end.

(** The [select] of [Process]: the case taken, if it is ready.  [ctx] is
    [ctx.Err()] once the context is done. *)
Definition Process_select (p : pending) (ctx : option ctx_error)
    (c : select_case) (n : node)
  : option ((option Any * option error) * node) :=
  match c with
  | CaseReply =>
    match chan_recv (p_ch p) (n_line n) with
    | Some (res, l) => Some ((res_Data res, res_Err res), set_line l n)
    | None => None
    end
  | CaseCtxDone =>
    match ctx with
    | Some e =>
      Some ((None, Some (ErrCtx e)), set_line (line_cancel (p_id p) (n_line n)) n)
    | None => None
    end
  | CaseNodeDone =>
    if n_done n then Some ((None, Some ErrStopped), n) else None
  end.

Definition with_Context (cc : ConfChange) (b : bytes) : ConfChange :=
  mkConfChange (cc_ID cc) (cc_Type cc) (cc_NodeID cc) b.

(** [ProcessConfChange], up to the [select]: as [Process], with the encoded
    request in the context of the conf change. *)
Definition ProcessConfChange_submit (cc : ConfChange) (info : NodeInfo)
    (n : node) : (error + pending) * node :=
  let '(rid, n1) := genID n in
  match encode_Request (mkRequest rid (Some (of_NodeInfo info))) with
  | None => (inl ErrEncode, n1)
  | Some b =>
    let '(ch, l) := line_wait rid (n_line n1) in
    (inr (mkPending rid ch),
     set_engine (raft_ProposeConfChange (with_Context cc b) (n_node n1))
       (set_line l n1))
  end.

(** The [select] of [ProcessConfChange]: only the error is returned. *)
Definition ProcessConfChange_select (p : pending) (ctx : option ctx_error)
    (c : select_case) (n : node) : option (option error * node) :=
  match Process_select p ctx c n with
  | Some ((_, err), n') => Some (err, n')
  | None => None
  end.

Definition AddNode_submit (id : Z) (addr : string) (n : node)
  : (error + pending) * node :=
  ProcessConfChange_submit (mkConfChange 0 ConfChangeAddNode id [])
    (mkNodeInfo id addr) n.

Definition RemoveNode_submit (id : Z) (addr : string) (n : node)
  : (error + pending) * node :=
  ProcessConfChange_submit (mkConfChange 0 ConfChangeRemoveNode id [])
    (mkNodeInfo id addr) n.



(** [applyEntry]: a committed normal entry is applied. *)
Definition applyEntry `{!Store Any S} (e : Entry) (n : node) : outcome node :=
  if bool_decide (length (Data e) = 0%nat) then Ret n else
  match decode_Request (Data e) with
  | None => Fatal
  | Some req =>
    match req_Data req with
    | None => Ret n
    | Some d =>
      match store_Apply d (n_store n) with
      | Fatal => Fatal
      | Ret ((data, err), s') =>
        Ret (set_line (line_call (mkResponse (req_ID req) data err) (n_line n))
               (set_store s' n))
      end
    end
  end.


Fixpoint containsNode (nodes : list Z) (node : Z) : bool :=
  match nodes with
  | [] => false
  | n :: nodes' => if bool_decide (node = n) then true else containsNode nodes' node
  end.

Definition None_ : Z := 0.      (* etcdraft.None *)

Definition validConfChange (cc : ConfChange) (confs : ConfState)
  : outcome (option error) :=
  if bool_decide (cc_NodeID cc = None_) then Ret (Some ErrNodeIDNil) else
  match cc_Type cc with
  | ConfChangeAddNode =>
    if containsNode (Nodes confs) (cc_NodeID cc)
    then Ret (Some (ErrDuplicateNode (cc_NodeID cc)))
    else Ret None
  | ConfChangeRemoveNode =>
    if negb (containsNode (Nodes confs) (cc_NodeID cc))
    then Ret (Some (ErrNoSuchNode (cc_NodeID cc)))
    else Ret None
  | ConfChangeOther _ => Fatal
  end.

Definition with_NodeID (cc : ConfChange) (id : Z) : ConfChange :=
  mkConfChange (cc_ID cc) (cc_Type cc) id (cc_Context cc).

(** [applyConfChange]: the error it returns, the [ConfState] behind
    [confs], and the node. *)
Definition applyConfChange `{!Store Any S} (e : Entry) (confs : ConfState)
    (n : node) : outcome (option error * ConfState * node) :=
  match unmarshal_ConfChange (Data e) with
  | None => Fatal
  | Some cc =>
    match validConfChange cc confs with
    | Fatal => Fatal
    | Ret (Some err) =>
      let cc := with_NodeID cc None_ in
      Ret (Some err, confs, set_engine (raft_ApplyConfChange cc (n_node n)).2 n)
    | Ret None =>
      let '(confs', eng) := raft_ApplyConfChange cc (n_node n) in
      let n := set_engine eng n in
      if bool_decide (length (cc_Context cc) = 0%nat) then
        match store_ApplyConfChange cc (mkNodeInfo 0 "") (n_store n) with
        | Fatal => Fatal
        | Ret (_, s') => Ret (None, confs', set_store s' n)
        end
      else
        match decode_NodeInfo (cc_Context cc) with
        | Some info =>
          if bool_decide (info_ID info ≠ cc_NodeID cc) then Fatal else
          match store_ApplyConfChange cc info (n_store n) with
          | Fatal => Fatal
          | Ret (_, s') => Ret (None, confs', set_store s' n)
          end
        | None =>
          match decode_Request (cc_Context cc) with
          | None => Fatal
          | Some req =>
            match req_Data req ≫= as_NodeInfo with
            | None => Fatal          (* the type assertion panics *)
            | Some info =>
              match store_ApplyConfChange cc info (n_store n) with
              | Fatal => Fatal
              | Ret (err, s') =>
                Ret (None, confs',
                     set_line (line_call (mkResponse (req_ID req) None err)
                                 (n_line n))
                       (set_store s' n))
              end
            end
          end
        end
    end
  end.

(** [apply]: the committed entries in order; the index of the last one,
    [shouldStop], the [ConfState] and the node.  [shouldStop] is never set,
    and the error of [applyConfChange] is not looked at. *)
Fixpoint apply_from `{!Store Any S} (es : list Entry) (appliedi : Z)
    (confState : ConfState) (n : node)
  : outcome (Z * bool * ConfState * node) :=
  match es with
  | [] => Ret (appliedi, false, confState, n)
  | e :: es' =>
    match (match Type_ e with
           | EntryNormal =>
             match applyEntry e n with
             | Ret n' => Ret (confState, n')
             | Fatal => Fatal
             end
           | EntryConfChange =>
             match applyConfChange e confState n with
             | Ret (_, confs', n') => Ret (confs', n')
             | Fatal => Fatal
             end
           | EntryOther _ => Fatal
           end) with
    | Fatal => Fatal
    | Ret (confs', n') => apply_from es' (Index e) confs' n'
    end
  end.

Definition apply `{!Store Any S} (es : list Entry) (confState : ConfState)
    (n : node) : outcome (Z * bool * ConfState * node) :=
  apply_from es 0 confState n.

(** ** Lifetimes of a node

    What happens to the generator and to the log of one node over its
    lifetimes: an id is drawn ([genID], by [Process] and
    [ProcessConfChange]), one more entry becomes durable in the WAL
    ([storage.Save]), or the process ends and [NewNode] runs again on the
    data directory. *)

Inductive event :=
  | EvGenID
  | EvSave (t : EntryType) (data : bytes)
  | EvRestart.

Record world := mkWorld {
  w_node : node;
  w_ents : list Entry;          (* the entries in the WAL *)
  w_issued : list RequestID     (* the ids drawn so far, the newest first *)
}.

Definition next_index (ents : list Entry) : Z :=
  match last ents with
  | Some e => Index e + 1
  | None => 1
  end.

Definition step `{!Store Any S} (ev : event) (w : world) : outcome world :=
  match ev with
  | EvGenID =>
    let '(rid, n) := genID (w_node w) in
    Ret (mkWorld n (w_ents w) (rid :: w_issued w))
  | EvSave t data =>
    Ret (mkWorld (w_node w)
           (w_ents w ++ [mkEntry t 0 (next_index (w_ents w)) data])
           (w_issued w))
  | EvRestart =>
    let n := w_node w in
    match NewNode (n_id n) []
            (mkDisk (Some (mkWAL (Some (n_id n)) (w_ents w))) None)
            (n_store n) (n_snapCount n) with
    | Ret n' => Ret (mkWorld n' (w_ents w) (w_issued w))
    | Fatal => Fatal
    end
  end.

Fixpoint run `{!Store Any S} (evs : list event) (w : world) : outcome world :=
  match evs with
  | [] => Ret w
  | ev :: evs' =>
    match step ev w with
    | Ret w' => run evs' w'
    | Fatal => Fatal
    end
  end.

(** The sequence numbers of the requests of node [id] that the entries
    carry. *)
Definition persisted_seqs (id : Z) (ents : list Entry) : list Z :=
  omap (λ e, match decode_Request (Data e) with
             | Some r => if bool_decide (NodeID (req_ID r) = id)
                         then Some (Seq (req_ID r)) else None
             | None => None
             end) ents.

(** ** Notions used to state the properties of the node *)

(** The caller [p] is registered in the line and its channel is empty. *)
Definition waiting (p : pending) (l : line Any) : Prop :=
  reqs l !! p_id p = Some (p_ch p) ∧ chans l !! p_ch p = Some None.


(** The validity of a conf change in the words of the spec: "NodeID must
    be non-zero. AddNode: NodeID MUST NOT already be a member. RemoveNode:
    NodeID MUST be a member." *)
Definition valid_against (cc : ConfChange) (confs : ConfState) : Prop :=
  cc_NodeID cc ≠ 0 ∧
  (cc_Type cc = ConfChangeAddNode → cc_NodeID cc ∉ Nodes confs) ∧
  (cc_Type cc = ConfChangeRemoveNode → cc_NodeID cc ∈ Nodes confs).

End Node.

(** ** The loop of [Start] (newer variant)

    The [select] of the loop has four cases.  Taking a [Ready] sets the
    local [ready] to [nil] and hands the batch to a goroutine; the goroutine
    ends by sending on [adv], and the case [adv] of the loop re-arms [ready]
    and calls [Advance]. *)

Inductive loop_case := CaseTicker | CaseAdv | CaseReady | CaseStop.

Global Instance loop_case_eq_dec : EqDecision loop_case.
Proof. solve_decision. Defined.

Record loop := mkLoop {
  ready_armed : bool;      (* [ready != nil] *)
  in_flight : nat;         (* goroutines that hold a [Ready] *)
  returned : bool          (* the loop has returned *)
}.

Definition Start_init : loop := mkLoop true 0 false.

(** One round of the [select]: the state after the case, if the case can
    be taken. *)
Definition Start_select (c : loop_case) (s : loop) : option loop :=
  if returned s then None else
  match c with
  | CaseTicker => Some s
  | CaseAdv =>
    match in_flight s with
    | O => None
    | S k => Some (mkLoop true k false)
    end
  | CaseReady =>
    if ready_armed s then Some (mkLoop false (S (in_flight s)) false) else None
  | CaseStop => Some (mkLoop (ready_armed s) (in_flight s) true)
  end.

Fixpoint Start_run (cs : list loop_case) (s : loop) : option loop :=
  match cs with
  | [] => Some s
  | c :: cs' =>
    match Start_select c s with
    | Some s' => Start_run cs' s'
    | None => None
    end
  end.

(** ** What [Start] does with one [Ready] (newer variant)

    The storage ([n.storage] and [n.raftStorage]) and [Save] of the store
    are declared outside the files at hand, and are parameters.  [None]
    stands for an error. *)

(** A [Ready] of the engine, as far as [Start] looks at it: the leader of
    the [SoftState] (if there is one), the snapshot, the entries to save and
    the committed entries.  The hard state and the messages are handed to
    the storage and to [send] as they are. *)
Record Ready := mkReady {
  rd_SoftState : option Z;
  rd_Snapshot : Snapshot;
  rd_Entries : list Entry;
  rd_CommittedEntries : list Entry
}.

(** What [raftStorage.Compact] returns: no error, [ErrCompacted], or another
    error. *)
Inductive compact_result (T : Type) :=
  | Compacted (t : T)
  | ErrCompacted
  | CompactFailed.

Arguments Compacted {T} _.
Arguments ErrCompacted {T}.
Arguments CompactFailed {T}.

Class Storage (T : Type) := {
  storage_SaveSnap : Snapshot → T → option T;
  storage_Save : list Entry → T → option T;
  storage_Cut : T → option T;
  raftStorage_ApplySnapshot : Snapshot → T → T;
  raftStorage_Append : list Entry → T → T;
  raftStorage_Compact : Z → ConfState → bytes → T → compact_result T;
  raftStorage_Snapshot : T → option Snapshot
}.

Class Saver (S : Type) := {
  store_Save : S → option bytes
}.

(** [etcdraft.IsEmptySnap], of the Raft library. *)
Class SnapLib := {
  IsEmptySnap : Snapshot → bool
}.

(** The variables of [Start] that the goroutines share. *)
Record loop_vars := mkVars {
  v_prevss : option Z;          (* the leader of [prevss]; [None]: nil *)
  v_snapi : Z;
  v_appliedi : Z;
  v_confState : ConfState
}.

(** The committed entries that [Start] hands to [apply]: those from
    [appliedi + 1] on; fatal when the first one is beyond [appliedi + 1]. *)
Definition committed_after (appliedi : Z) (committed : list Entry)
  : outcome (list Entry) :=
  match committed with
  | [] => Ret []
  | e0 :: _ =>
    let firsti := Index e0 in
    if bool_decide (firsti > wrap64 (appliedi + 1)) then Fatal else
    let off := wrap64 (wrap64 (appliedi + 1) - firsti) in
    if bool_decide (off < Z.of_nat (length committed))
    then Ret (drop (Z.to_nat off) committed)
    else Ret []
  end.

Section Ready.
Context {Any S E T : Type} `{!Codec Any} `{!Engine E} `{!Store Any S}
  `{!Saver S} `{!Storage T} {snaplib : SnapLib}.

Abbreviation node := (Node Any S E).

(** [snapshot]: the storage afterwards. *)
Definition snapshot (snapi : Z) (confs : ConfState) (t : T) (n : node)
  : outcome T :=
  match store_Save (n_store n) with
  | None => Fatal
  | Some d =>
    match raftStorage_Compact snapi confs d t with
    | ErrCompacted => Ret t
    | CompactFailed => Fatal
    | Compacted t1 =>
      match storage_Cut t1 with
      | None => Fatal
      | Some t2 =>
        match raftStorage_Snapshot t2 with
        | None => Fatal
        | Some snap =>
          match storage_SaveSnap snap t2 with
          | None => Fatal
          | Some t3 => Ret t3
          end
        end
      end
    end
  end.

(** The [LeaderChanged] that the listener is told, and the new [prevss]. *)
Definition status_change (prev : option Z) (ss : option Z)
  : list (Z * Z) * option Z :=
  match ss with
  | Some lead =>
    (match prev with
     | Some old => if bool_decide (old ≠ lead) then [(old, lead)] else []
     | None => []
     end, Some lead)
  | None => ([], prev)
  end.

(** "Apply snapshot to storage if it is more updated than current snapi." *)
Definition save_incoming (sn : Snapshot) (snapi : Z) (t : T) : outcome (Z * T) :=
  if negb (IsEmptySnap sn) && bool_decide (snap_Index sn > snapi) then
    match storage_SaveSnap sn t with
    | None => Fatal
    | Some t1 => Ret (snap_Index sn, raftStorage_ApplySnapshot sn t1)
    end
  else Ret (snapi, t).

(** "Recover from snapshot if it is more recent than the currently
    applied." *)
Definition recover (sn : Snapshot) (appliedi : Z) (n : node) : outcome (Z * node) :=
  if negb (IsEmptySnap sn) && bool_decide (snap_Index sn > appliedi) then
    match store_Restore (snap_Data sn) (n_store n) with
    | Ret (None, s') => Ret (snap_Index sn, set_store s' n)
    | _ => Fatal
    end
  else Ret (appliedi, n).

Definition apply_committed (committed : list Entry) (appliedi : Z)
    (confs : ConfState) (n : node) : outcome (Z * bool * ConfState * node) :=
  if bool_decide (length committed ≠ 0%nat) then
    match committed_after appliedi committed with
    | Fatal => Fatal
    | Ret ents =>
      if bool_decide (0 < length ents)%nat
      then apply ents confs n
      else Ret (appliedi, false, confs, n)
    end
  else Ret (appliedi, false, confs, n).

(** What the goroutine of [Start] does with one [Ready]: whether it stopped
    the node instead of signalling [adv], what the listener was told, the
    variables of the loop, the storage and the node. *)
Definition Start_ready (rd : Ready) (v : loop_vars) (t : T) (n : node)
  : outcome (bool * list (Z * Z) * loop_vars * T * node) :=
  let '(changes, prevss') := status_change (v_prevss v) (rd_SoftState rd) in
  match save_incoming (rd_Snapshot rd) (v_snapi v) t with
  | Fatal => Fatal
  | Ret (snapi1, t1) =>
    match storage_Save (rd_Entries rd) t1 with
    | None => Fatal
    | Some t2 =>
      let t3 := raftStorage_Append (rd_Entries rd) t2 in
      match recover (rd_Snapshot rd) (v_appliedi v) n with
      | Fatal => Fatal
      | Ret (appliedi1, n1) =>
        match apply_committed (rd_CommittedEntries rd) appliedi1
                (v_confState v) n1 with
        | Fatal => Fatal
        | Ret (appliedi2, shouldStop, confs2, n2) =>
          if shouldStop : bool then
            Ret (true, changes, mkVars prevss' snapi1 appliedi2 confs2, t3, n2)
          else
            if bool_decide (wrap64 (appliedi2 - snapi1) > n_snapCount n2) then
              match snapshot appliedi2 confs2 t3 n2 with
              | Fatal => Fatal
              | Ret t4 =>
                Ret (false, changes, mkVars prevss' appliedi2 appliedi2 confs2,
                     t4, n2)
              end
            else
              Ret (false, changes, mkVars prevss' snapi1 appliedi2 confs2, t3, n2)
        end
      end
    end
  end.

(** The indices of the entries go up by one, from [i] on. *)
Fixpoint consecutive_from (i : Z) (es : list Entry) : Prop :=
  match es with
  | [] => True
  | e :: es' => Index e = i ∧ consecutive_from (i + 1) es'
  end.

Definition consecutive (es : list Entry) : Prop :=
  match es with
  | [] => True
  | e :: _ => consecutive_from (Index e) es
  end.

(** The index of the snapshot of a [Ready] if the snapshot is not empty,
    and 0 if it is. *)
Definition incoming_index (sn : Snapshot) : Z :=
  if IsEmptySnap sn then 0 else snap_Index sn.

(** The index of the last entry; 0 when there is none. *)
Definition final_index (es : list Entry) : Z :=
  match last es with
  | Some e => Index e
  | None => 0
  end.

End Ready.

End Raft.

(** * The synchronous requests ([sync.go]) *)

Module Sync.

(** What a handler hands to [ReplyTo] of the context underneath: its own
    data, or a [response] of [sync.go]. *)
Inductive payload (Data Err : Type) :=
  | Plain (data : option Data)
  | Wrapped (id : Z) (data : option Data) (err : option Err).

Arguments Plain {Data Err} _.
Arguments Wrapped {Data Err} _ _ _.

(** What [sync.go] uses and is declared outside the files at hand is a
    parameter: [MsgType], the three errors (made with [bhgob.Error]),
    [err.Error()], [errors.New], [bhgob.Error], [ctx.Err()], and what
    [ReplyTo] of the context underneath returns.  [Data] is the type of the
    non-nil values of an [interface{}], [Err] the one of the non-nil
    errors. *)
Class Runtime (Data Err : Type) := {
  MsgType : Data → string;
  ErrSyncStopped : Err;
  ErrSyncNoSuchRequest : Err;
  ErrSyncDuplicateResponse : Err;
  Error_text : Err → string;                       (* err.Error() *)
  errors_New : string → Err;
  gob_Error : string → Err;                        (* bhgob.Error(text) *)
  ctx_Err : ctx_error → Err;
  ctx_ReplyTo : Z → payload Data Err → option Err
}.

(** The cases of the [select] of [Process] and of [Start].  The case of
    [done] comes with the order in which the [range] of [drain] goes through
    the map, which Go leaves open. *)
Inductive process_case := SelReply | SelCtxDone.
Inductive start_case :=
  | SelDone (order : list (Z * nat))
  | SelReq.

Section Sync.
Context {Data Err : Type} `{!Runtime Data Err}.

Record request := mkRequest { req_ID : Z; req_Data : option Data }.

Record response := mkResponse {
  res_ID : Z;
  res_Data : option Data;
  res_Err : option Err
}.

Definition request_Type (r : request) : string :=
  match req_Data r with
  | None => "request"
  | Some d => "request-" +:+ MsgType d
  end.

Definition response_Type (r : response) : string :=
  match res_Data r with
  | None => "response"
  | Some d => "response-" +:+ MsgType d
  end.

(** [Sync]: the requests in the channel [reqch] (the oldest first), the map
    [reqs], and what [Start] has emitted so far.  The channels that
    [Process] makes live in a store of their own, with what was sent on them
    and not yet received. *)
Record sync := mkSync {
  reqch : list (request * nat);
  reqs : gmap Z nat;
  chans : gmap nat (list response);
  emitted : list request
}.

Definition reqch_cap : nat := 2048.

Definition NewSync : sync := mkSync [] ∅ ∅ [].

(** [ch <- res] on a channel with one slot; [None]: the slot is taken and
    the send blocks. *)
Definition chan_send (ch : nat) (res : response)
    (cs : gmap nat (list response)) : option (gmap nat (list response)) :=
  match cs !! ch with
  | Some [] => Some (<[ch := [res]]> cs)
  | _ => None
  end.

Definition enque (id : Z) (ch : nat) (s : sync) : sync :=
  mkSync (reqch s) (<[id := ch]> (reqs s)) (chans s) (emitted s).

Definition deque (id : Z) (s : sync) : (option nat * option Err) * sync :=
  match reqs s !! id with
  | None => ((None, Some ErrSyncNoSuchRequest), s)
  | Some ch =>
    ((Some ch, None), mkSync (reqch s) (delete id (reqs s)) (chans s) (emitted s))
  end.

(** [Process], up to its [select]: [id] is what [rand.Int63] gave; the
    channel is made and the request sent on [reqch].  [None]: [reqch] is
    full and the send blocks. *)
Definition Process_submit (id : Z) (data : option Data) (s : sync)
  : option (nat * sync) :=
  if bool_decide (length (reqch s) < reqch_cap)%nat then
    let ch := fresh (dom (chans s)) in
    Some (ch, mkSync (reqch s ++ [(mkRequest id data, ch)]) (reqs s)
                (<[ch := []]> (chans s)) (emitted s))
  else None.

(** The [select] of [Process]: the case taken, if it is ready.  [ctx] is
    [ctx.Err()] once the context is done. *)
Definition Process_select (id : Z) (ch : nat) (ctx : option ctx_error)
    (c : process_case) (s : sync)
  : option ((option Data * option Err) * sync) :=
  match c with
  | SelReply =>
    match chans s !! ch with
    | Some (r :: rest) =>
      Some (match res_Err r with
            | Some e => (None, Some (errors_New (Error_text e)))
            | None => (res_Data r, None)
            end,
            mkSync (reqch s) (reqs s) (<[ch := rest]> (chans s)) (emitted s))
    | _ => None
    end
  | SelCtxDone =>
    match ctx with
    | Some e => Some ((None, Some (ctx_Err e)), (deque id s).2)
    | None => None
    end
  end.

(** [Rcv] on a message whose data is [res]; [None]: the send blocks. *)
Definition Rcv (res : response) (s : sync) : option (option Err * sync) :=
  match deque (res_ID res) s with
  | ((Some ch, _), s') =>
    match chan_send ch res (chans s') with
    | Some cs => Some (None, mkSync (reqch s') (reqs s') cs (emitted s'))
    | None => None
    end
  | ((None, err), s') => Some (err, s')
  end.

(** The loop of [drain] over the entries of [reqs], when no other
    goroutine comes in between. *)
Fixpoint drain_range (l : list (Z * nat)) (s : sync) : option sync :=
  match l with
  | [] => Some s
  | (id, ch) :: l' =>
    match chan_send ch (mkResponse id None (Some ErrSyncStopped)) (chans s) with
    | Some cs =>
      drain_range l' (mkSync (reqch s) (delete id (reqs s)) cs (emitted s))
    | None => None
    end
  end.

(** [drain], when [range] yields the entries of the map in [order]. *)
Definition drain (order : list (Z * nat)) (s : sync) : option sync :=
  if bool_decide (order ≡ₚ map_to_list (reqs s)) then drain_range order s
  else None.

(** One round of the [select] of [Start], when no other goroutine comes in
    between: the state after the case, if the case can be taken (and, for
    [done], if [drain] comes back). *)
Definition Start_select (c : start_case) (s : sync) : option sync :=
  match c with
  | SelDone order => drain order s
  | SelReq =>
    match reqch s with
    | [] => None
    | (req, ch) :: q =>
      Some (mkSync q (reqs (enque (req_ID req) ch s)) (chans s)
              (emitted s ++ [req]))
    end
  end.

(** The channels of the requests that wait (in [reqs] or still in [reqch])
    are empty and pairwise distinct, and no channel holds more than one
    response. *)
Definition sync_wf (s : sync) : Prop :=
  (∀ id ch, reqs s !! id = Some ch → chans s !! ch = Some []) ∧
  (∀ id1 id2 ch, reqs s !! id1 = Some ch → reqs s !! id2 = Some ch → id1 = id2) ∧
  (∀ q ch, (q, ch) ∈ reqch s →
     chans s !! ch = Some [] ∧ ∀ id, reqs s !! id ≠ Some ch) ∧
  NoDup (reqch s).*2 ∧
  (∀ ch l, chans s !! ch = Some l → (length l ≤ 1)%nat).

(** ** The goroutines of a [Sync], step by step

    The callers of [Process], the loop of [Start] and the callers of [Rcv]
    are goroutines of their own, and [sync.go] holds the mutex only over
    parts of what they do: [deque] gives it back after the lookup, before it
    deletes the entry, and [Rcv] sends on the channel after that; [drain]
    keeps it from before its loop until after it.  A step below is what one
    goroutine does before another one can come in between. *)

(** A call of [deque] that has found the channel of [id] and given the
    mutex back: the [delete] is still to come, and for a call from [Rcv] the
    send of [res] after it; a call from the [select] of [Process] sends
    nothing. *)
Inductive op :=
  | OpDelete (id : Z) (ch : nat) (res : option response)
  | OpSend (ch : nat) (res : response).

(** Where [drain] is: it does not run; it holds the mutex, between two
    rounds of its loop; [range] has yielded the entry [id, ch]; the
    response is sent and the entry still to be deleted. *)
Inductive drain_pc :=
  | DIdle
  | DLoop
  | DSend (id : Z) (ch : nat)
  | DDelete (id : Z) (ch : nat).

Global Instance drain_pc_eq_dec : EqDecision drain_pc.
Proof. solve_decision. Defined.

(** The [Sync], where [drain] is, the calls of [deque] and [Rcv] that are
    under way (each under a number of its own), and what the callers of
    [Process] have taken from their channels so far. *)
Record conc := mkConc {
  c_sync : sync;
  c_pc : drain_pc;
  c_ops : gmap nat op;
  c_taken : list (nat * response)
}.

Definition NewConc : conc := mkConc NewSync DIdle ∅ [].

(** What a goroutine does next. *)
Inductive label :=
  | LProcess (id : Z) (data : option Data)
      (* Process: the channel is made and the request sent on reqch *)
  | LServe
      (* Start, case reqch: enque (under the mutex) and Emit *)
  | LStop
      (* Start, case done: drain takes the mutex *)
  | LRange (id : Z)
      (* drain: range yields the entry of id *)
  | LDrainSend
      (* drain: ch <- response{ID: id, Err: ErrSyncStopped} *)
  | LDrainDelete
      (* drain: delete(h.reqs, id) *)
  | LUnlock
      (* drain: range has no entry left, the mutex is given back *)
  | LRcv (res : response)
      (* Rcv: the part of deque under the mutex *)
  | LCtxDone (id : Z)
      (* Process, case ctx.Done: the part of deque under the mutex *)
  | LDelete (i : nat)
      (* the call i of deque: delete(h.reqs, id) *)
  | LSend (i : nat)
      (* the call i of Rcv: ch <- res *)
  | LReply (id : Z) (ch : nat).
      (* Process, case ch: the response is taken from the channel *)

(** The part of [deque] under the mutex, for a call that goes on with
    [res] (a response to send, for [Rcv]).  When the id is not registered
    the call returns [ErrSyncNoSuchRequest] and nothing is under way. *)
Definition deque_locked (id : Z) (res : option response) (c : conc) : conc :=
  match reqs (c_sync c) !! id with
  | Some ch =>
    mkConc (c_sync c) (c_pc c)
      (<[fresh (dom (c_ops c)) := OpDelete id ch res]> (c_ops c)) (c_taken c)
  | None => c
  end.

(** One step of one goroutine; [None] when the goroutine cannot take it:
    it waits for the mutex, its send or its receive blocks, or it is not
    there. *)
Definition cstep (l : label) (c : conc) : option conc :=
  let s := c_sync c in
  match l with
  | LProcess id data =>
    match Process_submit id data s with
    | Some (_, s') => Some (mkConc s' (c_pc c) (c_ops c) (c_taken c))
    | None => None
    end
  | LServe =>
    match c_pc c, Start_select SelReq s with
    | DIdle, Some s' => Some (mkConc s' DIdle (c_ops c) (c_taken c))
    | _, _ => None
    end
  | LStop =>
    match c_pc c with
    | DIdle => Some (mkConc s DLoop (c_ops c) (c_taken c))
    | _ => None
    end
  | LRange id =>
    match c_pc c, reqs s !! id with
    | DLoop, Some ch => Some (mkConc s (DSend id ch) (c_ops c) (c_taken c))
    | _, _ => None
    end
  | LDrainSend =>
    match c_pc c with
    | DSend id ch =>
      match chan_send ch (mkResponse id None (Some ErrSyncStopped)) (chans s) with
      | Some cs =>
        Some (mkConc (mkSync (reqch s) (reqs s) cs (emitted s))
                (DDelete id ch) (c_ops c) (c_taken c))
      | None => None
      end
    | _ => None
    end
  | LDrainDelete =>
    match c_pc c with
    | DDelete id ch =>
      Some (mkConc (mkSync (reqch s) (delete id (reqs s)) (chans s) (emitted s))
              DLoop (c_ops c) (c_taken c))
    | _ => None
    end
  | LUnlock =>
    match c_pc c with
    | DLoop =>
      if bool_decide (reqs s = ∅)
      then Some (mkConc s DIdle (c_ops c) (c_taken c))
      else None
    | _ => None
    end
  | LRcv res =>
    match c_pc c with
    | DIdle => Some (deque_locked (res_ID res) (Some res) c)
    | _ => None
    end
  | LCtxDone id =>
    match c_pc c with
    | DIdle => Some (deque_locked id None c)
    | _ => None
    end
  | LDelete i =>
    match c_ops c !! i with
    | Some (OpDelete id ch r) =>
      Some (mkConc (mkSync (reqch s) (delete id (reqs s)) (chans s) (emitted s))
              (c_pc c)
              (match r with
               | Some res => <[i := OpSend ch res]> (c_ops c)
               | None => delete i (c_ops c)
               end)
              (c_taken c))
    | _ => None
    end
  | LSend i =>
    match c_ops c !! i with
    | Some (OpSend ch res) =>
      match chan_send ch res (chans s) with
      | Some cs =>
        Some (mkConc (mkSync (reqch s) (reqs s) cs (emitted s)) (c_pc c)
                (delete i (c_ops c)) (c_taken c))
      | None => None
      end
    | _ => None
    end
  | LReply id ch =>
    match chans s !! ch with
    | Some (r :: rest) =>
      Some (mkConc (mkSync (reqch s) (reqs s) (<[ch := rest]> (chans s))
                      (emitted s))
              (c_pc c) (c_ops c) (c_taken c ++ [(ch, r)]))
    | _ => None
    end
  end.

Fixpoint crun (ls : list label) (c : conc) : option conc :=
  match ls with
  | [] => Some c
  | l :: ls' =>
    match cstep l c with
    | Some c' => crun ls' c'
    | None => None
    end
  end.

(** The steps of [drain]. *)
Definition is_drain (l : label) : bool :=
  match l with
  | LRange _ | LDrainSend | LDrainDelete | LUnlock => true
  | _ => false
  end.

(** The call goes on to send a response: it comes from [Rcv]. *)
Definition sends (o : op) : bool :=
  match o with
  | OpDelete _ _ (Some _) | OpSend _ _ => true
  | OpDelete _ _ None => false
  end.

(** The id that the call is still to delete, and its channel. *)
Definition op_id (o : op) : option Z :=
  match o with
  | OpDelete id _ _ => Some id
  | OpSend _ _ => None
  end.

Definition op_chan (o : op) : nat :=
  match o with
  | OpDelete _ ch _ | OpSend ch _ => ch
  end.

(** The channel [ch] is in the hands of a goroutine that found it under
    [oid] (or that has deleted the entry already): the channel exists, it
    is not on its way through [reqch], and it is registered under no other
    id. *)
Definition held_by (s : sync) (oid : option Z) (ch : nat) : Prop :=
  is_Some (chans s !! ch) ∧ (ch ∉ (reqch s).*2) ∧
  ∀ id, reqs s !! id = Some ch → oid = Some id.

(** What holds of a [Sync] and its goroutines all along. *)
Definition conc_wf (c : conc) : Prop :=
  let s := c_sync c in
  (∀ id ch, reqs s !! id = Some ch →
     chans s !! ch = Some [] ∨ c_pc c = DDelete id ch) ∧
  (∀ id1 id2 ch, reqs s !! id1 = Some ch → reqs s !! id2 = Some ch → id1 = id2) ∧
  (∀ q ch, (q, ch) ∈ reqch s →
     chans s !! ch = Some [] ∧ ∀ id, reqs s !! id ≠ Some ch) ∧
  NoDup (reqch s).*2 ∧
  (∀ ch l, chans s !! ch = Some l → (length l ≤ 1)%nat) ∧
  (∀ i o, c_ops c !! i = Some o → held_by s (op_id o) (op_chan o)) ∧
  match c_pc c with
  | DSend id ch | DDelete id ch => held_by s (Some id) ch
  | _ => True
  end.

(** ** The handlers of sync requests *)

Definition payload_of (r : response) : payload Data Err :=
  Wrapped (res_ID r) (res_Data r) (res_Err r).

(** What the [Rcv] of a handler does with its context, as far as [ReplyTo]
    goes: it replies to a message from [from] and goes on with what
    [ReplyTo] returned, or it returns. *)
Inductive handler :=
  | Return (err : option Err)
  | ReplyTo (from : Z) (data : option Data) (k : option Err → handler).

(** [syncRcvContext], with what went through [ReplyTo] of the context
    underneath (the oldest first). *)
Record syncRcvContext := mkCtx {
  sc_id : Z;
  sc_from : Z;
  sc_replied : bool;
  sc_sent : list (Z * payload Data Err)
}.

(** [ctx.RcvContext.ReplyTo(msg, p)] for a message from [to]. *)
Definition under_ReplyTo (to : Z) (p : payload Data Err) (sc : syncRcvContext)
  : option Err * syncRcvContext :=
  (ctx_ReplyTo to p,
   mkCtx (sc_id sc) (sc_from sc) (sc_replied sc) (sc_sent sc ++ [(to, p)])).

Definition syncRcvContext_ReplyTo (from : Z) (replyData : option Data)
    (sc : syncRcvContext) : option Err * syncRcvContext :=
  if bool_decide (from ≠ sc_from sc) then under_ReplyTo from (Plain replyData) sc
  else if sc_replied sc then (Some ErrSyncDuplicateResponse, sc)
  else
    under_ReplyTo from (payload_of (mkResponse (sc_id sc) replyData None))
      (mkCtx (sc_id sc) (sc_from sc) true (sc_sent sc)).

(** [h.handler.Rcv(sm, &sc)] *)
Fixpoint handler_Rcv (h : handler) (sc : syncRcvContext)
  : option Err * syncRcvContext :=
  match h with
  | Return err => (err, sc)
  | ReplyTo from data k =>
    let '(e, sc') := syncRcvContext_ReplyTo from data sc in
    handler_Rcv (k e) sc'
  end.

(** [syncHandler.Rcv] on a message from [from] that carries [req]; [h] is
    what the handler does on the data of a message and its sender.  The
    error returned, whether [AbortTx] was called, and what went through
    [ReplyTo] of the context. *)
Definition syncHandler_Rcv (h : option Data → Z → handler) (req : request)
    (from : Z) : option Err * bool * list (Z * payload Data Err) :=
  let sc := mkCtx (req_ID req) from false [] in
  let '(err, sc') := handler_Rcv (h (req_Data req) from) sc in
  match err with
  | Some e =>
    let r := mkResponse (req_ID req) None (Some (gob_Error (Error_text e))) in
    (Some e, true, sc_sent (under_ReplyTo from (payload_of r) sc').2)
  | None =>
    if negb (sc_replied sc') then
      let r := mkResponse (req_ID req) None None in
      (None, false, sc_sent (under_ReplyTo from (payload_of r) sc').2)
    else (None, false, sc_sent sc')
  end.

(** The responses among what was sent, with the sender of the message they
    reply to. *)
Definition responses (sent : list (Z * payload Data Err))
  : list (Z * response) :=
  omap (λ x, match x.2 with
             | Wrapped id d e => Some (x.1, mkResponse id d e)
             | Plain _ => None
             end) sent.

End Sync.

Arguments request Data : clear implicits.
Arguments response Data Err : clear implicits.
Arguments sync Data Err : clear implicits.
Arguments op Data Err : clear implicits.
Arguments conc Data Err : clear implicits.
Arguments label Data Err : clear implicits.
Arguments handler Data Err : clear implicits.
Arguments syncRcvContext Data Err : clear implicits.

End Sync.

(** * The registry as the store of a node, and instances for the examples *)

Module Instances.

Import raftpb Raft.

(** The values that travel in an [interface{}]: the requests of the
    registry, its replies, and [NodeInfo]. *)
Inductive any :=
  | AnyRequest (q : Registry.request)
  | AnyUint64 (v : Z)
  | AnyColony (c : Registry.Colony)
  | AnyNodeInfo (i : NodeInfo).

Definition any_of_reply (r : Registry.reply) : option any :=
  match r with
  | Registry.RNil => None
  | Registry.RUint64 v => Some (AnyUint64 v)
  | Registry.RColony c => Some (AnyColony c)
  end.

Definition request_of_any (a : any) : Registry.request :=
  match a with
  | AnyRequest q => q
  | _ => Registry.otherRequest
  end.

(** The registry is a [Store].  [Restore] decodes a snapshot; the decoder is
    not at hand, and the examples restore nothing. *)
Global Instance registry_Store : Store any Registry.registry := {|
  store_Apply a r :=
    match Registry.Apply (request_of_any a) r with
    | Ret ((rep, err), r') => Ret ((any_of_reply rep, err), r')
    | Fatal => Fatal
    end;
  store_ApplyConfChange cc info r := Registry.ApplyConfChange cc info r;
  store_Restore _ r := Ret (None, r)
|}.

(** A store in the style of the older variant, for the examples: [Apply]
    has one result, the reply. *)
Global Instance registry_OldStore : OldStore any Registry.registry := {|
  old_Apply a r :=
    match a with
    | None => Ret (None, r)
    | Some a =>
      match Registry.Apply (request_of_any a) r with
      | Ret ((rep, _), r') => Ret (any_of_reply rep, r')
      | Fatal => Fatal
      end
    end;
  old_Restore _ r := Ret (None, r)
|}.

(** An engine for the examples: it records what it is given and keeps the
    members. *)
Inductive engine_call :=
  | CallPropose (b : bytes)
  | CallProposeConfChange (cc : ConfChange)
  | CallApplyConfChange (cc : ConfChange).

Record recorder := mkRecorder {
  rec_members : list Z;
  rec_calls : list engine_call
}.

Definition recorder_apply (cc : ConfChange) (e : recorder) : ConfState * recorder :=
  let ms :=
    if bool_decide (cc_NodeID cc = 0) then rec_members e else
    match cc_Type cc with
    | ConfChangeAddNode => rec_members e ++ [cc_NodeID cc]
    | ConfChangeRemoveNode =>
      filter (λ m, m ≠ cc_NodeID cc) (rec_members e)
    | ConfChangeOther _ => rec_members e
    end in
  (mkConfState ms, mkRecorder ms (rec_calls e ++ [CallApplyConfChange cc])).

Global Instance recorder_Engine : Engine recorder := {|
  raft_StartNode id peers := mkRecorder [] [];
  raft_RestartNode id ents := mkRecorder [] [];
  raft_Propose b e := mkRecorder (rec_members e) (rec_calls e ++ [CallPropose b]);
  raft_ProposeConfChange cc e :=
    mkRecorder (rec_members e) (rec_calls e ++ [CallProposeConfChange cc]);
  raft_ApplyConfChange := recorder_apply
|}.

(** A codec for the examples.  A request is three or four bytes: the node,
    the sequence number, and a tag for the data ([0]: nil, [1]: [noOp],
    [2]: [newBeeID], [3]: a [NodeInfo] without address and its id); what
    does not fit is an encoding error.  A conf change is its type, its node
    and its context. *)
Definition byte_of (z : Z) : option Byte.byte :=
  if bool_decide (0 ≤ z < 256) then Byte.of_N (Z.to_N z) else None.

Definition Z_of_byte (b : Byte.byte) : Z := Z.of_N (Byte.to_N b).

Definition tiny_encode (r : Request any) : option bytes :=
  n ← byte_of (NodeID (req_ID r));
  s ← byte_of (Seq (req_ID r));
  match req_Data r with
  | None => Some [n; s; Byte.x00]
  | Some (AnyRequest Registry.noOp) => Some [n; s; Byte.x01]
  | Some (AnyRequest Registry.newBeeID) => Some [n; s; Byte.x02]
  | Some (AnyNodeInfo (mkNodeInfo i "")) =>
    i ← byte_of i; Some [n; s; Byte.x03; i]
  | _ => None
  end.

Definition tiny_decode (b : bytes) : option (Request any) :=
  match b with
  | [n; s; t] =>
    let rid := mkRequestID (Z_of_byte n) (Z_of_byte s) in
    if bool_decide (t = Byte.x00) then Some (mkRequest rid None)
    else if bool_decide (t = Byte.x01)
    then Some (mkRequest rid (Some (AnyRequest Registry.noOp)))
    else if bool_decide (t = Byte.x02)
    then Some (mkRequest rid (Some (AnyRequest Registry.newBeeID)))
    else None
  | [n; s; t; i] =>
    if bool_decide (t = Byte.x03)
    then Some (mkRequest (mkRequestID (Z_of_byte n) (Z_of_byte s))
                 (Some (AnyNodeInfo (mkNodeInfo (Z_of_byte i) ""))))
    else None
  | _ => None
  end.

Definition tiny_unmarshal (b : bytes) : option ConfChange :=
  match b with
  | t :: n :: ctx =>
    Some (mkConfChange 0
            (if bool_decide (t = Byte.x00) then ConfChangeAddNode
             else if bool_decide (t = Byte.x01) then ConfChangeRemoveNode
             else ConfChangeOther (Z_of_byte t))
            (Z_of_byte n) ctx)
  | _ => None
  end.

Global Instance tiny_Codec : Codec any := {|
  encode_Request := tiny_encode;
  decode_Request := tiny_decode;
  decode_NodeInfo _ := None;
  unmarshal_ConfChange := tiny_unmarshal;
  of_NodeInfo := AnyNodeInfo;
  as_NodeInfo a := match a with AnyNodeInfo i => Some i | _ => None end
|}.

Abbreviation tiny_node := (Node any Registry.registry recorder).
Abbreviation tiny_world := (@world any Registry.registry recorder).

(** ** The values of the examples *)

Definition unwrap {A} (default : A) (o : outcome A) : A :=
  match o with Ret a => a | Fatal => default end.

(** A node that starts without a WAL: id 1, [snapCount] 10. *)
Definition ex_fresh : tiny_node :=
  mkNode 1 (mkRecorder [] []) line_init 20 Registry.newRegistry 10 false.

Definition ex_node : tiny_node :=
  unwrap ex_fresh (NewNode 1 [] (mkDisk None None) Registry.newRegistry 10).

(** [Process(ctx, newBeeID{})] and [Process(ctx, nil)] on that node, and the
    entries that carry the two requests. *)
Definition ex_submit_newBeeID :=
  Process_submit (Some (AnyRequest Registry.newBeeID)) ex_node.


Definition ex_pending : pending := mkPending (mkRequestID 1 21) 0.

Definition ex_entry_newBeeID : Entry :=
  mkEntry EntryNormal 1 1 [Byte.x01; Byte.x15; Byte.x02].


(** A conf change that adds node 2, while 1 and 2 are the members. *)
Definition ex_cc : ConfChange := mkConfChange 0 ConfChangeAddNode 2 [].

Definition ex_entry_cc : Entry :=
  mkEntry EntryConfChange 1 2 [Byte.x00; Byte.x02].

Definition ex_confs : ConfState := mkConfState [1; 2].

(** The worlds of the examples start from the fresh node. *)
Definition ex_world : tiny_world := mkWorld ex_node [] [].

(** The entry of the first peer is logged; two requests are drawn whose
    proposals never reach the log; a third one is drawn and logged at index
    2.  Then the node restarts and draws one more id. *)
Definition ex_events_before : list event :=
  [EvSave EntryConfChange [Byte.x00; Byte.x01];
   EvGenID; EvGenID; EvGenID;
   EvSave EntryNormal [Byte.x01; Byte.x17; Byte.x01]].

Definition ex_events_after : list event := [EvGenID].

Definition ex_events_lost : list event :=
  ex_events_before ++ EvRestart :: ex_events_after.

(** The registry after the first peer [{1, "a"}] joined. *)
Definition ex_bootstrapped : Registry.registry :=
  Registry.mkRegistry 1 0 {[ 1 := Registry.mkHiveInfo 1 "a" ]} ∅ ∅.

(** Bee 5 of application "x" is registered, and [BeeID] is 5. *)
Definition ex_bee5 : Registry.BeeInfo :=
  Registry.mkBeeInfo 5 1 "x" Registry.nilColony false.

Definition ex_with_bee5 : Registry.registry :=
  Registry.mkRegistry 1 5 ∅ {[ 5 := ex_bee5 ]} ∅.

Definition ex_without_bee5 : Registry.registry :=
  Registry.mkRegistry 1 5 ∅ ∅ ∅.

(** Three bees of application "x"; bee 1 leads the colony [{1, [2]}] that
    owns the cell "k". *)
Definition ex_old : Registry.Colony := Registry.mkColony 1 [2].
Definition ex_new : Registry.Colony := Registry.mkColony 2 [3].

Definition ex_bee (id : Z) (c : Registry.Colony) : Registry.BeeInfo :=
  Registry.mkBeeInfo id 1 "x" c false.

Definition ex_colonies : Registry.registry :=
  Registry.mkRegistry 1 3 ∅
    {[ 1 := ex_bee 1 ex_old; 2 := ex_bee 2 ex_old;
       3 := ex_bee 3 Registry.nilColony ]}
    {[ ("x", "k") := ex_old ]}.

(** Colony 7 and its cells. *)
Definition ex_c7 : Registry.Colony := Registry.mkColony 7 [].

Definition ex_locked_c0 : Registry.registry :=
  Registry.mkRegistry 1 0 ∅ ∅ {[ ("a", "c0") := ex_c7 ]}.

(** ** More values for the examples *)

(** Bee 6, for the id after [BeeID] of the registry with bee 5. *)
Definition ex_bee6 : Registry.BeeInfo :=
  Registry.mkBeeInfo 6 1 "x" Registry.nilColony false.

(** Node 2 at address "b", and the conf changes that add and remove it. *)
Definition ex_node2 : NodeInfo := mkNodeInfo 2 "b".
Definition ex_add2 : ConfChange := mkConfChange 0 ConfChangeAddNode 2 [].
Definition ex_remove2 : ConfChange := mkConfChange 0 ConfChangeRemoveNode 2 [].

(** Two hives, as a map for [initHives]. *)
Definition ex_two_hives : gmap Z Registry.HiveInfo :=
  {[ 1 := Registry.mkHiveInfo 1 "a"; 2 := Registry.mkHiveInfo 2 "b" ]}.

(** Colonies 3 and 9, without followers. *)
Definition ex_c3 : Registry.Colony := Registry.mkColony 3 [].
Definition ex_c9 : Registry.Colony := Registry.mkColony 9 [].

(** Colonies 1 and 2, without followers, and the requests after which bee 1
    of application "x" leads the colony that owns the cell "k" of
    application "y". *)
Definition ex_c1 : Registry.Colony := Registry.mkColony 1 [].
Definition ex_c2 : Registry.Colony := Registry.mkColony 2 [].

Definition ex_foreign_requests : list Registry.request :=
  [Registry.newBeeID; Registry.addBee (ex_bee 1 Registry.nilColony);
   Registry.lockMappedCell ex_c1 "y" ["k"]].

Definition ex_foreign : Registry.registry :=
  Registry.mkRegistry 1 1 ∅ {[ 1 := ex_bee 1 Registry.nilColony ]}
    {[ ("y", "k") := ex_c1 ]}.

(** The registry is a [Saver]; the encoder is not at hand, and the examples
    save no bytes. *)
Global Instance registry_Saver : Saver Registry.registry := {|
  store_Save _ := Some []
|}.

(** The snapshot without an index is the empty one. *)
Global Instance index_SnapLib : SnapLib := {|
  IsEmptySnap sn := bool_decide (snap_Index sn = 0)
|}.

(** A storage for the examples: it keeps the entries that were appended and
    the last snapshot that was saved, and has no errors. *)
Record memory := mkMemory {
  mem_ents : list Entry;
  mem_snap : option Snapshot
}.

Global Instance memory_Storage : Storage memory := {|
  storage_SaveSnap sn m := Some (mkMemory (mem_ents m) (Some sn));
  storage_Save _ m := Some m;
  storage_Cut m := Some m;
  raftStorage_ApplySnapshot sn m := mkMemory (mem_ents m) (Some sn);
  raftStorage_Append es m := mkMemory (mem_ents m ++ es) (mem_snap m);
  raftStorage_Compact i _ d m :=
    Compacted (mkMemory (mem_ents m) (Some (mkSnapshot i d)));
  raftStorage_Snapshot m := mem_snap m
|}.

(** A [Ready] with one committed entry, the request [newBeeID] at index 1,
    and the variables of a loop that has applied nothing. *)
Definition ex_ready : Ready :=
  mkReady None (mkSnapshot 0 []) [ex_entry_newBeeID] [ex_entry_newBeeID].

Definition ex_vars : loop_vars := mkVars None 0 0 (mkConfState [1]).

(** Three committed entries, at the indices 3, 4 and 5. *)
Definition ex_committed : list Entry :=
  [mkEntry EntryNormal 1 3 []; mkEntry EntryNormal 1 4 [];
   mkEntry EntryNormal 1 5 []].

(** [AddNode(ctx, 3, "")] on the fresh node, the bytes of its request, and
    the entry that carries the conf change. *)
Definition ex_add3 : ConfChange := mkConfChange 0 ConfChangeAddNode 3 [].

Definition ex_context3 : bytes := [Byte.x01; Byte.x15; Byte.x03; Byte.x03].

Definition ex_entry_add3 : Entry :=
  mkEntry EntryConfChange 1 2
    ([Byte.x00; Byte.x03] ++ ex_context3).

(** [AddNode(ctx, 2, "")] while 2 is a member, and its entry. *)
Definition ex_context2 : bytes := [Byte.x01; Byte.x15; Byte.x03; Byte.x02].

Definition ex_entry_add2 : Entry :=
  mkEntry EntryConfChange 1 2
    ([Byte.x00; Byte.x02] ++ ex_context2).

(** A runtime for the examples of [sync.go]: data and errors are texts. *)
Global Instance text_Runtime : Sync.Runtime string string := {|
  Sync.MsgType d := d;
  Sync.ErrSyncStopped := "sync: stopped";
  Sync.ErrSyncNoSuchRequest := "sync: request not found";
  Sync.ErrSyncDuplicateResponse := "sync: duplicate response";
  Sync.Error_text e := e;
  Sync.errors_New t := t;
  Sync.gob_Error t := t;
  Sync.ctx_Err e := match e with
                    | Canceled => "context canceled"
                    | DeadlineExceeded => "context deadline exceeded"
                    end;
  Sync.ctx_ReplyTo _ _ := None
|}.

(** [Process(ctx, "ping")] draws the id 7, and [Start] takes the request;
    the response to it. *)
Definition ex_sync : Sync.sync string string :=
  Sync.mkSync [] {[ 7 := 0%nat ]} {[ 0%nat := [] ]}
    [Sync.mkRequest 7 (Some "ping")].

Definition ex_pong : Sync.response string string :=
  Sync.mkResponse 7 (Some "pong") None.

(** The same with its goroutines: [drain] does not run and no call is
    under way. *)
Definition ex_conc : Sync.conc string string :=
  Sync.mkConc ex_sync Sync.DIdle ∅ [].

(** [Rcv] has found the channel of request 7 before [drain] took the mutex,
    [range] has yielded the entry, and then [Rcv] has deleted the entry and
    sent its response: the channel is full when [drain] comes to its
    send. *)
Definition ex_overlap : list (Sync.label string string) :=
  [Sync.LProcess 7 (Some "ping"); Sync.LServe; Sync.LRcv ex_pong; Sync.LStop;
   Sync.LRange 7; Sync.LDelete 0; Sync.LSend 0].

Definition ex_stuck : Sync.conc string string :=
  Sync.mkConc
    (Sync.mkSync [] ∅ {[ 0%nat := [ex_pong] ]} [Sync.mkRequest 7 (Some "ping")])
    (Sync.DSend 7 0) ∅ [].

End Instances.

(** * Properties of the registry *)

Module RegistryFacts.

Import Registry Instances.

Ltac unfold_M :=
  unfold mbind, M_bind, mret, M_ret, get, put, modify, fatal in *.

(** ** Helper lemmas: hives *)

Lemma addHive_check (info : HiveInfo) (hives : gmap Z HiveInfo) :
  existsb (λ h, bool_decide (hive_Addr h = hive_Addr info)
                && negb (bool_decide (hive_ID h = hive_ID info)))
    (map_to_list hives).*2 = true
  ↔ addr_taken (hive_Addr info) (hive_ID info) hives.
Proof.
  rewrite existsb_exists. split.
  - intros (h & Hin & Hc).
    apply list_elem_of_In, list_elem_of_fmap in Hin as ([k h'] & -> & Hin).
    apply elem_of_map_to_list in Hin. simpl in *.
    apply andb_prop in Hc as [H1 H2].
    apply bool_decide_eq_true in H1.
    apply negb_true_iff, bool_decide_eq_false in H2.
    by exists k, h'.
  - intros (k & h & Hk & Ha & Hi). exists h. split.
    + apply list_elem_of_In, list_elem_of_fmap. exists (k, h). split; [done|].
      by apply elem_of_map_to_list.
    + rewrite bool_decide_eq_true_2 by done.
      by rewrite bool_decide_eq_false_2 by done.
Qed.

Lemma addHive_ok (info : HiveInfo) (r : registry) :
  ¬ addr_taken (hive_Addr info) (hive_ID info) (Hives r) →
  addHive info r = Ret (None, set_Hives (<[hive_ID info := info]> (Hives r)) r).
Proof.
  intros H. unfold addHive. unfold_M.
  destruct (existsb _ _) eqn:E; [|done].
  by apply addHive_check in E.
Qed.

Lemma addHive_fatal (info : HiveInfo) (r : registry) :
  addr_taken (hive_Addr info) (hive_ID info) (Hives r) →
  addHive info r = Fatal.
Proof.
  intros H. unfold addHive. unfold_M.
  apply addHive_check in H. by rewrite H.
Qed.

Lemma wrap64_small (x : Z) :
  0 ≤ x → x + 1 < uint64_modulus → wrap64 (x + 1) = x + 1.
Proof. intros. unfold wrap64. apply Z.mod_small. lia. Qed.

(** ** Helper lemmas: the cell store *)

Lemma elem_of_owned (bee : Z) (s : cellStore) (k : CellKey) :
  k ∈ owned bee s ↔ ∃ a c, s !! (a, k) = Some c ∧ Leader c = bee.
Proof.
  unfold owned. rewrite elem_of_map. split.
  - intros ([a k'] & -> & Hin). apply elem_of_dom in Hin as [c Hc].
    apply map_lookup_filter_Some in Hc as [Hc Hl]. simpl in *. eauto.
  - intros (a & c & Hc & Hl). exists (a, k). split; [done|].
    apply elem_of_dom. exists c. by apply map_lookup_filter_Some.
Qed.

Lemma elem_of_cells (bee : Z) (s : cellStore) (k : CellKey) :
  k ∈ cells bee s ↔ ∃ a c, s !! (a, k) = Some c ∧ Leader c = bee.
Proof. unfold cells. rewrite elem_of_elements. apply elem_of_owned. Qed.

Lemma NoDup_cells (bee : Z) (s : cellStore) : NoDup (cells bee s).
Proof. apply NoDup_elements. Qed.

Lemma lookup_assign_all (app : string) (ks : MappedCells) (c : Colony)
    (s : cellStore) (a : string) (k : CellKey) :
  assign_all app ks c s !! (a, k)
  = if decide (a = app ∧ k ∈ ks) then Some c else s !! (a, k).
Proof.
  unfold assign_all. revert s. induction ks as [|k0 ks IH]; intros s; simpl.
  - rewrite decide_False; [reflexivity|].
    intros [_ H]. by apply elem_of_nil in H.
  - rewrite IH. unfold assign.
    destruct (decide ((app, k0) = (a, k))) as [Heq|Hne].
    + inversion Heq; subst. rewrite lookup_insert_eq.
      rewrite (decide_True (P := a = a ∧ k ∈ k :: ks)).
      * by case_decide.
      * split; [done|]. apply elem_of_cons. by left.
    + rewrite lookup_insert_ne by done.
      pose proof (elem_of_cons ks k k0) as Hcons.
      repeat case_decide; try done; exfalso; intuition congruence.
Qed.

(** ** Helper lemmas: [lock] *)

Lemma Equals_refl (c : Colony) : Equals c c = true.
Proof. unfold Equals. by apply bool_decide_eq_true_2. Qed.

Lemma lock_scan_unmapped (app : string) (ks : MappedCells) (c : Colony)
    (openk : MappedCells) (r : registry) :
  Forall (λ k, colony app k (Store r) = None) ks →
  lock_scan app ks c false openk r = Ret ((c, false, openk ++ ks), r).
Proof.
  revert openk. induction ks as [|k ks IH]; intros openk H; simpl.
  - by rewrite app_nil_r.
  - apply Forall_cons in H as [Hk H]. unfold_M. rewrite Hk. rewrite IH by done.
    by rewrite <- app_assoc.
Qed.

Lemma lock_scan_mapped (app : string) (ks : MappedCells) (c : Colony)
    (locked : bool) (openk : MappedCells) (r : registry) :
  Forall (λ k, colony app k (Store r) = Some c) ks →
  lock_scan app ks c locked openk r
  = Ret ((c, locked || bool_decide (ks ≠ []), openk), r).
Proof.
  revert locked. induction ks as [|k ks IH]; intros locked H; simpl.
  - unfold_M. by rewrite orb_false_r.
  - apply Forall_cons in H as [Hk H]. unfold_M. rewrite Hk, Equals_refl. simpl.
    rewrite andb_false_r. rewrite IH by done. simpl. by rewrite !orb_true_r.
Qed.

(** ** Helper lemmas: the loops of [updateColony] *)

Lemma setColony_one (x : Z) (c : Colony) (r : registry) :
  is_Some (Bees r !! x) →
  ∃ r', (b ← mustFindBee x; setBee x (with_Colony b c)) r = Ret (tt, r') ∧
    same_but_Bees r r' ∧
    ∀ id, Bees r' !! id = paint (bool_decide (id = x)) c <$> Bees r !! id.
Proof.
  intros [b Hb]. unfold mustFindBee, setBee. unfold_M. rewrite Hb.
  eexists. split; [done|]. split; [done|]. simpl. intros id.
  destruct (decide (id = x)) as [->|Hne].
  - rewrite lookup_insert_eq, Hb. simpl. by rewrite bool_decide_eq_true_2.
  - rewrite lookup_insert_ne by done. rewrite bool_decide_eq_false_2 by done.
    unfold paint. by destruct (Bees r !! id).
Qed.

Lemma elem_of_cons_ne (id x : Z) (l : list Z) :
  id ≠ x → bool_decide (id ∈ x :: l) = bool_decide (id ∈ l).
Proof.
  intros Hne. apply bool_decide_ext. rewrite elem_of_cons. tauto.
Qed.

Lemma setColony_loop (l : list Z) (cond : Z → bool) (c : Colony) (r : registry) :
  (∀ f, f ∈ l → cond f = true → is_Some (Bees r !! f)) →
  ∃ r', forM_ l (λ f, if cond f
                      then b ← mustFindBee f; setBee f (with_Colony b c)
                      else mret tt) r = Ret (tt, r') ∧
    same_but_Bees r r' ∧
    ∀ id, Bees r' !! id
          = paint (bool_decide (id ∈ l) && cond id) c <$> Bees r !! id.
Proof.
  revert r. induction l as [|x l IH]; intros r Hex.
  - exists r. split; [done|]. split; [done|]. intros id.
    rewrite bool_decide_eq_false_2 by apply not_elem_of_nil. simpl.
    unfold paint. by destruct (Bees r !! id).
  - simpl. destruct (cond x) eqn:Hc.
    + destruct (setColony_one x c r) as (r1 & Hr1 & Hs1 & Hb1).
      { apply Hex; [|done]. apply elem_of_cons. by left. }
      destruct (IH r1) as (r' & Hr' & Hs' & Hb').
      { intros f Hf Hcf. rewrite Hb1. apply fmap_is_Some.
        apply Hex; [|done]. apply elem_of_cons. by right. }
      exists r'. split.
      { unfold mbind at 1. unfold M_bind at 1. rewrite Hr1. exact Hr'. }
      split.
      { unfold same_but_Bees in *.
        destruct Hs1 as (?&?&?&?), Hs' as (?&?&?&?). repeat split; congruence. }
      intros id. rewrite Hb', Hb1. destruct (Bees r !! id) as [b|]; [|done].
      simpl. f_equal. unfold paint.
      destruct (decide (id = x)) as [->|Hne].
      * rewrite (bool_decide_eq_true_2 (x = x)) by done.
        rewrite (bool_decide_eq_true_2 (x ∈ x :: l)).
        2:{ apply elem_of_cons. by left. }
        rewrite Hc. simpl. by destruct (bool_decide (x ∈ l)).
      * rewrite (bool_decide_eq_false_2 (id = x)) by done.
        by rewrite elem_of_cons_ne.
    + destruct (IH r) as (r' & Hr' & Hs' & Hb').
      { intros f Hf Hcf. apply Hex; [|done]. apply elem_of_cons. by right. }
      exists r'. split.
      { unfold mbind at 1. unfold M_bind at 1.
        unfold mret at 1. unfold M_ret at 1. exact Hr'. }
      split; [done|].
      intros id. rewrite Hb'. destruct (Bees r !! id) as [b|]; [|done].
      simpl. f_equal. unfold paint.
      destruct (decide (id = x)) as [->|Hne].
      * rewrite Hc. by rewrite !andb_false_r.
      * by rewrite elem_of_cons_ne.
Qed.

Lemma Contains_members (c : Colony) (id : Z) :
  Contains c id = true ↔ id ∈ members c.
Proof.
  unfold Contains, members. rewrite orb_true_iff, !bool_decide_eq_true.
  by rewrite elem_of_cons.
Qed.

Lemma do_updateColony_ok (Old New : Colony) (r : registry) :
  IsNil Old = false → IsNil New = false →
  Forall (λ id, is_Some (Bees r !! id)) (members Old ++ members New) →
  ∃ bn r', Bees r !! Leader New = Some bn ∧
    do_updateColony Old New r = Ret (None, r') ∧
    HiveID r' = HiveID r ∧ BeeID r' = BeeID r ∧ Hives r' = Hives r ∧
    Store r'
    = ((λ c, if bool_decide (Leader c = Leader Old) then New else c)
         <$> Store r) ∧
    ∀ id, Bees r' !! id = updated Old New id <$> Bees r !! id.
Proof.
  intros HO HN Hex. rewrite Forall_forall in Hex.
  assert (HcN : ∀ id, Contains New id = true → is_Some (Bees r !! id)).
  { intros id H. apply Hex, elem_of_app. right. by apply Contains_members. }
  assert (HcO : ∀ id, Contains Old id = true → is_Some (Bees r !! id)).
  { intros id H. apply Hex, elem_of_app. left. by apply Contains_members. }
  assert (HlN : Contains New (Leader New) = true).
  { unfold Contains. by rewrite bool_decide_eq_true_2. }
  assert (HlO : Contains Old (Leader Old) = true).
  { unfold Contains. by rewrite bool_decide_eq_true_2. }
  destruct (HcN _ HlN) as [bn Hbn]. exists bn.
  unfold do_updateColony. rewrite HO, HN. simpl.
  unfold mbind at 1. unfold M_bind at 1. unfold mustFindBee at 1.
  unfold mbind at 1. unfold M_bind at 1. unfold get at 1. rewrite Hbn.
  unfold mret at 1. unfold M_ret at 1.
  unfold mbind at 1. unfold M_bind at 1. unfold get at 1.
  unfold store_updateColony.
  unfold mbind at 1. unfold M_bind at 1. unfold put at 1.
  set (r0 := set_Store _ r).
  assert (Hb0 : Bees r0 = Bees r) by done.
  (* the old leader *)
  assert (∃ r1, (if bool_decide (Leader Old ≠ Leader New)
           then b ← mustFindBee (Leader Old);
                setBee (Leader Old)
                  (with_Colony b
                     (if Contains New (Leader Old) then New else nilColony))
           else mret tt) r0 = Ret (tt, r1) ∧ same_but_Bees r0 r1 ∧
           ∀ id, Bees r1 !! id
             = paint (bool_decide (Leader Old ≠ Leader New)
                      && bool_decide (id = Leader Old))
                 (if Contains New (Leader Old) then New else nilColony)
               <$> Bees r !! id)
    as (r1 & Hr1 & Hs1 & Hb1).
  { case_bool_decide as Hd.
    - destruct (setColony_one (Leader Old)
                  (if Contains New (Leader Old) then New else nilColony) r0)
        as (r1 & ? & ? & Hl).
      { rewrite Hb0. by apply HcO. }
      exists r1. split; [done|]. split; [done|]. intros id.
      rewrite Hl. by rewrite Hb0.
    - exists r0. split; [done|]. split; [done|]. intros id. rewrite Hb0. simpl.
      unfold paint. by destruct (Bees r !! id). }
  unfold mbind at 1. unfold M_bind at 1. rewrite Hr1.
  (* the old followers *)
  destruct (setColony_loop (Followers Old) (λ f, negb (Contains New f))
              nilColony r1) as (r2 & Hr2 & Hs2 & Hb2).
  { intros f Hf _. rewrite Hb1. apply fmap_is_Some, HcO.
    unfold Contains. rewrite (bool_decide_eq_true_2 (f ∈ _)) by done.
    by rewrite orb_true_r. }
  unfold mbind at 1. unfold M_bind at 1. rewrite Hr2.
  (* the new followers *)
  destruct (setColony_loop (Followers New) (λ _, true) New r2)
    as (r3 & Hr3 & Hs3 & Hb3).
  { intros f Hf _. rewrite Hb2, Hb1. apply fmap_is_Some, fmap_is_Some, HcN.
    unfold Contains. rewrite (bool_decide_eq_true_2 (f ∈ _)) by done.
    by rewrite orb_true_r. }
  unfold mbind at 1. unfold M_bind at 1. rewrite Hr3.
  (* the new leader *)
  destruct (setColony_one (Leader New) New r3) as (r4 & Hr4 & Hs4 & Hb4).
  { rewrite Hb3, Hb2, Hb1.
    by apply fmap_is_Some, fmap_is_Some, fmap_is_Some, HcN. }
  exists r4. split; [done|]. split.
  { unfold mbind at 1. unfold M_bind at 1.
    unfold mbind at 1 in Hr4. unfold M_bind at 1 in Hr4.
    destruct (mustFindBee (Leader New) r3) as [[b4 r3']|]; [|done].
    unfold mbind at 1. unfold M_bind at 1. by rewrite Hr4. }
  unfold same_but_Bees in *.
  destruct Hs1 as (?&?&?&?), Hs2 as (?&?&?&?), Hs3 as (?&?&?&?),
           Hs4 as (?&?&?&?).
  assert (HiveID r0 = HiveID r) by done.
  assert (BeeID r0 = BeeID r) by done.
  assert (Hives r0 = Hives r) by done.
  assert (Store r0 = ((λ c, if bool_decide (Leader c = Leader Old)
                            then New else c) <$> Store r)) by done.
  split; [congruence|]. split; [congruence|]. split; [congruence|].
  split; [congruence|].
  intros id. rewrite Hb4, Hb3, Hb2, Hb1.
  destruct (Bees r !! id) as [b|]; [|done]. simpl. f_equal.
  unfold updated, paint, Contains.
  destruct (decide (id = Leader New)) as [->|Hn1].
  { rewrite !(bool_decide_eq_true_2 (Leader New = Leader New)) by done. simpl.
    repeat (case_bool_decide || case_match || simpl in * ); try done. }
  rewrite !(bool_decide_eq_false_2 (id = Leader New)) by done. simpl.
  destruct (bool_decide (id ∈ Followers New)) eqn:HfN; simpl.
  { repeat (case_bool_decide || case_match || simpl in * ); try done. }
  destruct (decide (id = Leader Old)) as [->|Hn2].
  { rewrite !(bool_decide_eq_true_2 (Leader Old = Leader Old)) by done.
    rewrite (bool_decide_eq_false_2 (Leader Old = Leader New)) by done.
    rewrite HfN. simpl.
    rewrite (bool_decide_eq_true_2 (Leader Old ≠ Leader New)) by done. simpl.
    by destruct (bool_decide (Leader Old ∈ Followers Old)). }
  rewrite !(bool_decide_eq_false_2 (id = Leader Old)) by done.
  rewrite andb_false_r. simpl.
  by destruct (bool_decide (id ∈ Followers Old)).
Qed.

Lemma do_updateColony_nil (Old New : Colony) (r : registry) :
  IsNil Old = true ∨ IsNil New = true →
  do_updateColony Old New r = Ret (Some ErrInvalidParam, r).
Proof.
  intros H. unfold do_updateColony.
  destruct (IsNil New), (IsNil Old); try done. by destruct H.
Qed.

(** ** The claims about the registry *)

(** C6. For an [addBee(info)] request with a non-zero [info.ID] that is at
    most [BeeID]: when a bee with that id is registered, [Apply] returns
    [ErrDuplicateBee] and the registry is unchanged; when none is, the bee
    is inserted into [Bees]: afterwards the bee registered under [info.ID]
    is [info], the bees under the other ids are those from before, and
    nothing else changes. *)
Theorem addBee_duplicate_or_insert (r : registry) (info : BeeInfo) :
  bee_ID info ≠ 0 → bee_ID info ≤ BeeID r →
  (is_Some (Bees r !! bee_ID info) →
     Apply (addBee info) r = Ret ((RNil, Some ErrDuplicateBee), r)) ∧
  (Bees r !! bee_ID info = None →
     ∃ r', Apply (addBee info) r = Ret ((RNil, None), r') ∧
       Bees r' !! bee_ID info = Some info ∧
       (∀ id, id ≠ bee_ID info → Bees r' !! id = Bees r !! id) ∧
       HiveID r' = HiveID r ∧ BeeID r' = BeeID r ∧ Hives r' = Hives r ∧
       Store r' = Store r).
Proof.
  intros Hnz Hle. unfold Apply, do_addBee, Nil. unfold_M.
  rewrite bool_decide_eq_false_2 by done.
  split.
  - intros [b Hb]. by rewrite Hb.
  - intros Hb. rewrite Hb. rewrite bool_decide_eq_false_2 by lia.
    eexists. split; [reflexivity|]. simpl.
    split; [apply lookup_insert_eq|].
    split; [|done]. intros id Hne. by apply lookup_insert_ne.
Qed.

Lemma addBee_duplicate_or_insert_witness :
  Apply (addBee ex_bee5) ex_with_bee5
  = Ret ((RNil, Some ErrDuplicateBee), ex_with_bee5) ∧
  ∃ r', Apply (addBee ex_bee5) ex_without_bee5 = Ret ((RNil, None), r') ∧
        Bees r' !! 5 = Some ex_bee5 ∧
        (∀ id, id ≠ 5 → Bees r' !! id = None) ∧
        HiveID r' = 1 ∧ BeeID r' = 5 ∧ Hives r' = ∅ ∧ Store r' = ∅.
Proof.
  split.
  - apply (addBee_duplicate_or_insert ex_with_bee5 ex_bee5); simpl;
      [lia | lia | eexists; reflexivity].
  - destruct (addBee_duplicate_or_insert ex_without_bee5 ex_bee5)
      as [_ H]; [simpl; lia | simpl; lia |].
    destruct (H eq_refl) as (r' & H1 & H2 & H3 & H4 & H5 & H6 & H7).
    exists r'. split; [exact H1|]. split; [exact H2|].
    split; [exact H3|]. split; [exact H4|]. split; [exact H5|].
    split; [exact H6|exact H7].
Defined.

(** C7, amended. A fresh registry has [HiveID = 1], and the first
    [newHiveID] applied to it returns 2.  A [newHiveID{Addr}] request
    increments [HiveID] by one (in 64 bits) and returns the new value; with
    a non-empty [Addr] it also records [HiveInfo{new id, Addr}] in [Hives],
    provided no hive with another id has that address already: when one
    has, the process is terminated. *)
Theorem newHiveID_increments (r : registry) (addr : string) :
  let id := wrap64 (HiveID r + 1) in
  HiveID newRegistry = 1 ∧
  (∃ r', Apply (newHiveID addr) newRegistry = Ret ((RUint64 2, None), r')) ∧
  (0 ≤ HiveID r → HiveID r + 1 < uint64_modulus → id = HiveID r + 1) ∧
  (addr = "" →
     Apply (newHiveID addr) r
     = Ret ((RUint64 id, None),
            mkRegistry id (BeeID r) (Hives r) (Bees r) (Store r))) ∧
  (addr ≠ "" → ¬ addr_taken addr id (Hives r) →
     Apply (newHiveID addr) r
     = Ret ((RUint64 id, None),
            mkRegistry id (BeeID r) (<[id := mkHiveInfo id addr]> (Hives r))
              (Bees r) (Store r))) ∧
  (addr ≠ "" → addr_taken addr id (Hives r) →
     Apply (newHiveID addr) r = Fatal).
Proof.
  intros id. split; [done|]. split; [|split; [|split; [|split]]].
  - unfold Apply, do_newHiveID. unfold_M. simpl.
    destruct (decide (addr = "")) as [->|Hne].
    + eexists. reflexivity.
    + rewrite bool_decide_eq_true_2 by done.
      rewrite addHive_ok; [by eexists|].
      simpl. intros (k & h & Hk & _). by rewrite lookup_empty in Hk.
  - intros. by apply wrap64_small.
  - intros ->. unfold Apply, do_newHiveID. unfold_M. by simpl.
  - intros Hne Hfree. unfold Apply, do_newHiveID. unfold_M. simpl.
    rewrite bool_decide_eq_true_2 by done. by rewrite addHive_ok.
  - intros Hne Ht. unfold Apply, do_newHiveID. unfold_M. simpl.
    rewrite bool_decide_eq_true_2 by done. by rewrite addHive_fatal.
Qed.

Lemma newHiveID_increments_witness :
  Apply (newHiveID "") ex_bootstrapped
  = Ret ((RUint64 2, None),
         mkRegistry 2 0 {[ 1 := mkHiveInfo 1 "a" ]} ∅ ∅) ∧
  Apply (newHiveID "b") ex_bootstrapped
  = Ret ((RUint64 2, None),
         mkRegistry 2 0 {[ 1 := mkHiveInfo 1 "a"; 2 := mkHiveInfo 2 "b" ]}
           ∅ ∅).
Proof.
  destruct (newHiveID_increments ex_bootstrapped "")
    as (_ & _ & _ & Hempty & _).
  destruct (newHiveID_increments ex_bootstrapped "b")
    as (_ & _ & _ & _ & Hadd & _).
  split.
  - apply Hempty. reflexivity.
  - apply Hadd; [discriminate|].
    intros (k & h & Hk & Ha & _). simpl in Hk.
    apply lookup_singleton_Some in Hk as [_ <-]. discriminate.
Defined.

(** C7, the claim as stated fails: after the first peer [{1, "a"}] joined,
    [newHiveID{Addr: "a"}] neither returns an id nor records a hive, the
    process is terminated. *)
Lemma newHiveID_fatal_on_taken_address :
  ApplyConfChange (raftpb.mkConfChange 0 raftpb.ConfChangeAddNode 1 [])
    (mkNodeInfo 1 "a") newRegistry = Ret (None, ex_bootstrapped) ∧
  Apply (newHiveID "a") ex_bootstrapped = Fatal.
Proof. split; vm_compute; reflexivity. Qed.

(** C10, amended. [transferCells{From, To}]: [ErrNoSuchBee] when no bee
    with id [From.Leader] is registered; otherwise [ErrInvalidParam] when
    [From.Leader] owns no cells; otherwise the request succeeds, [Bees],
    [Hives], [BeeID] and [HiveID] are as before, and the keys of the cells
    owned by [From.Leader] are assigned to [To] under the application of
    that bee, nothing else changing in the cell store.  When every cell
    owned by [From.Leader] is a cell of the application of that bee, this
    means: every cell owned by [From.Leader] is owned by [To] afterwards,
    every other cell has the owner it had, and no cell is added. *)
Theorem transfer_reassigns (r : registry) (From To : Colony) :
  (Bees r !! Leader From = None →
     Apply (transferCells From To) r = Ret ((RNil, Some ErrNoSuchBee), r)) ∧
  (∀ i, Bees r !! Leader From = Some i →
     (cells (Leader From) (Store r) = [] →
        Apply (transferCells From To) r
        = Ret ((RNil, Some ErrInvalidParam), r)) ∧
     (cells (Leader From) (Store r) ≠ [] →
        ∃ r', Apply (transferCells From To) r = Ret ((RNil, None), r') ∧
          Bees r' = Bees r ∧ Hives r' = Hives r ∧
          BeeID r' = BeeID r ∧ HiveID r' = HiveID r ∧
          (∀ k, k ∈ cells (Leader From) (Store r) →
                colony (bee_App i) k (Store r') = Some To) ∧
          (∀ a k, ¬ (a = bee_App i ∧ k ∈ cells (Leader From) (Store r)) →
                colony a k (Store r') = colony a k (Store r)) ∧
          ((∀ a k c, colony a k (Store r) = Some c →
                     Leader c = Leader From → a = bee_App i) →
           (∀ a k c, colony a k (Store r) = Some c →
                     Leader c = Leader From →
                     colony a k (Store r') = Some To) ∧
           (∀ a k c, colony a k (Store r) = Some c →
                     Leader c ≠ Leader From →
                     colony a k (Store r') = Some c) ∧
           (∀ a k, colony a k (Store r) = None →
                   colony a k (Store r') = None)))).
Proof.
  unfold Apply, transfer. unfold_M. split.
  - by intros ->.
  - intros i ->. split.
    + by intros ->.
    + intros Hne. rewrite bool_decide_eq_false_2.
      2:{ intros Hl. apply Hne. by apply nil_length_inv. }
      eexists. split; [done|]. simpl.
      do 4 (split; [done|]). split; [|split].
      * intros k Hk. unfold colony. rewrite lookup_assign_all.
        by rewrite decide_True.
      * intros a k Hn. unfold colony. rewrite lookup_assign_all.
        by rewrite decide_False.
      * intros Happ.
        assert (Hout : ∀ a k, (∀ c, Store r !! (a, k) = Some c →
                                    Leader c ≠ Leader From) →
                  ¬ (a = bee_App i ∧ k ∈ cells (Leader From) (Store r))).
        { intros a k Hno [-> Hk].
          apply elem_of_cells in Hk as (a' & c' & Hc' & Hl').
          pose proof (Happ _ _ _ Hc' Hl') as ->. by eapply Hno. }
        split; [|split].
        -- intros a k c Hc Hl. unfold colony. rewrite lookup_assign_all.
           rewrite decide_True; [done|]. split; [by eapply Happ|].
           apply elem_of_cells. by exists a, c.
        -- intros a k c Hc Hl. unfold colony in *.
           rewrite lookup_assign_all, decide_False; [done|].
           apply Hout. intros c' Hc'. congruence.
        -- intros a k Hc. unfold colony in *.
           rewrite lookup_assign_all, decide_False; [done|].
           apply Hout. intros c' Hc'. congruence.
Qed.

Lemma transfer_reassigns_witness :
  ∃ r', Apply (transferCells ex_old ex_new) ex_colonies
        = Ret ((RNil, None), r') ∧
    Bees r' = Bees ex_colonies ∧ Hives r' = Hives ex_colonies ∧
    BeeID r' = BeeID ex_colonies ∧ HiveID r' = HiveID ex_colonies ∧
    colony "x" "k" (Store r') = Some ex_new.
Proof.
  destruct (transfer_reassigns ex_colonies ex_old ex_new) as [_ H].
  destruct (H (ex_bee 1 ex_old)) as [_ H']; [reflexivity|].
  destruct H' as (r' & H1 & HB & HH & HI & HJ & _ & _ & Hc).
  - vm_compute. discriminate.
  - exists r'. do 5 (split; [done|]). destruct Hc as [Hc _].
    + intros a k c Hk _. unfold colony in Hk. simpl in Hk.
      apply lookup_singleton_Some in Hk as [Heq _]. by inversion Heq.
    + by apply (Hc "x" "k" ex_old).
Defined.

(** C10, the claim as stated fails.  After [newBeeID], [addBee] of bee 1 of
    application "x" and [lockMappedCell{{1}, "y", ["k"]}], bee 1 is
    registered and owns the cell "k" of application "y".
    [transferCells{{1}, {2}}] succeeds, yet that cell is still owned by the
    colony [{1}] and bee 1 owns as many cells as before: the cell "k" of
    application "x", which nobody owned, is what colony [{2}] received. *)
Lemma transfer_misses_foreign_cell :
  (∃ rs, Apply_all ex_foreign_requests newRegistry = Ret (rs, ex_foreign)) ∧
  is_Some (Bees ex_foreign !! Leader ex_c1) ∧
  colony "y" "k" (Store ex_foreign) = Some ex_c1 ∧
  cells (Leader ex_c1) (Store ex_foreign) = ["k"] ∧
  ∃ r', Apply (transferCells ex_c1 ex_c2) ex_foreign
        = Ret ((RNil, None), r') ∧
    colony "y" "k" (Store r') = Some ex_c1 ∧
    colony "x" "k" (Store ex_foreign) = None ∧
    colony "x" "k" (Store r') = Some ex_c2 ∧
    cells (Leader ex_c1) (Store r') = ["k"].
Proof.
  split; [eexists; vm_compute; reflexivity|].
  split; [eexists; reflexivity|].
  split; [reflexivity|]. split; [vm_compute; reflexivity|].
  eexists. split; [vm_compute; reflexivity|].
  repeat split; vm_compute; reflexivity.
Qed.

(** C5, amended. [lockMappedCell] is idempotent: for a colony [C] with a
    non-zero leader, applying [lockMappedCell{C, a, ks}] to a registry in
    which none of [ks] is mapped returns [C] and assigns every cell of [ks]
    to [C]; applying the same request again returns [C] and leaves the
    registry as it is.  The cells owned by [C.Leader] are then, without
    duplicates, those of [ks] together with those it owned before: exactly
    [ks] when it owned none. *)
Theorem lock_idempotent (r : registry) (C : Colony) (a : string)
    (ks : MappedCells) :
  Leader C ≠ 0 →
  Forall (λ k, colony a k (Store r) = None) ks →
  ∃ r1,
    Apply (lockMappedCell C a ks) r = Ret ((RColony C, None), r1) ∧
    Forall (λ k, colony a k (Store r1) = Some C) ks ∧
    Apply (lockMappedCell C a ks) r1 = Ret ((RColony C, None), r1) ∧
    NoDup (cells (Leader C) (Store r1)) ∧
    (∀ k, k ∈ cells (Leader C) (Store r1)
          ↔ k ∈ ks ∨ k ∈ cells (Leader C) (Store r)) ∧
    (cells (Leader C) (Store r) = [] →
     ∀ k, k ∈ cells (Leader C) (Store r1) ↔ k ∈ ks).
Proof.
  intros Hl Hfree.
  set (r1 := set_Store (assign_all a ks C (Store r)) r). exists r1.
  assert (Hmapped : Forall (λ k, colony a k (Store r1) = Some C) ks).
  { apply Forall_forall. intros k Hk. unfold colony, r1. simpl.
    rewrite lookup_assign_all. by rewrite decide_True. }
  assert (Hcells : ∀ k, k ∈ cells (Leader C) (Store r1)
                        ↔ k ∈ ks ∨ k ∈ cells (Leader C) (Store r)).
  { intros k. rewrite !elem_of_cells. unfold r1. simpl. split.
    - intros (a' & c & Hc & Hlc). rewrite lookup_assign_all in Hc.
      case_decide as Hd.
      + left. by destruct Hd.
      + right. eauto.
    - intros [Hk|(a' & c & Hc & Hlc)].
      + exists a, C. split; [|done]. rewrite lookup_assign_all.
        by rewrite decide_True.
      + destruct (decide (a' = a ∧ k ∈ ks)) as [[-> Hk]|Hn].
        * exists a, C. split; [|done]. rewrite lookup_assign_all.
          by rewrite decide_True.
        * exists a', c. split; [|done]. rewrite lookup_assign_all.
          by rewrite decide_False. }
  split; [|split; [done|split; [|split; [|split; [done|]]]]].
  - unfold Apply, lock. rewrite bool_decide_eq_false_2 by done.
    unfold mbind at 1 2. unfold M_bind. by rewrite lock_scan_unmapped.
  - unfold Apply, lock. rewrite bool_decide_eq_false_2 by done.
    unfold mbind at 1 2. unfold M_bind. rewrite lock_scan_mapped by done.
    simpl. destruct ks; simpl; unfold_M; simpl; by destruct r.
  - apply NoDup_cells.
  - intros Hnone k. rewrite Hcells, Hnone. split; [|by left].
    intros [?|Hin]; [done|]. by apply elem_of_nil in Hin.
Qed.

Lemma lock_idempotent_witness :
  ∃ r1,
    Apply (lockMappedCell ex_c7 "a" ["c1"; "c2"]) newRegistry
    = Ret ((RColony ex_c7, None), r1) ∧
    Forall (λ k, colony "a" k (Store r1) = Some ex_c7) ["c1"; "c2"] ∧
    Apply (lockMappedCell ex_c7 "a" ["c1"; "c2"]) r1
    = Ret ((RColony ex_c7, None), r1) ∧
    NoDup (cells 7 (Store r1)) ∧
    (∀ k, k ∈ cells 7 (Store r1)
          ↔ k ∈ ["c1"; "c2"] ∨ k ∈ cells 7 (Store newRegistry)) ∧
    (cells 7 (Store newRegistry) = [] →
     ∀ k, k ∈ cells 7 (Store r1) ↔ k ∈ ["c1"; "c2"]).
Proof.
  apply (lock_idempotent newRegistry ex_c7 "a" ["c1"; "c2"]).
  - discriminate.
  - repeat constructor.
Defined.

(** C5, the claim as stated fails: colony 7 owns the cell "c0"; none of
    "c1", "c2" is mapped; after the request and after its repetition the
    cells of bee 7 are not exactly "c1", "c2": "c0" is one of them. *)
Lemma lock_keeps_earlier_cells :
  Forall (λ k, colony "a" k (Store ex_locked_c0) = None) ["c1"; "c2"] ∧
  ∃ r1,
    Apply (lockMappedCell ex_c7 "a" ["c1"; "c2"]) ex_locked_c0
    = Ret ((RColony ex_c7, None), r1) ∧
    Apply (lockMappedCell ex_c7 "a" ["c1"; "c2"]) r1
    = Ret ((RColony ex_c7, None), r1) ∧
    "c0" ∈ cells 7 (Store r1) ∧ "c0" ∉ ["c1"; "c2"].
Proof.
  split; [repeat constructor|].
  eexists. split; [vm_compute; reflexivity|].
  split; [vm_compute; reflexivity|]. split.
  - apply elem_of_cells. exists "a", ex_c7. split; reflexivity.
  - intros H. apply elem_of_cons in H as [H|H]; [discriminate|].
    apply elem_of_cons in H as [H|H]; [discriminate|].
    by apply elem_of_nil in H.
Qed.

(** C4. [updateColony{Old, New}]: when one of the colonies is nil, [Apply]
    returns [ErrInvalidParam] and the registry is unchanged.  When both are
    non-nil and every bee they name is in [Bees]: each cell owned by [Old]
    (of whatever application) is owned by [New] afterwards, and the other
    cells are as before; the colony of the old leader is [New] if [New]
    contains it and nil otherwise; the colony of an old follower that [New]
    does not contain is nil; the colony of every member of [New] is [New];
    these bees are otherwise as before, and so are all other bees, the
    hives and the counters. *)
Theorem updateColony_rehomes (r : registry) (Old New : Colony) :
  (IsNil Old = true ∨ IsNil New = true →
     Apply (updateColony Old New) r = Ret ((RNil, Some ErrInvalidParam), r)) ∧
  (IsNil Old = false → IsNil New = false →
   Forall (λ id, is_Some (Bees r !! id)) (members Old ++ members New) →
   ∃ r', Apply (updateColony Old New) r = Ret ((RNil, None), r') ∧
     (∀ a k c, colony a k (Store r) = Some c → Leader c = Leader Old →
               colony a k (Store r') = Some New) ∧
     (∀ a k c, colony a k (Store r) = Some c → Leader c ≠ Leader Old →
               colony a k (Store r') = Some c) ∧
     (∀ a k, colony a k (Store r) = None → colony a k (Store r') = None) ∧
     (∃ bo bo', Bees r !! Leader Old = Some bo ∧
                Bees r' !! Leader Old = Some bo' ∧
                bee_Colony bo'
                = (if Contains New (Leader Old) then New else nilColony) ∧
                same_but_Colony bo bo') ∧
     (∀ f, f ∈ Followers Old → Contains New f = false →
           ∃ b b', Bees r !! f = Some b ∧ Bees r' !! f = Some b' ∧
                   bee_Colony b' = nilColony ∧ same_but_Colony b b') ∧
     (∀ m, m ∈ members New →
           ∃ b b', Bees r !! m = Some b ∧ Bees r' !! m = Some b' ∧
                   bee_Colony b' = New ∧ same_but_Colony b b') ∧
     (∀ id, id ∉ members Old → id ∉ members New →
            Bees r' !! id = Bees r !! id) ∧
     HiveID r' = HiveID r ∧ BeeID r' = BeeID r ∧ Hives r' = Hives r).
Proof.
  split.
  - intros H. unfold Apply. unfold mbind, M_bind.
    by rewrite do_updateColony_nil.
  - intros HO HN Hex.
    destruct (do_updateColony_ok Old New r HO HN Hex)
      as (bn & r' & Hbn & Hrun & HH & HB & HHs & HS & Hbees).
    exists r'. split.
    { unfold Apply. unfold mbind, M_bind. by rewrite Hrun. }
    rewrite Forall_forall in Hex.
    assert (Hsome : ∀ id, id ∈ members Old ∨ id ∈ members New →
                          ∃ b, Bees r !! id = Some b).
    { intros id Hid. apply Hex, elem_of_app. done. }
    assert (Hcol : ∀ a k, colony a k (Store r')
                   = (λ c, if bool_decide (Leader c = Leader Old)
                           then New else c) <$> colony a k (Store r)).
    { intros a k. unfold colony. rewrite HS. apply lookup_fmap. }
    split; [|split; [|split; [|split; [|split; [|split; [|split]]]]]].
    + intros a k c Hc Hl. rewrite Hcol, Hc. simpl.
      by rewrite bool_decide_eq_true_2.
    + intros a k c Hc Hl. rewrite Hcol, Hc. simpl.
      by rewrite bool_decide_eq_false_2.
    + intros a k Hc. by rewrite Hcol, Hc.
    + destruct (Hsome (Leader Old)) as [bo Hbo].
      { left. apply elem_of_cons. by left. }
      exists bo. eexists. split; [done|]. rewrite Hbees, Hbo. simpl.
      split; [reflexivity|]. unfold updated.
      destruct (Contains New (Leader Old)); [done|].
      unfold Contains. by rewrite bool_decide_eq_true_2.
    + intros f Hf HnN. destruct (Hsome f) as [b Hb].
      { left. apply elem_of_cons. by right. }
      exists b. eexists. split; [done|]. rewrite Hbees, Hb. simpl.
      split; [reflexivity|]. unfold updated. rewrite HnN. unfold Contains.
      rewrite (bool_decide_eq_true_2 (f ∈ Followers Old)) by done.
      by rewrite orb_true_r.
    + intros m Hm. destruct (Hsome m) as [b Hb]; [by right|].
      exists b. eexists. split; [done|]. rewrite Hbees, Hb. simpl.
      split; [reflexivity|]. unfold updated.
      apply Contains_members in Hm. by rewrite Hm.
    + intros id HnO HnN. rewrite Hbees. unfold updated.
      destruct (Contains New id) eqn:HcN.
      { by apply Contains_members in HcN. }
      destruct (Contains Old id) eqn:HcO.
      { by apply Contains_members in HcO. }
      by destruct (Bees r !! id).
    + done.
Qed.

Lemma updateColony_rehomes_witness :
  ∃ r', Apply (updateColony ex_old ex_new) ex_colonies = Ret ((RNil, None), r') ∧
    colony "x" "k" (Store r') = Some ex_new ∧
    (∃ b, Bees r' !! 1 = Some b ∧ bee_Colony b = nilColony) ∧
    (∃ b, Bees r' !! 2 = Some b ∧ bee_Colony b = ex_new) ∧
    (∃ b, Bees r' !! 3 = Some b ∧ bee_Colony b = ex_new).
Proof.
  destruct (updateColony_rehomes ex_colonies ex_old ex_new) as [_ H].
  destruct H as (r' & H1 & Hc & _ & _ & Hl & _ & Hm & _);
    [reflexivity | reflexivity | repeat constructor; eexists; reflexivity |].
  exists r'. split; [exact H1|]. split; [by apply (Hc "x" "k" ex_old)|].
  split; [|split].
  - destruct Hl as (bo & bo' & _ & Hb & Hcol & _). exists bo'. by split.
  - destruct (Hm 2) as (b & b' & _ & Hb & Hcol & _); [|by exists b'].
    apply elem_of_cons. by left.
  - destruct (Hm 3) as (b & b' & _ & Hb & Hcol & _); [|by exists b'].
    apply elem_of_cons. right. apply elem_of_cons. by left.
Defined.

End RegistryFacts.

(** * Properties of the node *)

Module RaftFacts.

Import raftpb Raft Instances.

Ltac range := unfold uint64_modulus in *; lia.

Section NodeFacts.
Context {Any S E : Type} `{!Codec Any} `{!Engine E}.

Abbreviation node := (Node Any S E).
Abbreviation world := (@world Any S E).

(** ** Helper lemmas: the line and the callers *)

Lemma line_wait_waiting (id : RequestID) (l : line Any) :
  waiting (mkPending id (line_wait id l).1) (line_wait id l).2.
Proof.
  unfold waiting, line_wait. simpl. split; apply lookup_insert_eq.
Qed.

Lemma Process_submit_waiting (req : option Any) (n n1 : node) (p : pending) :
  Process_submit req n = (inr p, n1) →
  waiting p (n_line n1) ∧ n_store n1 = n_store n ∧ n_done n1 = n_done n ∧
  p_id p = mkRequestID (n_id n) (wrap64 (n_gen n + 1)) ∧
  ∃ b, encode_Request (mkRequest (p_id p) req) = Some b ∧
       n_node n1 = raft_Propose b (n_node n).
Proof.
  unfold Process_submit, genID, GenID. simpl.
  destruct (encode_Request _) as [b|] eqn:Hb; [|done].
  intros [= <- <-]. simpl. split; [apply line_wait_waiting|].
  repeat split; try done. by exists b.
Qed.

Lemma line_call_delivers (p : pending) (res : Response Any) (l : line Any) :
  waiting p l → res_ID res = p_id p →
  chans (line_call res l) !! p_ch p = Some (Some res) ∧
  reqs (line_call res l) !! p_id p = None.
Proof.
  intros [Hr Hc] Hid. unfold line_call. rewrite Hid, Hr. simpl.
  unfold chan_send. rewrite Hc. split.
  - apply lookup_insert_eq.
  - apply lookup_delete_eq.
Qed.





(** ** Helper lemmas: conf changes *)

Lemma containsNode_spec (nodes : list Z) (x : Z) :
  containsNode nodes x = true ↔ x ∈ nodes.
Proof.
  induction nodes as [|n nodes IH]; simpl.
  - split; [done|]. intros H. by apply elem_of_nil in H.
  - rewrite elem_of_cons. case_bool_decide as Hd.
    + split; [|done]. intros _. by left.
    + rewrite IH. split; [by right|]. by intros [?|?].
Qed.

Lemma validConfChange_invalid (cc : ConfChange) (confs : ConfState) :
  ¬ valid_against cc confs →
  ∃ err, validConfChange cc confs = Ret (Some err).
Proof.
  intros Hn. unfold validConfChange, None_. unfold valid_against in Hn.
  case_bool_decide as Hz; [eauto|].
  destruct (cc_Type cc) eqn:Ht.
  - destruct (containsNode _ _) eqn:Hc; [eauto|]. exfalso. apply Hn.
    split; [done|]. split; [|done]. intros _ Hin.
    apply containsNode_spec in Hin. congruence.
  - destruct (containsNode _ _) eqn:Hc; simpl; [|eauto]. exfalso. apply Hn.
    split; [done|]. split; [done|]. intros _. by apply containsNode_spec.
  - exfalso. apply Hn. split; [done|]. split; done.
Qed.

Lemma validConfChange_valid (cc : ConfChange) (confs : ConfState) :
  validConfChange cc confs = Ret None → valid_against cc confs.
Proof.
  unfold validConfChange, None_, valid_against.
  case_bool_decide as Hz; [done|].
  destruct (cc_Type cc) eqn:Ht.
  - destruct (containsNode _ _) eqn:Hc; [done|]. intros _.
    split; [done|]. split; [|done]. intros _ Hin.
    apply containsNode_spec in Hin. congruence.
  - destruct (containsNode _ _) eqn:Hc; simpl; [|done]. intros _.
    split; [done|]. split; [done|]. intros _. by apply containsNode_spec.
  - done.
Qed.

(** ** Helper lemmas: the generator over the lifetimes *)

Lemma wrap64_id (x : Z) : 0 ≤ x < uint64_modulus → wrap64 x = x.
Proof. intros. unfold wrap64. by apply Z.mod_small. Qed.

Lemma wrap64_wrap64_add (a b : Z) : wrap64 (a + wrap64 b) = wrap64 (a + b).
Proof. unfold wrap64. by rewrite Zplus_mod_idemp_r. Qed.

Lemma NewNode_seed `{!Store Any S} (id : Z) (peers : list (Z * bytes))
    (w : WAL) (sn : option Snapshot) (store : S) (snapCount : Z) (n : node) :
  NewNode id peers (mkDisk (Some w) sn) store snapCount = Ret n →
  ∃ e, last (wal_ents w) = Some e ∧
       n_gen n = wrap64 (Index e + 2 * snapCount) ∧
       n_id n = id ∧ n_snapCount n = snapCount.
Proof.
  unfold NewNode, NewNode_boot. simpl.
  destruct (match sn with Some _ => _ | None => _ end) as [s'|]; [|done].
  destruct (wal_id w) as [walid|]; [|done].
  case_bool_decide; [done|].
  unfold last_index. destruct (last (wal_ents w)) as [e|]; [|done].
  intros [= <-]. exists e. simpl. split; [done|].
  unfold NewSeqIDGen. by rewrite wrap64_wrap64_add.
Qed.

Lemma Old_NewNode_seed `{!OldStore Any S} (id : Z) (peers : list (Z * bytes))
    (w : WAL) (sn : option Snapshot) (store : S) (snapCount : Z) (n : node) :
  Old_NewNode id peers (mkDisk (Some w) sn) store snapCount = Ret n →
  ∃ e, last (wal_ents w) = Some e ∧ n_gen n = Index e.
Proof.
  unfold Old_NewNode, NewNode_boot. simpl.
  destruct (match sn with Some _ => _ | None => _ end) as [s'|]; [|done].
  destruct (wal_id w) as [walid|]; [|done].
  case_bool_decide; [done|].
  unfold last_index. destruct (last (wal_ents w)) as [e|]; [|done].
  intros [= <-]. by exists e.
Qed.


(** C3. A committed conf-change entry whose change fails the validation
    against the current [ConfState] (the [NodeID] is zero, an [AddNode]
    names a member, a [RemoveNode] names a non-member): the engine is given
    the change with its [NodeID] set to zero and its other fields as they
    are, the store and the line are untouched (as is the rest of the node),
    the [ConfState] is as before, and [apply] goes on (the entry counts as
    applied, [shouldStop] is false).  The node only comes back from
    [applyConfChange] without an error, that is with the change itself
    given to the engine and the store notified, if the change is valid. *)
Theorem applyConfChange_validates `{!Store Any S} (e : Entry) (cc : ConfChange)
    (confs : ConfState) (n : node) :
  unmarshal_ConfChange (Data e) = Some cc →
  (¬ valid_against cc confs →
     ∃ err n',
       applyConfChange e confs n = Ret (Some err, confs, n') ∧
       n_node n'
       = (raft_ApplyConfChange
            (mkConfChange (cc_ID cc) (cc_Type cc) 0 (cc_Context cc))
            (n_node n)).2 ∧
       n_store n' = n_store n ∧ n_line n' = n_line n ∧
       n_id n' = n_id n ∧ n_gen n' = n_gen n ∧
       n_snapCount n' = n_snapCount n ∧ n_done n' = n_done n ∧
       (Type_ e = EntryConfChange →
        apply [e] confs n = Ret (Index e, false, confs, n'))) ∧
  (∀ confs' n',
     applyConfChange e confs n = Ret (None, confs', n') →
     valid_against cc confs ∧
     confs' = (raft_ApplyConfChange cc (n_node n)).1 ∧
     n_node n' = (raft_ApplyConfChange cc (n_node n)).2 ∧
     ∃ info r, store_ApplyConfChange cc info (n_store n) = Ret (r, n_store n')).
Proof.
  intros Hu. split.
  - intros Hn. destruct (validConfChange_invalid cc confs Hn) as [err Herr].
    exists err. eexists. unfold applyConfChange. rewrite Hu, Herr.
    split; [reflexivity|]. simpl. unfold None_.
    do 7 (split; [reflexivity|]).
    intros Ht. unfold apply, apply_from. rewrite Ht.
    unfold applyConfChange. by rewrite Hu, Herr.
  - intros confs' n' Happ. unfold applyConfChange in Happ.
    rewrite Hu in Happ.
    destruct (validConfChange cc confs) as [[err0|]|] eqn:Hvc; [done| |done].
    split; [by apply validConfChange_valid|].
    destruct (raft_ApplyConfChange cc (n_node n)) as [cs eng] eqn:He. simpl.
    case_bool_decide.
    + simpl in Happ.
      destruct (store_ApplyConfChange _ _ _) as [[r s']|] eqn:Hs; [|done].
      injection Happ as <- <-. simpl. repeat split. eauto.
    + destruct (decode_NodeInfo _) as [info|].
      * case_bool_decide; [done|]. simpl in Happ.
        destruct (store_ApplyConfChange _ _ _) as [[r s']|] eqn:Hs; [|done].
        injection Happ as <- <-. simpl. repeat split. eauto.
      * destruct (decode_Request _) as [req|]; [|done].
        destruct (req_Data req ≫= as_NodeInfo) as [info|]; [|done].
        simpl in Happ.
        destruct (store_ApplyConfChange _ _ _) as [[r s']|] eqn:Hs; [|done].
        injection Happ as <- <-. simpl. repeat split. eauto.
Qed.

End NodeFacts.

(** ** Helper lemmas: the loop *)

Lemma Start_select_in_flight (c : loop_case) (s s' : loop) :
  (if ready_armed s then 0 else 1)%nat = in_flight s →
  Start_select c s = Some s' →
  (if ready_armed s' then 0 else 1)%nat = in_flight s'.
Proof.
  unfold Start_select. destruct s as [a k r]; simpl.
  destruct r; [done|]. intros Hk.
  destruct c; simpl.
  - by intros [= <-].
  - destruct k as [|k]; [done|]. intros [= <-]. simpl.
    destruct a; simpl in *; lia.
  - destruct a; [|done]. intros [= <-]. simpl in *. lia.
  - by intros [= <-].
Qed.

Lemma Start_run_in_flight (cs : list loop_case) (s s' : loop) :
  (if ready_armed s then 0 else 1)%nat = in_flight s →
  Start_run cs s = Some s' →
  (if ready_armed s' then 0 else 1)%nat = in_flight s'.
Proof.
  revert s. induction cs as [|c cs IH]; simpl; intros s Hk.
  - by intros [= <-].
  - destruct (Start_select c s) as [s1|] eqn:H1; [|done].
    apply IH. by apply (Start_select_in_flight c s).
Qed.

Lemma Start_run_app (cs1 cs2 : list loop_case) (s : loop) :
  Start_run (cs1 ++ cs2) s
  = match Start_run cs1 s with
    | Some s' => Start_run cs2 s'
    | None => None
    end.
Proof.
  revert s. induction cs1 as [|c cs1 IH]; simpl; intros s; [done|].
  by destruct (Start_select c s).
Qed.

(** While [ready] is nil and the case [adv] is not taken, [ready] stays
    nil. *)
Lemma Start_run_unarmed (cs : list loop_case) (s s' : loop) :
  ready_armed s = false → CaseAdv ∉ cs →
  Start_run cs s = Some s' → ready_armed s' = false.
Proof.
  revert s. induction cs as [|c cs IH]; simpl; intros s Ha Hn.
  - by intros [= <-].
  - destruct (Start_select c s) as [s1|] eqn:H1; [|done].
    apply IH.
    + revert H1. unfold Start_select. destruct (returned s); [done|].
      destruct c.
      * by intros [= <-].
      * exfalso. apply Hn, elem_of_cons. by left.
      * by rewrite Ha.
      * by intros [= <-].
    + intros Hin. apply Hn, elem_of_cons. by right.
Qed.

(** ** The claims, at the examples *)



Lemma applyConfChange_validates_witness :
  ∃ err n',
    applyConfChange ex_entry_cc ex_confs ex_node
    = Ret (Some err, ex_confs, n') ∧
    rec_calls (n_node n')
    = [CallApplyConfChange (mkConfChange 0 ConfChangeAddNode 0 [])] ∧
    n_store n' = n_store ex_node ∧ n_line n' = n_line ex_node ∧
    apply [ex_entry_cc] ex_confs ex_node = Ret (2, false, ex_confs, n').
Proof.
  destruct (applyConfChange_validates ex_entry_cc ex_cc ex_confs ex_node)
    as [H _]; [reflexivity|].
  destruct H as (err & n' & H1 & H2 & H3 & H4 & _ & _ & _ & _ & H5).
  { intros (_ & Hadd & _). apply (Hadd eq_refl).
    apply elem_of_cons. right. apply elem_of_cons. by left. }
  exists err, n'. split; [exact H1|]. split; [by rewrite H2|].
  split; [exact H3|]. split; [exact H4|]. exact (H5 eq_refl).
Defined.

(** C2. The generator of a node constructed from an existing WAL starts
    from [lastEntryIndex + 2*snapCount], and this does not keep the ids of
    the node apart.  With [snapCount] 10 the fresh node starts from 20 and
    draws 21, 22 and 23; the proposals of 21 and 22 never reach the log,
    the request 23 is logged at index 2, after the entry of the first peer.
    The restarted node starts from 2 + 2*10 = 22, and the id it draws next
    is 23 again: its sequence number is not above the persisted 23, and the
    node has issued one id twice.  (The older variant starts from the index
    of the last entry alone.) *)
Theorem seq_reused_after_restart :
  (∃ (w1 w2 w3 : tiny_world) (e : Entry),
     run ex_events_before ex_world = Ret w1 ∧
     step EvRestart w1 = Ret w2 ∧
     run ex_events_after w2 = Ret w3 ∧
     n_gen (w_node ex_world) = 20 ∧
     w_issued w1
     = [mkRequestID 1 23; mkRequestID 1 22; mkRequestID 1 21] ∧
     persisted_seqs 1 (w_ents w1) = [23] ∧
     last (w_ents w1) = Some e ∧ Index e = 2 ∧
     n_snapCount (w_node w1) = 10 ∧
     n_gen (w_node w2) = Index e + 2 * n_snapCount (w_node w1) ∧
     w_ents w3 = w_ents w1 ∧
     w_issued w3 = mkRequestID 1 23 :: w_issued w1 ∧
     ¬ NoDup (w_issued w3)) ∧
  (∃ w, run ex_events_lost ex_world = Ret w ∧
        w_issued w = [mkRequestID 1 23; mkRequestID 1 23;
                      mkRequestID 1 22; mkRequestID 1 21] ∧
        persisted_seqs 1 (w_ents w) = [23]) ∧
  (∃ n : tiny_node,
     Old_NewNode 1 []
       (mkDisk (Some (mkWAL (Some 1) [mkEntry EntryNormal 1 7 []])) None)
       Registry.newRegistry 10 = Ret n ∧
     n_gen n = 7).
Proof.
  split; [|split].
  - do 4 eexists. split; [vm_compute; reflexivity|].
    split; [vm_compute; reflexivity|]. split; [vm_compute; reflexivity|].
    do 9 (split; [vm_compute; reflexivity|]).
    intros H. apply NoDup_cons in H as [H _]. apply H.
    apply elem_of_cons. by left.
  - eexists. split; [vm_compute; reflexivity|].
    split; [reflexivity|]. vm_compute; reflexivity.
  - eexists. split; [vm_compute; reflexivity|]. reflexivity.
Qed.

(** C9, amended. In the loop of [Start] at most one [Ready] is in flight,
    and between taking a [Ready] and the case [adv] (the advance) the loop
    takes no second [Ready]. (The cases of the ticker and of [stop] stay
    open in between.) *)
Theorem Start_one_Ready_in_flight (cs : list loop_case) (s : loop) :
  Start_run cs Start_init = Some s →
  (in_flight s ≤ 1)%nat ∧
  (ready_armed s = true → in_flight s = 0%nat) ∧
  (∀ cs1 cs2 cs3, cs = cs1 ++ [CaseReady] ++ cs2 ++ [CaseReady] ++ cs3 →
                  CaseAdv ∈ cs2).
Proof.
  intros Hrun.
  pose proof (Start_run_in_flight cs Start_init s eq_refl Hrun) as Hk.
  split; [|split].
  - destruct (ready_armed s); lia.
  - intros Ha. by rewrite Ha in Hk.
  - intros cs1 cs2 cs3 ->.
    destruct (decide (CaseAdv ∈ cs2)) as [|Hn]; [done|exfalso].
    rewrite Start_run_app in Hrun.
    destruct (Start_run cs1 Start_init) as [s1|]; [|done].
    simpl in Hrun.
    destruct (Start_select CaseReady s1) as [s2|] eqn:H2; [|done].
    assert (ready_armed s2 = false) as Ha2.
    { revert H2. unfold Start_select. destruct (returned s1); [done|].
      destruct (ready_armed s1); [|done]. by intros [= <-]. }
    rewrite Start_run_app in Hrun.
    destruct (Start_run cs2 s2) as [s3|] eqn:H3; [|done].
    apply (Start_run_unarmed cs2 s2 s3 Ha2 Hn) in H3.
    simpl in Hrun.
    unfold Start_select in Hrun at 1. rewrite H3 in Hrun.
    by destruct (returned s3).
Qed.

Lemma Start_one_Ready_in_flight_witness :
  (in_flight (mkLoop false 1 false) ≤ 1)%nat ∧
  (∀ cs1 cs2 cs3,
     [CaseReady; CaseTicker; CaseAdv; CaseReady]
     = cs1 ++ [CaseReady] ++ cs2 ++ [CaseReady] ++ cs3 →
     CaseAdv ∈ cs2).
Proof.
  destruct (Start_one_Ready_in_flight
              [CaseReady; CaseTicker; CaseAdv; CaseReady]
              (mkLoop false 1 false)) as (H1 & _ & H3); [reflexivity|].
  split; [exact H1 | exact H3].
Defined.

(** C9, the claim as stated fails: after a [Ready] is taken and before the
    advance, the loop takes the case of the ticker (and calls [Tick]), or
    the case of [stop]. *)
Lemma Start_tick_and_stop_before_advance :
  Start_run [CaseReady; CaseTicker] Start_init = Some (mkLoop false 1 false) ∧
  Start_run [CaseReady; CaseStop] Start_init = Some (mkLoop false 1 true) ∧
  (CaseAdv ∉ [CaseReady; CaseTicker]) ∧ (CaseAdv ∉ [CaseReady; CaseStop]).
Proof.
  split; [reflexivity|]. split; [reflexivity|].
  split; intros H;
    (apply elem_of_cons in H as [H|H]; [discriminate|]);
    (apply elem_of_cons in H as [H|H]; [discriminate|]);
    by apply elem_of_nil in H.
Qed.

End RaftFacts.

(** * More properties of the registry *)

Module RegistryExtra.

Import Registry Instances RegistryFacts.
Import raftpb.

(** ** The bees: round trips *)

Lemma registry_eta (r : registry) :
  mkRegistry (HiveID r) (BeeID r) (Hives r) (Bees r) (Store r) = r.
Proof. by destruct r. Qed.

Lemma set_Bees_same (r : registry) (m : gmap Z BeeInfo) :
  m = Bees r → set_Bees m r = r.
Proof. intros ->. apply registry_eta. Qed.

Lemma set_Hives_same (r : registry) (m : gmap Z HiveInfo) :
  m = Hives r → set_Hives m r = r.
Proof. intros ->. apply registry_eta. Qed.

Lemma with_Hive_back (b : BeeInfo) (h : Z) :
  with_Hive (with_Hive b h) (bee_Hive b) = b.
Proof. by destruct b. Qed.

(** X1. [addBee], [bee] and [delBee] go round: for a bee with a non-zero id
    at most [BeeID] that is not registered, [delBee] returns [ErrNoSuchBee]
    and leaves the registry as it is; after [addBee], [bee] returns the
    info that was added, the lookups of the other ids are as before, and
    [delBee] of the id gives back the registry from before the [addBee]. *)
Theorem addBee_bee_delBee_roundtrip (r : registry) (info : BeeInfo) :
  bee_ID info ≠ 0 → bee_ID info ≤ BeeID r →
  Bees r !! bee_ID info = None →
  Apply (delBee (bee_ID info)) r = Ret ((RNil, Some ErrNoSuchBee), r) ∧
  ∃ r1, Apply (addBee info) r = Ret ((RNil, None), r1) ∧
        bee (bee_ID info) r1 = (info, None) ∧
        (∀ id, id ≠ bee_ID info → bee id r1 = bee id r) ∧
        Apply (delBee (bee_ID info)) r1 = Ret ((RNil, None), r).
Proof.
  intros Hnz Hle Hnone. split.
  - unfold Apply, do_delBee. unfold_M. by rewrite Hnone.
  - eexists. split.
    + unfold Apply, do_addBee, Nil. unfold_M.
      rewrite bool_decide_eq_false_2 by done. rewrite Hnone.
      by rewrite bool_decide_eq_false_2 by lia.
    + split; [|split].
      * unfold bee. simpl. by rewrite lookup_insert_eq.
      * intros id Hne. unfold bee. simpl. by rewrite lookup_insert_ne.
      * unfold Apply, do_delBee. unfold_M. simpl. rewrite lookup_insert_eq.
        simpl. rewrite delete_insert_eq. unfold set_Bees. simpl.
        rewrite delete_id by done. by rewrite registry_eta.
Qed.

(** X2. [moveBee]: a bee that is not registered gives [ErrNoSuchBee], a bee
    that is not on [FromHive] gives [ErrInvalidParam], both without any
    change.  Otherwise [bee] finds the bee on [ToHive] afterwards, no other
    bee is touched, and moving the bee back gives the registry from
    before. *)
Theorem moveBee_there_and_back (r : registry) (id From To : Z) :
  (Bees r !! id = None →
     Apply (moveBee id From To) r = Ret ((RNil, Some ErrNoSuchBee), r)) ∧
  (∀ b, Bees r !! id = Some b →
     (bee_Hive b ≠ From →
        Apply (moveBee id From To) r = Ret ((RNil, Some ErrInvalidParam), r)) ∧
     (bee_Hive b = From →
        ∃ r1, Apply (moveBee id From To) r = Ret ((RNil, None), r1) ∧
          bee id r1 = (with_Hive b To, None) ∧
          (∀ id', id' ≠ id → bee id' r1 = bee id' r) ∧
          Apply (moveBee id To From) r1 = Ret ((RNil, None), r))).
Proof.
  split.
  - intros Hn. unfold Apply, do_moveBee. unfold_M. by rewrite Hn.
  - intros b Hb. split.
    + intros Hne. unfold Apply, do_moveBee. unfold_M. rewrite Hb.
      by rewrite bool_decide_eq_true_2.
    + intros <-. unfold Apply, do_moveBee. unfold_M. rewrite Hb.
      rewrite (bool_decide_eq_false_2 (bee_Hive b ≠ bee_Hive b)) by (by intros ?).
      destruct (decide (bee_Hive b = To)) as [<-|Hne].
      * rewrite bool_decide_eq_true_2 by done. exists r.
        split; [done|]. split.
        { unfold bee. rewrite Hb. by destruct b. }
        split; [done|]. rewrite Hb.
        by rewrite (bool_decide_eq_false_2 (bee_Hive b ≠ bee_Hive b)) by (by intros ?).
      * rewrite bool_decide_eq_false_2 by done. eexists. split; [done|].
        simpl. split; [|split].
        { unfold bee. simpl. by rewrite lookup_insert_eq. }
        { intros id' Hne'. unfold bee. simpl. by rewrite lookup_insert_ne. }
        rewrite lookup_insert_eq. simpl.
        rewrite (bool_decide_eq_false_2 (To ≠ To)) by (by intros ?).
        rewrite (bool_decide_eq_false_2 (To = bee_Hive b)) by (by intros ?).
        rewrite insert_insert_eq. rewrite with_Hive_back.
        unfold set_Bees. simpl. rewrite insert_id by done.
        by rewrite registry_eta.
Qed.

(** ** What [Apply] keeps: the bees, the hives and the counters *)
Lemma bind_Ret {A B} (m : M A) (f : A → M B) (r r' : registry) (b : B) :
  (m ≫= f) r = Ret (b, r') →
  ∃ a r1, m r = Ret (a, r1) ∧ f a r1 = Ret (b, r').
Proof.
  unfold mbind, M_bind. destruct (m r) as [[a r1]|]; [|done]. eauto.
Qed.

Lemma repainted_refl (r : registry) : repainted r r.
Proof. by repeat split. Qed.

Lemma repainted_trans (r1 r2 r3 : registry) :
  repainted r1 r2 → repainted r2 r3 → repainted r1 r3.
Proof.
  intros (?&?&?&Ha) (?&?&?&Hb).
  split; [congruence|]. split; [congruence|]. split; [congruence|].
  intros k. by rewrite Hb, Ha.
Qed.

Lemma same_but_Store_repainted (r r' : registry) :
  same_but_Store r r' → repainted r r'.
Proof.
  intros (?&?&?&Hb). split; [done|]. split; [done|]. split; [done|].
  intros k. by rewrite Hb.
Qed.

Lemma setColony_repainted (x : Z) (c : Colony) (r r' : registry) :
  (b ← mustFindBee x; setBee x (with_Colony b c)) r = Ret (tt, r') →
  repainted r r'.
Proof.
  unfold mustFindBee, setBee. unfold_M.
  destruct (Bees r !! x) as [b|] eqn:Hb; [|done]. intros [= <-].
  split; [done|]. split; [done|]. split; [done|]. simpl. intros k.
  destruct (decide (k = x)) as [->|Hne].
  - by rewrite lookup_insert_eq, Hb.
  - by rewrite lookup_insert_ne.
Qed.

Lemma forM_repainted {A} (l : list A) (body : A → M unit) (r r' : registry) :
  (∀ x r1 r2, body x r1 = Ret (tt, r2) → repainted r1 r2) →
  forM_ l body r = Ret (tt, r') → repainted r r'.
Proof.
  intros Hbody. revert r. induction l as [|x l IH]; intros r; simpl.
  - unfold_M. intros [= <-]. apply repainted_refl.
  - intros H. apply bind_Ret in H as ([] & r1 & H1 & H2).
    eapply repainted_trans; [by eapply Hbody|by apply IH].
Qed.

Lemma do_updateColony_repainted (Old New : Colony) (r r' : registry)
    (e : option error) :
  do_updateColony Old New r = Ret (e, r') → repainted r r'.
Proof.
  unfold do_updateColony.
  destruct (IsNil New || IsNil Old).
  { unfold_M. intros [= _ <-]. apply repainted_refl. }
  intros H. apply bind_Ret in H as (bn & r1 & H1 & H).
  assert (r1 = r) as ->.
  { revert H1. unfold mustFindBee. unfold_M.
    destruct (Bees r !! Leader New); [|done]. by intros [= _ <-]. }
  apply bind_Ret in H as (r0 & r2 & H2 & H).
  unfold get in H2. injection H2 as <- <-.
  unfold store_updateColony in H.
  apply bind_Ret in H as ([] & r3 & H3 & H).
  unfold put in H3. injection H3 as <-.
  apply bind_Ret in H as ([] & r4 & H4 & H).
  apply bind_Ret in H as ([] & r5 & H5 & H).
  apply bind_Ret in H as ([] & r6 & H6 & H).
  apply bind_Ret in H as (b7 & r7 & H7 & H).
  apply bind_Ret in H as ([] & r8 & H8 & H).
  unfold mret, M_ret in H. injection H as _ <-.
  set (r0 := set_Store _ r) in *.
  assert (repainted r r0) as R0.
  { apply same_but_Store_repainted. by repeat split. }
  assert (repainted r0 r4) as R4.
  { revert H4. case_bool_decide.
    - intros H4. by apply setColony_repainted in H4.
    - unfold_M. intros [= <-]. apply repainted_refl. }
  assert (repainted r4 r5) as R5.
  { eapply forM_repainted; [|exact H5]. intros x ra rb. cbv beta.
    destruct (negb (Contains New x)).
    - intros Hx. by apply setColony_repainted in Hx.
    - unfold_M. intros [= <-]. apply repainted_refl. }
  assert (repainted r5 r6) as R6.
  { eapply forM_repainted; [|exact H6]. intros x ra rb. cbv beta.
    intros Hx. by apply setColony_repainted in Hx. }
  assert (repainted r6 r8) as R8.
  { apply (setColony_repainted (Leader New) New).
    unfold mbind at 1. unfold M_bind at 1. rewrite H7. exact H8. }
  eauto using repainted_trans.
Qed.

Lemma lock_scan_frame (app : string) (ks : MappedCells) (c : Colony)
    (locked : bool) (openk : MappedCells) (r r' : registry) x :
  lock_scan app ks c locked openk r = Ret (x, r') → same_but_Store r r'.
Proof.
  revert c locked openk r. induction ks as [|k ks IH]; intros c locked openk r; simpl.
  - unfold_M. intros [= _ <-]. by repeat split.
  - unfold_M. destruct (colony app k (Store r)) as [c'|].
    + destruct (locked && negb (Equals c' c)); [done|]. apply IH.
    + destruct locked.
      * intros H. apply IH in H. destruct H as (?&?&?&?). by repeat split.
      * apply IH.
Qed.

Lemma lock_frame (C : Colony) (app : string) (ks : MappedCells)
    (r r' : registry) x :
  lock C app ks r = Ret (x, r') → same_but_Store r r'.
Proof.
  unfold lock. case_bool_decide as Hz.
  { unfold_M. intros [= _ <-]. by repeat split. }
  intros H. apply bind_Ret in H as ([[c locked] openk] & r1 & H1 & H).
  apply lock_scan_frame in H1. destruct H1 as (?&?&?&?).
  destruct locked; unfold_M; injection H as _ <-; by repeat split.
Qed.

Lemma transfer_frame (From To : Colony) (r r' : registry) x :
  transfer From To r = Ret (x, r') → same_but_Store r r'.
Proof.
  unfold transfer. unfold_M. destruct (Bees r !! Leader From); [|].
  - case_bool_decide; intros [= _ <-]; by repeat split.
  - intros [= _ <-]. by repeat split.
Qed.

Lemma addHive_Ret (info : HiveInfo) (r r' : registry) (e : option error) :
  addHive info r = Ret (e, r') →
  ¬ addr_taken (hive_Addr info) (hive_ID info) (Hives r) ∧
  r' = set_Hives (<[hive_ID info := info]> (Hives r)) r.
Proof.
  intros H. destruct (existsb (λ h, bool_decide (hive_Addr h = hive_Addr info)
                   && negb (bool_decide (hive_ID h = hive_ID info)))
       (map_to_list (Hives r)).*2) eqn:E.
  - apply addHive_check in E. by rewrite addHive_fatal in H.
  - assert (¬ addr_taken (hive_Addr info) (hive_ID info) (Hives r)) as Hn.
    { intros Ht. apply addHive_check in Ht. congruence. }
    split; [done|]. rewrite addHive_ok in H by done. by injection H as _ <-.
Qed.

Lemma insert_hives_wf (info : HiveInfo) (hs : gmap Z HiveInfo) :
  (∀ k1 h1 k2 h2, hs !! k1 = Some h1 → hs !! k2 = Some h2 →
     hive_ID h1 = k1 ∧ (hive_Addr h1 = hive_Addr h2 → k1 = k2)) →
  ¬ addr_taken (hive_Addr info) (hive_ID info) hs →
  ∀ k1 h1 k2 h2, <[hive_ID info := info]> hs !! k1 = Some h1 →
    <[hive_ID info := info]> hs !! k2 = Some h2 →
    hive_ID h1 = k1 ∧ (hive_Addr h1 = hive_Addr h2 → k1 = k2).
Proof.
  intros Hwf Hfree k1 h1 k2 h2 H1 H2.
  destruct (decide (k1 = hive_ID info)) as [->|Hn1];
    destruct (decide (k2 = hive_ID info)) as [->|Hn2].
  - rewrite lookup_insert_eq in H1. by injection H1 as <-.
  - rewrite lookup_insert_eq in H1. injection H1 as <-.
    rewrite lookup_insert_ne in H2 by done. split; [done|]. intros Ha.
    exfalso. apply Hfree. exists k2, h2. split; [done|]. split; [done|].
    destruct (Hwf _ _ _ _ H2 H2) as [-> _]. done.
  - rewrite lookup_insert_eq in H2. injection H2 as <-.
    rewrite lookup_insert_ne in H1 by done.
    destruct (Hwf _ _ _ _ H1 H1) as [Hid _]. split; [done|]. intros Ha.
    exfalso. apply Hfree. exists k1, h1. split; [done|]. split; [done|].
    by rewrite Hid.
  - rewrite lookup_insert_ne in H1 by done.
    rewrite lookup_insert_ne in H2 by done. by apply (Hwf _ _ _ _ H1 H2).
Qed.

Lemma addHive_keeps_hives_wf (info : HiveInfo) (r r' : registry)
    (e : option error) :
  hives_wf r → addHive info r = Ret (e, r') → hives_wf r'.
Proof.
  intros Hwf H. apply addHive_Ret in H as [Hfree ->].
  unfold hives_wf. simpl. by apply insert_hives_wf.
Qed.

Lemma do_newHiveID_Ret (addr : string) (r r' : registry) (id : Z) :
  do_newHiveID addr r = Ret (id, r') →
  id = wrap64 (HiveID r + 1) ∧ HiveID r' = id ∧ BeeID r' = BeeID r ∧
  Bees r' = Bees r ∧ Store r' = Store r ∧
  (hives_wf r → hives_wf r').
Proof.
  unfold do_newHiveID. intros H.
  apply bind_Ret in H as ([] & r1 & H1 & H). unfold modify in H1.
  injection H1 as <-.
  apply bind_Ret in H as (r0 & r2 & H2 & H). unfold get in H2.
  injection H2 as <- <-.
  apply bind_Ret in H as ([] & r3 & H3 & H).
  apply bind_Ret in H as (r4 & r5 & H5 & H). unfold get in H5.
  injection H5 as <- <-. unfold mret, M_ret in H. injection H as <- <-.
  revert H3. case_bool_decide.
  - intros H3. apply bind_Ret in H3 as (e & r6 & H6 & H3).
    unfold mret, M_ret in H3. injection H3 as <-.
    pose proof H6 as H6'. apply addHive_Ret in H6 as [Hfree ->]. simpl.
    do 5 (split; [done|]). intros Hwf.
    eapply addHive_keeps_hives_wf; [|exact H6']. exact Hwf.
  - unfold_M. intros [= <-]. simpl. by do 5 (split; [done|]).
Qed.

(** X3. Whatever request [Apply] is given, when it returns every bee is
    still stored under its own id, and that id is not zero and at most
    [BeeID], provided this was so before and [BeeID] can be incremented
    without wrapping around. *)
Theorem Apply_keeps_bees_wf (req : request) (r r' : registry)
    (x : reply * option error) :
  bees_wf r → 0 ≤ BeeID r → BeeID r + 1 < uint64_modulus →
  Apply req r = Ret (x, r') → bees_wf r'.
Proof.
  intros Hwf H0 Hfree H.
  assert (Hrep : ∀ r2, repainted r r2 → bees_wf r2).
  { intros r2 (_ & HB & _ & Hids) k b' Hb'. rewrite HB.
    specialize (Hids k). rewrite Hb' in Hids. simpl in Hids.
    destruct (Bees r !! k) as [b|] eqn:Hb; [|done]. injection Hids as Hid.
    destruct (Hwf k b Hb) as (? & ? & ?). repeat split; try done. congruence. }
  destruct req; simpl in H.
  - unfold mret, M_ret in H. by injection H as _ <-.
  - apply bind_Ret in H as (id & r1 & H1 & H).
    unfold mret, M_ret in H. injection H as _ <-.
    apply do_newHiveID_Ret in H1 as (_ & HH & HB & Hb & _).
    intros k b Hk. rewrite Hb in Hk. rewrite HB. by apply Hwf.
  - unfold do_newBeeID in H. unfold_M. injection H as _ <-.
    intros k b Hk. simpl in *. destruct (Hwf k b Hk) as (? & ? & ?).
    repeat split; try done. unfold wrap64. rewrite Z.mod_small by lia. lia.
  - apply bind_Ret in H as (e & r1 & H1 & H).
    unfold mret, M_ret in H. injection H as _ <-.
    revert H1. unfold do_addBee, Nil. case_bool_decide as Hz; [done|].
    unfold_M. destruct (Bees r !! bee_ID info) eqn:Hb.
    + by intros [= _ <-].
    + case_bool_decide as Hlt; [done|]. intros [= _ <-].
      intros k b' Hk. simpl in *.
      destruct (decide (k = bee_ID info)) as [->|Hne].
      * rewrite lookup_insert_eq in Hk. injection Hk as <-.
        repeat split; [done|lia].
      * rewrite lookup_insert_ne in Hk by done. by apply Hwf.
  - apply bind_Ret in H as (e & r1 & H1 & H).
    unfold mret, M_ret in H. injection H as _ <-.
    revert H1. unfold do_delBee. unfold_M.
    destruct (Bees r !! id) eqn:Hb; intros [= _ <-]; [|done].
    intros k b' Hk. simpl in *.
    apply lookup_delete_Some in Hk as [_ Hk]. by apply Hwf.
  - apply bind_Ret in H as (e & r1 & H1 & H).
    unfold mret, M_ret in H. injection H as _ <-.
    revert H1. unfold do_moveBee. unfold_M.
    destruct (Bees r !! ID) as [b0|] eqn:Hb; [|by intros [= _ <-]].
    case_bool_decide; [by intros [= _ <-]|].
    case_bool_decide; [by intros [= _ <-]|]. intros [= _ <-].
    intros k b Hk. simpl in *.
    destruct (decide (k = ID)) as [->|Hne].
    * rewrite lookup_insert_eq in Hk. injection Hk as <-. simpl.
      by apply (Hwf ID b0).
    * rewrite lookup_insert_ne in Hk by done. by apply Hwf.
  - apply bind_Ret in H as (e & r1 & H1 & H).
    unfold mret, M_ret in H. injection H as _ <-.
    apply Hrep. by apply (do_updateColony_repainted Old New r r1 e).
  - apply bind_Ret in H as ([c e] & r1 & H1 & H).
    unfold mret, M_ret in H. injection H as _ <-.
    apply Hrep, same_but_Store_repainted. by apply lock_frame in H1.
  - apply bind_Ret in H as (e & r1 & H1 & H).
    unfold mret, M_ret in H. injection H as _ <-.
    apply Hrep, same_but_Store_repainted. by apply transfer_frame in H1.
  - unfold mret, M_ret in H. by injection H as _ <-.
Qed.

Lemma do_updateColony_Hives (Old New : Colony) (r r' : registry) e :
  do_updateColony Old New r = Ret (e, r') → Hives r' = Hives r.
Proof. intros H. by apply do_updateColony_repainted in H as (_ & _ & ? & _). Qed.

(** What [Apply] does to the counters and to the hives, when it returns. *)
Lemma Apply_counters_hives (req : request) (r r' : registry)
    (x : reply * option error) :
  Apply req r = Ret (x, r') →
  (BeeID r' = BeeID r ∨ req = newBeeID ∧ BeeID r' = wrap64 (BeeID r + 1)
                        ∧ x = (RUint64 (BeeID r'), None)) ∧
  (HiveID r' = HiveID r ∧ Hives r' = Hives r
   ∨ ∃ addr, req = newHiveID addr ∧ HiveID r' = wrap64 (HiveID r + 1)
             ∧ x = (RUint64 (HiveID r'), None)).
Proof.
  intros H. destruct req; simpl in H.
  - unfold mret, M_ret in H. injection H as _ <-. by split; left.
  - apply bind_Ret in H as (id & r1 & H1 & H).
    unfold mret, M_ret in H. injection H as <- <-.
    apply do_newHiveID_Ret in H1 as (-> & HH & HB & _).
    split; [by left|]. right. exists Addr. by rewrite HH.
  - unfold do_newBeeID in H. unfold_M. injection H as <- <-. simpl.
    split; [by right|by left].
  - apply bind_Ret in H as (e & r1 & H1 & H).
    unfold mret, M_ret in H. injection H as _ <-.
    revert H1. unfold do_addBee, Nil. case_bool_decide; [done|]. unfold_M.
    destruct (Bees r !! bee_ID info); [by intros [= _ <-]; split; left|].
    case_bool_decide; [done|]. intros [= _ <-]. by split; left.
  - apply bind_Ret in H as (e & r1 & H1 & H).
    unfold mret, M_ret in H. injection H as _ <-.
    revert H1. unfold do_delBee. unfold_M.
    destruct (Bees r !! id); intros [= _ <-]; by split; left.
  - apply bind_Ret in H as (e & r1 & H1 & H).
    unfold mret, M_ret in H. injection H as _ <-.
    revert H1. unfold do_moveBee. unfold_M.
    destruct (Bees r !! ID); [|by intros [= _ <-]; split; left].
    repeat case_bool_decide; intros [= _ <-]; by split; left.
  - apply bind_Ret in H as (e & r1 & H1 & H).
    unfold mret, M_ret in H. injection H as _ <-.
    apply do_updateColony_repainted in H1 as (? & ? & ? & _). by split; left.
  - apply bind_Ret in H as ([c e] & r1 & H1 & H).
    unfold mret, M_ret in H. injection H as _ <-.
    apply lock_frame in H1 as (? & ? & ? & _). by split; left.
  - apply bind_Ret in H as (e & r1 & H1 & H).
    unfold mret, M_ret in H. injection H as _ <-.
    apply transfer_frame in H1 as (? & ? & ? & _). by split; left.
  - unfold mret, M_ret in H. injection H as _ <-. by split; left.
Qed.

(** X5. The counters never go down, and move by at most one per request (as
    long as they do not wrap around): [HiveID] moves exactly when the
    request is a [newHiveID], [BeeID] exactly when it is a [newBeeID], and
    the reply is then the new value of the counter. *)
Theorem Apply_counters_grow (req : request) (r r' : registry)
    (x : reply * option error) :
  counters_free r →
  Apply req r = Ret (x, r') →
  HiveID r ≤ HiveID r' ≤ HiveID r + 1 ∧ BeeID r ≤ BeeID r' ≤ BeeID r + 1 ∧
  (HiveID r' = HiveID r + 1 ↔
     ∃ addr, req = newHiveID addr ∧ x = (RUint64 (HiveID r'), None)) ∧
  (BeeID r' = BeeID r + 1 ↔
     req = newBeeID ∧ x = (RUint64 (BeeID r'), None)).
Proof.
  intros (H0 & H1 & H2 & H3) H.
  destruct (Apply_counters_hives req r r' x H) as [HB HH].
  assert (wrap64 (HiveID r + 1) = HiveID r + 1) as Hw1 by (by apply wrap64_small).
  assert (wrap64 (BeeID r + 1) = BeeID r + 1) as Hw2 by (by apply wrap64_small).
  rewrite Hw1 in HH. rewrite Hw2 in HB.
  split; [|split; [|split]].
  - destruct HH as [[-> _]|(addr & _ & -> & _)]; lia.
  - destruct HB as [->|(_ & -> & _)]; lia.
  - split.
    + intros Heq. destruct HH as [[Hs _]|(addr & -> & _ & ->)]; [lia|].
      by exists addr.
    + intros (addr & -> & _).
      destruct HH as [[Hs _]|(addr' & _ & -> & _)]; [|done].
      exfalso. simpl in H. apply bind_Ret in H as (id & r1 & Hn & Hr).
      unfold mret, M_ret in Hr. injection Hr as _ <-.
      apply do_newHiveID_Ret in Hn as (-> & Hid & _). rewrite Hw1 in Hid. lia.
  - split.
    + intros Heq. destruct HB as [Hs|(-> & _ & ->)]; [lia|done].
    + intros [-> _]. destruct HB as [Hs|(_ & -> & _)]; [|done].
      exfalso. simpl in H. unfold do_newBeeID in H. unfold_M.
      injection H as _ <-. simpl in Hs. lia.
Qed.

(** X4. No two hives get the same address: when every hive is stored under
    its own id and the addresses are pairwise distinct, this is still so
    after every [Apply] and every [ApplyConfChange] that returns.  And an
    [ApplyConfChange] that returns has no error, and has touched nothing but
    [Hives]. *)
Theorem hives_stay_distinct (r : registry) :
  hives_wf r →
  (∀ req x r', Apply req r = Ret (x, r') → hives_wf r') ∧
  (∀ cc n e r', ApplyConfChange cc n r = Ret (e, r') →
     hives_wf r' ∧ e = None ∧
     HiveID r' = HiveID r ∧ BeeID r' = BeeID r ∧ Bees r' = Bees r ∧
     Store r' = Store r).
Proof.
  intros Hwf. split.
  - intros req x r' H. destruct (Apply_counters_hives req r r' x H) as [_ HH].
    destruct HH as [[_ Hs]|(addr & -> & _)].
    + unfold hives_wf. by rewrite Hs.
    + simpl in H. apply bind_Ret in H as (id & r1 & Hn & Hr).
      unfold mret, M_ret in Hr. injection Hr as _ <-.
      apply do_newHiveID_Ret in Hn as (_ & _ & _ & _ & _ & Hk). by apply Hk.
  - intros cc n e r'. unfold ApplyConfChange.
    destruct (raftpb.cc_Type cc).
    + case_bool_decide as Hid; [done|]. intros H.
      apply bind_Ret in H as ([] & r1 & H1 & H).
      unfold mret, M_ret in H. injection H as <- <-.
      revert H1. case_bool_decide as Haddr.
      * intros H1. apply bind_Ret in H1 as (e & r2 & H2 & H1).
        unfold mret, M_ret in H1. injection H1 as <-.
        pose proof (addHive_keeps_hives_wf _ _ _ _ Hwf H2) as Hwf'.
        apply addHive_Ret in H2 as [_ ->]. split; [exact Hwf'|]. by repeat split.
      * unfold_M. intros [= <-]. split; [exact Hwf|]. by repeat split.
    + intros H. apply bind_Ret in H as (e0 & r1 & H1 & H).
      unfold mret, M_ret in H. injection H as <- <-.
      revert H1. unfold delHive. unfold_M.
      destruct (Hives r !! raftpb.cc_NodeID cc) eqn:Hh; intros [= _ <-].
      * split; [|by repeat split]. intros k1 h1 k2 h2 Hk1 Hk2. simpl in *.
        apply lookup_delete_Some in Hk1 as [_ Hk1].
        apply lookup_delete_Some in Hk2 as [_ Hk2]. by apply (Hwf k1 h1 k2 h2).
      * split; [exact Hwf|]. by repeat split.
    + unfold_M. intros [= <- <-]. split; [exact Hwf|]. by repeat split.
Qed.

(** X7. The id that [newBeeID] allocates can always be registered: in a
    registry whose bees have ids at most [BeeID], [newBeeID] followed by
    [addBee] of a bee with the new id returns the id and then no error,
    and the bee is registered: [BeeID] is one higher, [Bees] has the bee
    under the new id, and nothing else has changed. *)
Theorem newBeeID_then_addBee (r : registry) (info : BeeInfo) :
  bees_wf r → 0 ≤ BeeID r → BeeID r + 1 < uint64_modulus →
  bee_ID info = BeeID r + 1 →
  Apply_all [newBeeID; addBee info] r
  = Ret ([(RUint64 (BeeID r + 1), None); (RNil, None)],
         mkRegistry (HiveID r) (BeeID r + 1) (Hives r)
           (<[BeeID r + 1 := info]> (Bees r)) (Store r)).
Proof.
  intros Hwf H0 Hfree Hid. simpl. unfold do_newBeeID, do_addBee, Nil. unfold_M.
  simpl. rewrite wrap64_small by done. rewrite Hid.
  rewrite (bool_decide_eq_false_2 (BeeID r + 1 = 0)) by lia. simpl.
  destruct (Bees r !! (BeeID r + 1)) as [b|] eqn:Hb.
  { destruct (Hwf _ _ Hb) as (_ & _ & ?). lia. }
  by rewrite bool_decide_eq_false_2 by lia.
Qed.

(** X13. [beeAndHive] does not terminate the process when every bee is
    stored under its own id: it returns [ErrNoSuchBee] for an id that is
    not registered, the bee with [ErrNoSuchHive] when the hive of the bee
    is not registered, and the bee with its hive otherwise. *)
Theorem beeAndHive_safe (r : registry) (id : Z) :
  bees_wf r →
  (Bees r !! id = None →
     beeAndHive id r = Ret (zeroBeeInfo, zeroHiveInfo, Some ErrNoSuchBee)) ∧
  (∀ b, Bees r !! id = Some b →
     (Hives r !! bee_Hive b = None →
        beeAndHive id r = Ret (b, zeroHiveInfo, Some ErrNoSuchHive)) ∧
     (∀ h, Hives r !! bee_Hive b = Some h →
        beeAndHive id r = Ret (b, h, None))).
Proof.
  intros Hwf. unfold beeAndHive. split.
  - by intros ->.
  - intros b Hb. rewrite Hb. destruct (Hwf _ _ Hb) as (Hid & _).
    rewrite bool_decide_eq_false_2 by (by intros ?).
    split; [by intros ->|]. by intros h ->.
Qed.

(** ** The bees of a hive, and the bee of cells *)

Lemma elem_of_bees (r : registry) (b : BeeInfo) :
  b ∈ bees r ↔ ∃ k, Bees r !! k = Some b.
Proof.
  unfold bees. rewrite list_elem_of_fmap. split.
  - intros ([k b'] & -> & Hin). exists k. by apply elem_of_map_to_list.
  - intros (k & Hk). exists (k, b). split; [done|]. by apply elem_of_map_to_list.
Qed.

Lemma elem_of_beesOfHive (h : Z) (r : registry) (b : BeeInfo) :
  b ∈ beesOfHive h r ↔ (∃ k, Bees r !! k = Some b) ∧ bee_Hive b = h.
Proof.
  unfold beesOfHive. rewrite list_elem_of_filter, elem_of_bees. tauto.
Qed.

(** X8. [beesOfHive] after [moveBee]: when the bee [id] is on [FromHive] and
    is moved to another hive, it is among the bees of [ToHive] with its hive
    updated, no bee with that id is among the bees of [FromHive], and for
    every hive the bees with other ids are those from before. *)
Theorem moveBee_beesOfHive (r : registry) (id From To : Z) (b : BeeInfo) :
  bees_wf r → Bees r !! id = Some b → bee_Hive b = From → From ≠ To →
  ∃ r1, Apply (moveBee id From To) r = Ret ((RNil, None), r1) ∧
    with_Hive b To ∈ beesOfHive To r1 ∧
    (∀ b', b' ∈ beesOfHive From r1 → bee_ID b' ≠ id) ∧
    (∀ h b', bee_ID b' ≠ id → b' ∈ beesOfHive h r1 ↔ b' ∈ beesOfHive h r).
Proof.
  intros Hwf Hb HF Hne.
  destruct (Hwf _ _ Hb) as (Hid & _).
  exists (set_Bees (<[id := with_Hive b To]> (Bees r)) r). split.
  { unfold Apply, do_moveBee. unfold_M. rewrite Hb.
    rewrite bool_decide_eq_false_2 by (by intros ?).
    by rewrite bool_decide_eq_false_2. }
  split; [|split].
  - apply elem_of_beesOfHive. split; [|done]. exists id. simpl.
    apply lookup_insert_eq.
  - intros b' [(k & Hk) Hh]%elem_of_beesOfHive Hid'. simpl in Hk.
    destruct (decide (k = id)) as [->|Hk'].
    + rewrite lookup_insert_eq in Hk. injection Hk as <-. simpl in Hh. congruence.
    + rewrite lookup_insert_ne in Hk by done.
      destruct (Hwf _ _ Hk) as (? & _). congruence.
  - intros h b' Hid'. rewrite !elem_of_beesOfHive. simpl.
    split; intros [(k & Hk) Hh]; (split; [|done]); exists k.
    + destruct (decide (k = id)) as [->|Hk'].
      * rewrite lookup_insert_eq in Hk. injection Hk as <-. simpl in Hid'. congruence.
      * by rewrite lookup_insert_ne in Hk.
    + destruct (decide (k = id)) as [->|Hk'].
      * rewrite Hb in Hk. injection Hk as <-. congruence.
      * by rewrite lookup_insert_ne.
Qed.

Lemma beeForCells_range_true (app : string) (ks : MappedCells) (info : BeeInfo)
    (hasAll early : bool) (info' : BeeInfo) (r : registry) :
  beeForCells_range app ks info hasAll r = Ret (early, info', true) →
  early = false ∧ hasAll = true ∧
  Forall (λ k, ∃ c, colony app k (Store r) = Some c ∧
                    (Leader c = bee_ID info' ∨ Leader c = 0 ∧ bee_ID info = 0))
    ks ∧
  (bee_ID info ≠ 0 → info' = info) ∧
  (bee_ID info = 0 → bee_ID info' ≠ 0 →
   Bees r !! bee_ID info' = Some info').
Proof.
  revert info hasAll. induction ks as [|k ks IH]; intros info hasAll; simpl.
  - intros [= <- <- <-]. repeat split; try done.
  - destruct (colony app k (Store r)) as [col|] eqn:Hcol.
    2:{ intros H. by apply IH in H as (_ & ? & _). }
    case_bool_decide as Hz.
    + destruct (Bees r !! Leader col) as [b|] eqn:Hb; simpl.
      * case_bool_decide as Hl; [done|].
        assert (bee_ID b = Leader col) as Hl'.
        { destruct (decide (bee_ID b = Leader col)); [done|]. by destruct Hl. }
        destruct hasAll; simpl; [|by intros [= _ _ ?]].
        intros H. apply IH in H as (-> & _ & Hall & Hkeep & Hfound).
        split; [done|]. split; [done|]. split; [|split; [done|]].
        -- apply Forall_cons. split.
           ++ exists col. split; [done|].
              destruct (decide (bee_ID b = 0)) as [H0|H0].
              ** right. split; [congruence|done].
              ** left. rewrite (Hkeep H0). congruence.
           ++ eapply Forall_impl; [exact Hall|]. simpl.
              intros k' (c & Hc & [?|[? ?]]); exists c; split; auto.
        -- intros _ Hnz. destruct (decide (bee_ID b = 0)) as [H0|H0].
           ++ by apply Hfound.
           ++ rewrite (Hkeep H0). by rewrite Hl'.
      * case_bool_decide as Hl; [done|].
        assert (Leader col = 0) as Hl'.
        { destruct (decide (0 = Leader col)) as [<-|]; [done|]. by destruct Hl. }
        destruct hasAll; simpl; [|by intros [= _ _ ?]].
        intros H. apply IH in H as (-> & _ & Hall & Hkeep & Hfound).
        split; [done|]. split; [done|]. split; [|split; [done|]].
        -- apply Forall_cons. split.
           ++ exists col. split; [done|]. by right.
           ++ eapply Forall_impl; [exact Hall|]. simpl.
              intros k' (c & Hc & [?|[? ?]]); exists c; split; auto.
        -- intros _ Hnz. by apply Hfound.
    + case_bool_decide as Hl; simpl; [by intros [= _ _ ?]|].
      assert (bee_ID info = Leader col) as Hl'.
      { destruct (decide (bee_ID info = Leader col)); [done|]. by destruct Hl. }
      destruct hasAll; simpl; [|by intros [= _ _ ?]].
      intros H. apply IH in H as (-> & _ & Hall & Hkeep & Hfound).
      split; [done|]. split; [done|]. split; [|split; [done|done]].
      apply Forall_cons. split.
      * exists col. split; [done|]. left. rewrite (Hkeep Hz). congruence.
      * eapply Forall_impl; [exact Hall|]. simpl.
        intros k' (c & Hc & [?|[? ?]]); exists c; split; auto.
Qed.

(** X9. When [beeForCells] returns a bee with [hasAll] and without an error,
    the bee has a non-zero id and is registered under it, and every cell
    asked for is mapped to a colony whose leader is that bee, or to a colony
    without a leader. *)
Theorem beeForCells_sound (app : string) (ks : MappedCells) (r : registry)
    (info : BeeInfo) :
  beeForCells app ks r = Ret (info, true, None) →
  bee_ID info ≠ 0 ∧ Bees r !! bee_ID info = Some info ∧
  Forall (λ k, ∃ c, colony app k (Store r) = Some c ∧
                    (Leader c = bee_ID info ∨ Leader c = 0)) ks.
Proof.
  unfold beeForCells.
  destruct (beeForCells_range app ks zeroBeeInfo true r)
    as [[[early info'] hasAll]|] eqn:Hr; [|done].
  assert (hasAll = true → early = false ∧
           Forall (λ k, ∃ c, colony app k (Store r) = Some c ∧
                    (Leader c = bee_ID info' ∨ Leader c = 0)) ks ∧
           (bee_ID info' ≠ 0 → Bees r !! bee_ID info' = Some info')) as Hk.
  { intros ->. apply beeForCells_range_true in Hr as (-> & _ & Hall & _ & Hf).
    split; [done|]. split; [|by apply Hf].
    eapply Forall_impl; [exact Hall|]. simpl.
    intros k' (c & Hc & [?|[? ?]]); exists c; split; auto. }
  destruct early.
  - intros [= <- -> ]. by destruct (Hk eq_refl).
  - case_bool_decide as Hz; [done|]. intros [= <- ->].
    destruct (Hk eq_refl) as (_ & Hall & Hf). split; [done|]. split; [by apply Hf|done].
Qed.

Lemma beeForCells_range_all (app : string) (ks : MappedCells) (b : BeeInfo)
    (info : BeeInfo) (r : registry) :
  bee_ID b ≠ 0 → Bees r !! bee_ID b = Some b →
  info = b ∨ bee_ID info = 0 ∧ ks ≠ [] →
  Forall (λ k, ∃ c, colony app k (Store r) = Some c ∧ Leader c = bee_ID b) ks →
  beeForCells_range app ks info true r = Ret (false, b, true).
Proof.
  intros Hnz Hb. revert info. induction ks as [|k ks IH]; intros info Hinfo Hall; simpl.
  - destruct Hinfo as [->|[_ ?]]; done.
  - apply Forall_cons in Hall as [(c & Hc & Hl) Hall]. rewrite Hc.
    destruct Hinfo as [->|[Hz _]].
    + rewrite bool_decide_eq_false_2 by done.
      rewrite bool_decide_eq_false_2 by (by rewrite Hl; intros ?). simpl.
      apply IH; [by left|done].
    + rewrite bool_decide_eq_true_2 by done. rewrite Hl, Hb. simpl.
      rewrite bool_decide_eq_false_2 by (by intros ?). simpl.
      apply IH; [by left|done].
Qed.

(** X10. [lockMappedCell] and then [beeForCells]: when a colony whose
    leader is registered under its id locks cells (at least one) that are
    all unmapped, [beeForCells] for these cells returns the leader, with
    [hasAll] and without an error. *)
Theorem lock_then_beeForCells (r : registry) (C : Colony) (a : string)
    (ks : MappedCells) (b : BeeInfo) :
  Leader C ≠ 0 → ks ≠ [] →
  Forall (λ k, colony a k (Store r) = None) ks →
  Bees r !! Leader C = Some b → bee_ID b = Leader C →
  ∃ r1, Apply (lockMappedCell C a ks) r = Ret ((RColony C, None), r1) ∧
        beeForCells a ks r1 = Ret (b, true, None).
Proof.
  intros Hl Hks Hfree Hb Hid.
  exists (set_Store (assign_all a ks C (Store r)) r). split.
  { unfold Apply, lock. rewrite bool_decide_eq_false_2 by done.
    unfold mbind at 1 2. unfold M_bind. by rewrite lock_scan_unmapped. }
  unfold beeForCells.
  rewrite (beeForCells_range_all a ks b).
  - rewrite bool_decide_eq_false_2; [done|]. congruence.
  - congruence.
  - simpl. by rewrite Hid.
  - right. done.
  - apply Forall_forall. intros k Hk. exists C. split; [|done].
    unfold colony. simpl. rewrite lookup_assign_all. by rewrite decide_True.
Qed.

(** ** [lock] on cells that are mapped *)

Lemma lock_scan_locked (app : string) (ks : MappedCells) (C' : Colony)
    (openk : MappedCells) (r : registry) :
  Forall (λ k, colony app k (Store r) = None ∨
               colony app k (Store r) = Some C') ks →
  ∃ r', lock_scan app ks C' true openk r = Ret ((C', true, openk), r') ∧
    same_but_Store r r' ∧
    (∀ k, k ∈ ks → colony app k (Store r') = Some C') ∧
    (∀ a k, ¬ (a = app ∧ k ∈ ks) → Store r' !! (a, k) = Store r !! (a, k)) ∧
    (∀ a k c, Store r !! (a, k) = Some c → Store r' !! (a, k) = Some c).
Proof.
  revert r. induction ks as [|k ks IH]; intros r Hall; simpl.
  - exists r. split; [done|]. split; [done|]. split.
    { intros k Hk. by apply elem_of_nil in Hk. }
    split; done.
  - apply Forall_cons in Hall as [Hk Hall]. unfold_M.
    destruct (colony app k (Store r)) as [c|] eqn:Hc.
    + destruct Hk as [?|[= ->]]; [done|]. rewrite Equals_refl. simpl.
      destruct (IH r Hall) as (r' & -> & Hs & Hin & Hout & Hkeep).
      exists r'. split; [done|]. split; [done|]. split; [|split; [|done]].
      * intros k' [->|Hk']%elem_of_cons; [|by apply Hin].
        unfold colony. by apply Hkeep.
      * intros a k' Hn. apply Hout. intros [-> ?]. apply Hn. split; [done|].
        apply elem_of_cons. by right.
    + set (r1 := set_Store (assign app k C' (Store r)) r).
      assert (∀ a k' c, Store r !! (a, k') = Some c →
                        Store r1 !! (a, k') = Some c) as Hmono.
      { intros a k' c Hl. simpl. unfold assign.
        rewrite lookup_insert_ne; [done|]. intros [= <- <-].
        unfold colony in Hc. congruence. }
      destruct (IH r1) as (r' & -> & Hs & Hin & Hout & Hkeep).
      { eapply Forall_impl; [exact Hall|]. simpl. intros k' [Hn|Hs].
        - unfold colony, assign.
          destruct (decide (k' = k)) as [->|Hne].
          + right. apply lookup_insert_eq.
          + left. rewrite lookup_insert_ne; [done|]. congruence.
        - right. by apply Hmono. }
      exists r'. split; [done|]. split; [|split; [|split]].
      * destruct Hs as (? & ? & ? & ?). by repeat split.
      * intros k' [->|Hk']%elem_of_cons; [|by apply Hin].
        unfold colony. apply Hkeep. simpl. unfold assign. apply lookup_insert_eq.
      * intros a k' Hn. rewrite Hout.
        -- simpl. unfold assign. rewrite lookup_insert_ne; [done|].
           intros [= <- <-]. apply Hn. split; [done|]. apply elem_of_cons. by left.
        -- intros [-> ?]. apply Hn. split; [done|]. apply elem_of_cons. by right.
      * intros a k' c Hl. apply Hkeep. by apply Hmono.
Qed.

Lemma lock_scan_open (app : string) (ks : MappedCells) (c C' : Colony)
    (openk : MappedCells) (r : registry) :
  Forall (λ k, colony app k (Store r) = None ∨
               colony app k (Store r) = Some C') ks →
  Exists (λ k, colony app k (Store r) = Some C') ks →
  ∃ r' openk',
    lock_scan app ks c false openk r = Ret ((C', true, openk'), r') ∧
    same_but_Store r r' ∧
    (∀ k, k ∈ openk' → k ∈ openk ∨ k ∈ ks) ∧
    (∀ k, k ∈ openk → k ∈ openk') ∧
    (∀ k, k ∈ ks → k ∈ openk' ∨ colony app k (Store r') = Some C') ∧
    (∀ a k, ¬ (a = app ∧ k ∈ ks) → Store r' !! (a, k) = Store r !! (a, k)) ∧
    (∀ a k c, Store r !! (a, k) = Some c → Store r' !! (a, k) = Some c).
Proof.
  revert openk. induction ks as [|k ks IH]; intros openk Hall Hex; simpl.
  - by apply Exists_nil in Hex.
  - apply Forall_cons in Hall as [Hk Hall]. unfold_M.
    destruct (colony app k (Store r)) as [c0|] eqn:Hc.
    + destruct Hk as [?|[= ->]]; [done|].
      destruct (lock_scan_locked app ks C' openk r Hall)
        as (r' & -> & Hs & Hin & Hout & Hkeep).
      exists r', openk. split; [done|]. split; [done|].
      split; [by left|]. split; [done|]. split; [|split; [|done]].
      * intros k' [->|Hk']%elem_of_cons; right; [|by apply Hin].
        unfold colony. by apply Hkeep.
      * intros a k' Hn. apply Hout. intros [-> ?]. apply Hn. split; [done|].
        apply elem_of_cons. by right.
    + apply Exists_cons in Hex as [Hex|Hex]; [congruence|].
      destruct (IH (openk ++ [k]) Hall Hex)
        as (r' & openk' & -> & Hs & Hsub & Hpre & Hin & Hout & Hkeep).
      exists r', openk'. split; [done|]. split; [done|].
      split; [|split; [|split; [|split; [|done]]]].
      * intros k' Hk'. destruct (Hsub _ Hk') as [[?|Hl]%elem_of_app|?].
        -- by left.
        -- apply list_elem_of_singleton in Hl as ->. right.
           apply elem_of_cons. by left.
        -- right. apply elem_of_cons. by right.
      * intros k' Hk'. apply Hpre. apply elem_of_app. by left.
      * intros k' [->|Hk']%elem_of_cons; [|by apply Hin].
        left. apply Hpre. apply elem_of_app. right. by apply list_elem_of_singleton.
      * intros a k' Hn. apply Hout. intros [-> ?]. apply Hn. split; [done|].
        apply elem_of_cons. by right.
Qed.

(** X11. [lockMappedCell] for cells of which some are mapped, all of them to
    the colony [C']: whatever colony with a leader asks, the reply is [C'],
    every cell asked for is mapped to [C'] afterwards, and nothing else
    changes, in the store or outside of it. *)
Theorem lock_adopts_owner (r : registry) (C C' : Colony) (a : string)
    (ks : MappedCells) :
  Leader C ≠ 0 →
  Forall (λ k, colony a k (Store r) = None ∨
               colony a k (Store r) = Some C') ks →
  Exists (λ k, colony a k (Store r) = Some C') ks →
  ∃ r', Apply (lockMappedCell C a ks) r = Ret ((RColony C', None), r') ∧
    same_but_Store r r' ∧
    (∀ k, k ∈ ks → colony a k (Store r') = Some C') ∧
    (∀ a' k', ¬ (a' = a ∧ k' ∈ ks) →
              colony a' k' (Store r') = colony a' k' (Store r)).
Proof.
  intros Hl Hall Hex.
  destruct (lock_scan_open a ks C C' [] r Hall Hex)
    as (r' & openk' & Hscan & Hs & Hsub & _ & Hin & Hout & _).
  exists (set_Store (assign_all a openk' C' (Store r')) r'). split.
  { unfold Apply, lock. rewrite bool_decide_eq_false_2 by done.
    unfold mbind at 1 2. unfold M_bind. by rewrite Hscan. }
  split; [|split].
  - destruct Hs as (? & ? & ? & ?). by repeat split.
  - intros k Hk. unfold colony. simpl. rewrite lookup_assign_all.
    case_decide as Hd; [done|].
    destruct (Hin _ Hk) as [Ho|Hc]; [|done]. destruct Hd. by split.
  - intros a' k' Hn. unfold colony. simpl. rewrite lookup_assign_all.
    rewrite decide_False.
    + by apply Hout.
    + intros [-> Ho]. apply Hn. split; [done|].
      destruct (Hsub _ Ho) as [He|?]; [|done]. by apply elem_of_nil in He.
Qed.

Lemma lock_scan_conflict_locked (app : string) (ks : MappedCells)
    (c c' : Colony) (openk : MappedCells) (r : registry) :
  Equals c' c = false →
  Forall (λ k, colony app k (Store r) = None ∨
               colony app k (Store r) = Some c ∨
               colony app k (Store r) = Some c') ks →
  Exists (λ k, colony app k (Store r) = Some c') ks →
  lock_scan app ks c true openk r = Fatal.
Proof.
  intros Hne. revert r. induction ks as [|k ks IH]; intros r Hall Hex; simpl.
  - by apply Exists_nil in Hex.
  - apply Forall_cons in Hall as [Hk Hall]. unfold_M.
    destruct (colony app k (Store r)) as [c0|] eqn:Hc.
    + destruct Hk as [?|[[= ->]|[= ->]]]; [done| |by rewrite Hne].
      rewrite Equals_refl. simpl. apply IH; [done|].
      apply Exists_cons in Hex as [Hex|Hex]; [|done].
      rewrite Hc in Hex. injection Hex as ->. by rewrite Equals_refl in Hne.
    + apply Exists_cons in Hex as [?|Hex]; [congruence|].
      apply IH.
      * eapply Forall_impl; [exact Hall|]. simpl. intros k' Hk'.
        unfold colony, assign in *.
        destruct (decide (k' = k)) as [->|Hd].
        -- right. left. apply lookup_insert_eq.
        -- rewrite lookup_insert_ne; [done|]. congruence.
      * eapply Exists_impl; [exact Hex|]. simpl. intros k' Hk'.
        unfold colony, assign in *. rewrite lookup_insert_ne; [done|].
        intros [= <-]. congruence.
Qed.

Lemma lock_scan_conflict_open (app : string) (ks : MappedCells)
    (c c1 c2 : Colony) (openk : MappedCells) (r : registry) :
  Equals c1 c2 = false → Equals c2 c1 = false →
  Forall (λ k, colony app k (Store r) = None ∨
               colony app k (Store r) = Some c1 ∨
               colony app k (Store r) = Some c2) ks →
  Exists (λ k, colony app k (Store r) = Some c1) ks →
  Exists (λ k, colony app k (Store r) = Some c2) ks →
  lock_scan app ks c false openk r = Fatal.
Proof.
  intros H12 H21. revert openk.
  induction ks as [|k ks IH]; intros openk Hall H1 H2; simpl.
  - by apply Exists_nil in H1.
  - apply Forall_cons in Hall as [Hk Hall]. unfold_M.
    destruct (colony app k (Store r)) as [c0|] eqn:Hc.
    + destruct Hk as [?|[[= ->]|[= ->]]]; [done| |].
      * apply (lock_scan_conflict_locked app ks c1 c2); [done|done|].
        apply Exists_cons in H2 as [H2|H2]; [|done].
        rewrite Hc in H2. injection H2 as ->. by rewrite Equals_refl in H12.
      * apply (lock_scan_conflict_locked app ks c2 c1); [done| |].
        -- eapply Forall_impl; [exact Hall|]. simpl. tauto.
        -- apply Exists_cons in H1 as [H1|H1]; [|done].
           rewrite Hc in H1. injection H1 as ->. by rewrite Equals_refl in H12.
    + apply Exists_cons in H1 as [?|H1]; [congruence|].
      apply Exists_cons in H2 as [?|H2]; [congruence|]. by apply IH.
Qed.

(** X12. [lockMappedCell] for a colony without a leader returns
    [ErrInvalidParam] and changes nothing.  For a colony with a leader, when
    the cells that are mapped are mapped to one of two colonies that
    [Equals] tells apart, some to the one and some to the other, the
    process is terminated. *)
Theorem lock_refuses (r : registry) (C : Colony) (a : string) (ks : MappedCells) :
  (Leader C = 0 →
   Apply (lockMappedCell C a ks) r
   = Ret ((RColony nilColony, Some ErrInvalidParam), r)) ∧
  (Leader C ≠ 0 →
   ∀ c1 c2, Equals c1 c2 = false → Equals c2 c1 = false →
     Forall (λ k, colony a k (Store r) = None ∨
                  colony a k (Store r) = Some c1 ∨
                  colony a k (Store r) = Some c2) ks →
     Exists (λ k, colony a k (Store r) = Some c1) ks →
     Exists (λ k, colony a k (Store r) = Some c2) ks →
     Apply (lockMappedCell C a ks) r = Fatal).
Proof.
  split.
  - intros Hl. unfold Apply, lock. by rewrite bool_decide_eq_true_2.
  - intros Hl c1 c2 H12 H21 Hall H1 H2.
    unfold Apply, lock. rewrite bool_decide_eq_false_2 by done.
    unfold mbind at 1 2. unfold M_bind.
    by rewrite (lock_scan_conflict_open a ks C c1 c2).
Qed.

(** ** The hives: conf changes and [initHives] *)

(** X6. [ApplyConfChange] for a node [n]: adding it without an address
    changes nothing; removing it when no such hive is registered changes
    nothing either, and the error of [delHive] is not returned.  Adding it
    with an address that no other hive has, when its id is not registered:
    [hive] finds it afterwards, the other lookups are as before, and
    removing the node again gives the registry from before. *)
Theorem ApplyConfChange_add_remove (r : registry) (n : NodeInfo)
    (add rm : ConfChange) :
  cc_Type add = ConfChangeAddNode → cc_NodeID add = info_ID n →
  cc_Type rm = ConfChangeRemoveNode → cc_NodeID rm = info_ID n →
  (info_Addr n = "" → ApplyConfChange add n r = Ret (None, r)) ∧
  (∀ n', Hives r !! info_ID n = None → ApplyConfChange rm n' r = Ret (None, r)) ∧
  (info_Addr n ≠ "" → Hives r !! info_ID n = None →
   ¬ addr_taken (info_Addr n) (info_ID n) (Hives r) →
   ∃ r1, ApplyConfChange add n r = Ret (None, r1) ∧
         hive (info_ID n) r1 = (HiveInfo_of n, None) ∧
         (∀ id, id ≠ info_ID n → hive id r1 = hive id r) ∧
         ∀ n', ApplyConfChange rm n' r1 = Ret (None, r)).
Proof.
  intros Ha Hia Hr Hir. split; [|split].
  - intros He. unfold ApplyConfChange. rewrite Ha, Hia.
    rewrite bool_decide_eq_false_2 by (by intros ?).
    by rewrite bool_decide_eq_false_2 by (by intros ?).
  - intros n' Hn. unfold ApplyConfChange, delHive. rewrite Hr, Hir. unfold_M.
    by rewrite Hn.
  - intros He Hn Ht.
    exists (set_Hives (<[info_ID n := HiveInfo_of n]> (Hives r)) r).
    split; [|split; [|split]].
    + unfold ApplyConfChange. rewrite Ha, Hia.
      rewrite bool_decide_eq_false_2 by (by intros ?).
      rewrite bool_decide_eq_true_2 by done.
      unfold mbind at 1 2. unfold M_bind.
      rewrite (addHive_ok (HiveInfo_of n)) by done. reflexivity.
    + unfold hive. simpl. by rewrite lookup_insert_eq.
    + intros id Hid. unfold hive. simpl. by rewrite lookup_insert_ne.
    + intros n'. unfold ApplyConfChange, delHive. rewrite Hr, Hir. unfold_M.
      simpl. rewrite lookup_insert_eq. simpl.
      rewrite delete_insert_eq, delete_id by done.
      do 2 f_equal. by destruct r.
Qed.

Lemma initHives_range_ok (l : list HiveInfo) (hs : gmap Z HiveInfo)
    (r : registry) :
  (∀ k1 h1 k2 h2, hs !! k1 = Some h1 → hs !! k2 = Some h2 →
     hive_ID h1 = k1 ∧ (hive_Addr h1 = hive_Addr h2 → k1 = k2)) →
  Hives r ⊆ hs →
  (∀ h, h ∈ l → hs !! hive_ID h = Some h) →
  ∃ m, initHives_range l r = Ret (None, set_Hives m r) ∧
       m ⊆ hs ∧ Hives r ⊆ m ∧ (∀ h, h ∈ l → m !! hive_ID h = Some h).
Proof.
  intros Hwf. revert r. induction l as [|h l IH]; intros r Hsub Hl; simpl.
  - exists (Hives r). split; [by rewrite set_Hives_same by done|].
    split; [done|]. split; [done|]. intros h Hh. by apply elem_of_nil in Hh.
  - assert (hs !! hive_ID h = Some h) as Hh.
    { apply Hl. apply elem_of_cons. by left. }
    assert (¬ addr_taken (hive_Addr h) (hive_ID h) (Hives r)) as Hfree.
    { intros (k & h' & Hk & Haddr & Hid).
      apply (lookup_weaken _ _ _ _ Hk) in Hsub.
      destruct (Hwf k h' (hive_ID h) h Hsub Hh) as [Hk' Heq].
      apply Hid. rewrite Hk'. by apply Heq. }
    unfold mbind at 1. unfold M_bind at 1.
    rewrite (addHive_ok h r Hfree).
    set (r1 := set_Hives (<[hive_ID h := h]> (Hives r)) r).
    destruct (IH r1) as (m & Hrun & Hm & Hr1 & Hin).
    + apply map_subseteq_spec. intros k x Hk. simpl in Hk.
      apply lookup_insert_Some in Hk as [[<- <-]|[_ Hk]]; [done|].
      by apply (lookup_weaken _ _ _ _ Hk).
    + intros h' Hh'. apply Hl. apply elem_of_cons. by right.
    + rewrite map_subseteq_spec in Hr1. rewrite map_subseteq_spec in Hsub.
      exists m. split; [exact Hrun|]. split; [done|]. split.
      * apply map_subseteq_spec. intros k x Hk. apply Hr1. simpl.
        destruct (decide (k = hive_ID h)) as [->|Hne].
        -- rewrite lookup_insert_eq. apply Hsub in Hk. congruence.
        -- by rewrite lookup_insert_ne.
      * intros h' [->|Hh']%elem_of_cons; [|by apply Hin].
        apply Hr1. simpl. apply lookup_insert_eq.
Qed.

(** X14. [initHives] with a map that keeps every hive under its own id, no
    two with the same address, and that holds the hives registered so far:
    in whatever order the entries of the map are gone through, no error is
    returned, [Hives] is that map afterwards, and nothing else has
    changed. *)
Theorem initHives_installs (hs : gmap Z HiveInfo)
    (order : list (Z * HiveInfo)) (r : registry) :
  order ≡ₚ map_to_list hs →
  hives_wf (mkRegistry (HiveID r) (BeeID r) hs (Bees r) (Store r)) →
  Hives r ⊆ hs →
  ∃ r', initHives order r = Ret (None, r') ∧
    Hives r' = hs ∧ HiveID r' = HiveID r ∧ BeeID r' = BeeID r ∧
    Bees r' = Bees r ∧ Store r' = Store r.
Proof.
  intros Hperm Hwf Hsub. unfold initHives.
  assert (Hel : ∀ k h, (k, h) ∈ order ↔ hs !! k = Some h).
  { intros k h. rewrite Hperm. apply elem_of_map_to_list. }
  destruct (initHives_range_ok order.*2 hs r) as (m & Hrun & Hm & _ & Hin);
    [exact Hwf|exact Hsub| |].
  { intros h ([k h'] & -> & Hk%Hel)%list_elem_of_fmap. simpl.
    destruct (Hwf k h' k h' Hk Hk) as [-> _]. done. }
  eexists. split; [exact Hrun|]. simpl. split; [|done].
  apply map_eq. intros k. destruct (hs !! k) as [h|] eqn:Hk.
  - destruct (Hwf k h k h Hk Hk) as [<- _]. apply Hin.
    apply list_elem_of_fmap. exists (hive_ID h, h). split; [done|].
    by apply Hel.
  - destruct (m !! k) as [h|] eqn:Hmk; [|done].
    apply (lookup_weaken _ _ _ _ Hmk) in Hm. congruence.
Qed.

(** ** The properties, at the examples *)

Lemma bees_wf_ex_with_bee5 : bees_wf ex_with_bee5.
Proof.
  intros k b H. simpl in H. apply lookup_singleton_Some in H as [<- <-].
  simpl. lia.
Qed.

Lemma hives_wf_ex_bootstrapped : hives_wf ex_bootstrapped.
Proof.
  intros k1 h1 k2 h2 H1 H2. simpl in H1, H2.
  apply lookup_singleton_Some in H1 as [<- <-].
  apply lookup_singleton_Some in H2 as [<- <-]. done.
Qed.

Lemma addBee_bee_delBee_roundtrip_witness :
  Apply (delBee 5) ex_without_bee5
  = Ret ((RNil, Some ErrNoSuchBee), ex_without_bee5) ∧
  ∃ r1, Apply (addBee ex_bee5) ex_without_bee5 = Ret ((RNil, None), r1) ∧
        bee 5 r1 = (ex_bee5, None) ∧
        Apply (delBee 5) r1 = Ret ((RNil, None), ex_without_bee5).
Proof.
  destruct (addBee_bee_delBee_roundtrip ex_without_bee5 ex_bee5)
    as (H1 & r1 & H2 & H3 & _ & H4); [simpl; lia | simpl; lia | reflexivity |].
  split; [exact H1|]. exists r1. split; [exact H2|]. split; [exact H3|exact H4].
Defined.

Lemma Apply_keeps_bees_wf_witness :
  bees_wf (set_BeeID 6 ex_with_bee5).
Proof.
  apply (Apply_keeps_bees_wf newBeeID ex_with_bee5 _ (RUint64 6, None));
    [exact bees_wf_ex_with_bee5 | simpl; lia | vm_compute; reflexivity
    | reflexivity].
Defined.

Lemma hives_stay_distinct_witness :
  hives_wf (set_Hives (<[2 := mkHiveInfo 2 "b"]> (Hives ex_bootstrapped))
              (set_HiveID 2 ex_bootstrapped)).
Proof.
  destruct (hives_stay_distinct ex_bootstrapped hives_wf_ex_bootstrapped)
    as [H _].
  apply (H (newHiveID "b") (RUint64 2, None)). vm_compute. reflexivity.
Defined.

Lemma Apply_counters_grow_witness :
  ∃ r', Apply (newHiveID "b") ex_bootstrapped = Ret ((RUint64 2, None), r') ∧
        HiveID r' = HiveID ex_bootstrapped + 1 ∧ BeeID r' = BeeID ex_bootstrapped.
Proof.
  assert (∃ r', Apply (newHiveID "b") ex_bootstrapped
                = Ret ((RUint64 2, None), r')) as [r' H]
    by (eexists; vm_compute; reflexivity).
  exists r'. split; [exact H|].
  destruct (Apply_counters_grow (newHiveID "b") ex_bootstrapped r'
              (RUint64 2, None)) as (_ & Hb & [_ Hh] & [Hn _]);
    [vm_compute; repeat split; discriminate | exact H |].
  split.
  - apply Hh. exists "b". split; [reflexivity|].
    vm_compute in H. injection H as <-. reflexivity.
  - destruct (decide (BeeID r' = BeeID ex_bootstrapped + 1)) as [Heq|Hne].
    + destruct (Hn Heq) as [? _]. discriminate.
    + lia.
Defined.

Lemma ApplyConfChange_add_remove_witness :
  ∃ r1, ApplyConfChange ex_add2 ex_node2 ex_bootstrapped = Ret (None, r1) ∧
        hive 2 r1 = (mkHiveInfo 2 "b", None) ∧
        ApplyConfChange ex_remove2 ex_node2 r1 = Ret (None, ex_bootstrapped).
Proof.
  destruct (ApplyConfChange_add_remove ex_bootstrapped ex_node2 ex_add2
              ex_remove2) as (_ & _ & H); [reflexivity..|].
  destruct H as (r1 & H1 & H2 & _ & H3).
  - discriminate.
  - reflexivity.
  - intros (k & h & Hk & Ha & _). simpl in Hk.
    apply lookup_singleton_Some in Hk as [<- <-]. discriminate.
  - exists r1. split; [exact H1|]. split; [exact H2|]. apply H3.
Defined.

Lemma newBeeID_then_addBee_witness :
  Apply_all [newBeeID; addBee ex_bee6] ex_with_bee5
  = Ret ([(RUint64 6, None); (RNil, None)],
         mkRegistry 1 6 ∅ {[ 5 := ex_bee5; 6 := ex_bee6 ]} ∅).
Proof.
  apply (newBeeID_then_addBee ex_with_bee5 ex_bee6);
    [exact bees_wf_ex_with_bee5 | simpl; lia | vm_compute; reflexivity
    | reflexivity].
Defined.

Lemma moveBee_beesOfHive_witness :
  ∃ r1, Apply (moveBee 5 1 2) ex_with_bee5 = Ret ((RNil, None), r1) ∧
        with_Hive ex_bee5 2 ∈ beesOfHive 2 r1 ∧
        ∀ b, b ∈ beesOfHive 1 r1 → bee_ID b ≠ 5.
Proof.
  destruct (moveBee_beesOfHive ex_with_bee5 5 1 2 ex_bee5)
    as (r1 & H1 & H2 & H3 & _);
    [exact bees_wf_ex_with_bee5 | reflexivity | reflexivity | lia |].
  exists r1. split; [exact H1|]. split; [exact H2|exact H3].
Defined.

Lemma beeForCells_sound_witness :
  Bees ex_colonies !! 1 = Some (ex_bee 1 ex_old) ∧
  Forall (λ k, ∃ c, colony "x" k (Store ex_colonies) = Some c ∧
                    (Leader c = 1 ∨ Leader c = 0)) ["k"].
Proof.
  destruct (beeForCells_sound "x" ["k"] ex_colonies (ex_bee 1 ex_old))
    as (_ & H1 & H2); [vm_compute; reflexivity|].
  split; [exact H1|exact H2].
Defined.

Lemma lock_then_beeForCells_witness :
  ∃ r1, Apply (lockMappedCell ex_c3 "x" ["m"]) ex_colonies
        = Ret ((RColony ex_c3, None), r1) ∧
        beeForCells "x" ["m"] r1 = Ret (ex_bee 3 nilColony, true, None).
Proof.
  apply (lock_then_beeForCells ex_colonies ex_c3 "x" ["m"]);
    [simpl; lia | discriminate | repeat constructor | reflexivity
    | reflexivity].
Defined.

Lemma lock_adopts_owner_witness :
  ∃ r', Apply (lockMappedCell ex_c9 "a" ["c0"; "c1"]) ex_locked_c0
        = Ret ((RColony ex_c7, None), r') ∧
        colony "a" "c0" (Store r') = Some ex_c7 ∧
        colony "a" "c1" (Store r') = Some ex_c7.
Proof.
  destruct (lock_adopts_owner ex_locked_c0 ex_c9 ex_c7 "a" ["c0"; "c1"])
    as (r' & H1 & _ & H2 & _).
  - simpl. lia.
  - apply Forall_cons. split; [right; reflexivity|].
    apply Forall_cons. split; [left; reflexivity|]. constructor.
  - apply Exists_cons. left. reflexivity.
  - exists r'. split; [exact H1|].
    split; apply H2; repeat constructor.
Defined.

Lemma beeAndHive_safe_witness :
  beeAndHive 5 ex_with_bee5 = Ret (ex_bee5, zeroHiveInfo, Some ErrNoSuchHive) ∧
  beeAndHive 6 ex_with_bee5
  = Ret (zeroBeeInfo, zeroHiveInfo, Some ErrNoSuchBee).
Proof.
  destruct (beeAndHive_safe ex_with_bee5 5 bees_wf_ex_with_bee5) as [_ H5].
  destruct (beeAndHive_safe ex_with_bee5 6 bees_wf_ex_with_bee5) as [H6 _].
  split.
  - by apply (H5 ex_bee5).
  - by apply H6.
Defined.

Lemma initHives_installs_witness :
  (∃ r', initHives [(1, mkHiveInfo 1 "a"); (2, mkHiveInfo 2 "b")]
           ex_bootstrapped = Ret (None, r') ∧
     Hives r' = ex_two_hives ∧ HiveID r' = 1 ∧ BeeID r' = 0 ∧
     Bees r' = ∅ ∧ Store r' = ∅) ∧
  (∃ r', initHives [(2, mkHiveInfo 2 "b"); (1, mkHiveInfo 1 "a")]
           ex_bootstrapped = Ret (None, r') ∧
     Hives r' = ex_two_hives ∧ HiveID r' = 1 ∧ BeeID r' = 0 ∧
     Bees r' = ∅ ∧ Store r' = ∅).
Proof.
  assert (Hwf : hives_wf (mkRegistry 1 0 ex_two_hives ∅ ∅)).
  { intros k1 h1 k2 h2 H1 H2. simpl in H1, H2. unfold ex_two_hives in *.
    apply lookup_insert_Some in H1 as [[<- <-]|[_ [<- <-]%lookup_singleton_Some]];
      apply lookup_insert_Some in H2
        as [[<- <-]|[_ [<- <-]%lookup_singleton_Some]];
      (split; [reflexivity|]); simpl; intros; (reflexivity || discriminate). }
  assert (Hsub : Hives ex_bootstrapped ⊆ ex_two_hives).
  { apply map_subseteq_spec. intros k h Hk. simpl in Hk.
    apply lookup_singleton_Some in Hk as [<- <-]. reflexivity. }
  split.
  - apply (initHives_installs ex_two_hives _ ex_bootstrapped);
      [vm_compute; first [reflexivity | apply perm_swap] | exact Hwf
      | exact Hsub].
  - apply (initHives_installs ex_two_hives _ ex_bootstrapped);
      [vm_compute; first [reflexivity | apply perm_swap] | exact Hwf
      | exact Hsub].
Defined.

End RegistryExtra.

(** * Properties of the synchronous requests *)

Module SyncFacts.

Import Sync Instances.

Section SyncFacts.
Context {Data Err : Type} `{!Runtime Data Err}.

Abbreviation sync := (Sync.sync Data Err).
Abbreviation response := (Sync.response Data Err).
Abbreviation request := (Sync.request Data).
Abbreviation conc := (Sync.conc Data Err).
Abbreviation label := (Sync.label Data Err).
Abbreviation op := (Sync.op Data Err).

(** X15. The type of a [request] is never the type of a [response],
    whatever the data and whatever [MsgType] says. *)
Theorem request_and_response_types_differ (q : request) (r : response) :
  request_Type q ≠ response_Type r.
Proof.
  unfold request_Type, response_Type.
  destruct (req_Data q), (res_Data r); simpl; discriminate.
Qed.

Lemma sync_wf_NewSync : sync_wf (NewSync : sync).
Proof.
  unfold sync_wf, NewSync. simpl. split; [|split; [|split; [|split]]].
  - intros id ch H. by rewrite lookup_empty in H.
  - intros id1 id2 ch H. by rewrite lookup_empty in H.
  - intros q ch H. by apply elem_of_nil in H.
  - constructor.
  - intros ch l H. by rewrite lookup_empty in H.
Qed.

Lemma chan_send_empty (ch : nat) (res : response)
    (cs : gmap nat (list response)) :
  cs !! ch = Some [] → chan_send ch res cs = Some (<[ch := [res]]> cs).
Proof. intros H. unfold chan_send. by rewrite H. Qed.

Lemma Process_submit_wf (id : Z) (data : option Data) (s s' : sync) (ch : nat) :
  sync_wf s → Process_submit id data s = Some (ch, s') →
  sync_wf s' ∧ chans s !! ch = None.
Proof.
  intros (H1 & H2 & H3 & H4 & H5). unfold Process_submit.
  case_bool_decide as Hcap; [|done]. intros [= <- <-].
  assert (chans s !! fresh (dom (chans s)) = None) as Hfresh.
  { apply not_elem_of_dom. apply is_fresh. }
  split; [|done]. unfold sync_wf. simpl.
  split; [|split; [|split; [|split]]].
  - intros id' ch' Hr. rewrite lookup_insert_ne; [by eapply H1|].
    intros <-. apply H1 in Hr. congruence.
  - done.
  - intros q ch' [Hin|Hin]%elem_of_app.
    + destruct (H3 _ _ Hin) as [Hc Hn]. split; [|done].
      rewrite lookup_insert_ne; [done|]. intros <-. congruence.
    + apply list_elem_of_singleton in Hin. injection Hin as -> ->.
      split; [apply lookup_insert_eq|].
      intros id' Hr. apply H1 in Hr. congruence.
  - rewrite fmap_app. simpl. apply NoDup_app. split; [done|]. split.
    + intros ch' Hin [->|Hn]%elem_of_cons; [|by apply elem_of_nil in Hn].
      apply list_elem_of_fmap in Hin as ([q c] & Hc & Hin). simpl in Hc. subst c.
      destruct (H3 _ _ Hin) as [Hc _]. congruence.
    + apply NoDup_singleton.
  - intros ch' l. destruct (decide (ch' = fresh (dom (chans s)))) as [->|Hne].
    + rewrite lookup_insert_eq. intros [= <-]. simpl. lia.
    + rewrite lookup_insert_ne by done. apply H5.
Qed.

Lemma Start_select_req_wf (s s' : sync) :
  sync_wf s → Start_select SelReq s = Some s' → sync_wf s'.
Proof.
  intros (H1 & H2 & H3 & H4 & H5). unfold Start_select.
  destruct (reqch s) as [|[req ch] q] eqn:Hq; [done|]. intros [= <-].
  simpl in H4. apply NoDup_cons in H4 as [Hnin Hnd].
  assert (chans s !! ch = Some [] ∧ ∀ id, reqs s !! id ≠ Some ch) as [Hc Hn].
  { apply (H3 req). apply elem_of_cons. by left. }
  unfold sync_wf. simpl. split; [|split; [|split; [|split]]].
  - intros id ch'. destruct (decide (id = req_ID req)) as [->|Hne].
    + rewrite lookup_insert_eq. by intros [= <-].
    + rewrite lookup_insert_ne by done. apply H1.
  - intros id1 id2 ch'.
    destruct (decide (id1 = req_ID req)) as [->|Hne1];
      destruct (decide (id2 = req_ID req)) as [->|Hne2]; [done| | |].
    + rewrite lookup_insert_eq, lookup_insert_ne by done.
      intros [= <-] Hr. by apply Hn in Hr.
    + rewrite lookup_insert_eq, lookup_insert_ne by done.
      intros Hr [= <-]. by apply Hn in Hr.
    + rewrite !lookup_insert_ne by done. apply H2.
  - intros q' ch' Hin.
    destruct (H3 q' ch') as [Hc' Hn']; [apply elem_of_cons; by right|].
    split; [done|]. intros id.
    destruct (decide (id = req_ID req)) as [->|Hne].
    + rewrite lookup_insert_eq. intros [= ->]. apply Hnin.
      apply list_elem_of_fmap. by exists (q', ch').
    + rewrite lookup_insert_ne by done. apply Hn'.
  - done.
  - done.
Qed.

Lemma delivered_wf (id : Z) (ch : nat) (res : response) (s : sync) :
  sync_wf s → reqs s !! id = Some ch →
  sync_wf (mkSync (reqch s) (delete id (reqs s)) (<[ch := [res]]> (chans s))
             (emitted s)).
Proof.
  intros (H1 & H2 & H3 & H4 & H5) Hr.
  unfold sync_wf. simpl. split; [|split; [|split; [|split]]].
  - intros id' ch' [Hne Hr']%lookup_delete_Some.
    rewrite lookup_insert_ne; [by apply H1 in Hr'|].
    intros <-. apply Hne. by apply (H2 _ _ _ Hr Hr').
  - intros id1 id2 ch' [_ Ha]%lookup_delete_Some [_ Hb]%lookup_delete_Some.
    by apply (H2 _ _ _ Ha Hb).
  - intros q ch' Hin. destruct (H3 _ _ Hin) as [Hc Hn]. split.
    + rewrite lookup_insert_ne; [done|]. intros <-. by apply Hn in Hr.
    + intros id' [_ Hr']%lookup_delete_Some. by apply Hn in Hr'.
  - done.
  - intros ch' l. destruct (decide (ch' = ch)) as [->|Hne].
    + rewrite lookup_insert_eq. intros [= <-]. simpl. lia.
    + rewrite lookup_insert_ne by done. apply H5.
Qed.

Lemma Rcv_known (res : response) (s : sync) (ch : nat) :
  sync_wf s → reqs s !! res_ID res = Some ch →
  Rcv res s
  = Some (None, mkSync (reqch s) (delete (res_ID res) (reqs s))
                  (<[ch := [res]]> (chans s)) (emitted s)).
Proof.
  intros (H1 & _) Hr. unfold Rcv, deque. rewrite Hr. simpl.
  by rewrite chan_send_empty by (by apply H1 in Hr).
Qed.

Lemma Rcv_unknown (res : response) (s : sync) :
  reqs s !! res_ID res = None →
  Rcv res s = Some (Some ErrSyncNoSuchRequest, s).
Proof. intros Hr. unfold Rcv, deque. by rewrite Hr. Qed.

Lemma drain_range_ok (l : list (Z * nat)) (s : sync) :
  sync_wf s → NoDup l.*1 →
  (∀ id ch, (id, ch) ∈ l → reqs s !! id = Some ch) →
  ∃ s', drain_range l s = Some s' ∧ sync_wf s' ∧
    reqch s' = reqch s ∧ emitted s' = emitted s ∧
    (∀ id, reqs s' !! id = if decide (id ∈ l.*1) then None else reqs s !! id) ∧
    (∀ id ch, (id, ch) ∈ l →
       chans s' !! ch = Some [mkResponse id None (Some ErrSyncStopped)]) ∧
    (∀ ch, ch ∉ l.*2 → chans s' !! ch = chans s !! ch).
Proof.
  revert s. induction l as [|[id ch] l IH]; intros s Hwf Hnd Hl; simpl.
  - exists s. split; [done|]. split; [done|]. split; [done|]. split; [done|].
    split; [|split]; [done| |done]. intros id ch H. by apply elem_of_nil in H.
  - simpl in Hnd. apply NoDup_cons in Hnd as [Hnin Hnd].
    assert (reqs s !! id = Some ch) as Hr.
    { apply Hl. apply elem_of_cons. by left. }
    assert (ch ∉ l.*2) as Hch.
    { intros ([id' c] & Hc & Hin)%list_elem_of_fmap. simpl in Hc. subst c.
      assert (reqs s !! id' = Some ch) as Hr'.
      { apply Hl. apply elem_of_cons. by right. }
      destruct Hwf as (_ & H2 & _). rewrite (H2 _ _ _ Hr Hr') in Hnin.
      apply Hnin. apply list_elem_of_fmap. by exists (id', ch). }
    rewrite chan_send_empty by (destruct Hwf as (H1 & _); by apply H1 in Hr).
    set (res := mkResponse id None (Some ErrSyncStopped)).
    destruct (IH (mkSync (reqch s) (delete id (reqs s))
                    (<[ch := [res]]> (chans s)) (emitted s)))
      as (s' & Hrun & Hwf' & Hq & He & Hreqs & Hsent & Hrest).
    + by apply delivered_wf.
    + done.
    + intros id' ch' Hin. simpl. rewrite lookup_delete_ne.
      * apply Hl. apply elem_of_cons. by right.
      * intros <-. apply Hnin. apply list_elem_of_fmap. by exists (id, ch').
    + exists s'. split; [done|]. split; [done|]. split; [done|]. split; [done|].
      split; [|split].
      * intros id'. rewrite Hreqs. simpl.
        destruct (decide (id' = id)) as [->|Hne].
        -- rewrite lookup_delete_eq.
           case_decide as Ha; case_decide as Hb; try done;
             destruct Hb; apply elem_of_cons; by left.
        -- rewrite lookup_delete_ne by done.
           case_decide as Ha; case_decide as Hb; try done.
           ++ destruct Hb. apply elem_of_cons. by right.
           ++ apply elem_of_cons in Hb as [?|?]; done.
      * intros id' ch' [Heq|Hin]%elem_of_cons.
        -- injection Heq as -> ->. rewrite Hrest by done. simpl.
           apply lookup_insert_eq.
        -- by apply Hsent.
      * intros ch' Hn. rewrite Hrest.
        -- simpl. rewrite lookup_insert_ne; [done|]. intros <-.
           apply Hn. apply elem_of_cons. by left.
        -- intros Hin. apply Hn. apply elem_of_cons. by right.
Qed.

Lemma chan_send_Some (ch : nat) (res : response)
    (cs cs' : gmap nat (list response)) :
  chan_send ch res cs = Some cs' → cs !! ch = Some [] ∧ cs' = <[ch := [res]]> cs.
Proof.
  unfold chan_send. destruct (cs !! ch) as [[|r l]|]; [|done|done].
  by intros [= <-].
Qed.

(** ** Whole operations, one after the other *)

(** X17. A request goes through [Process]: it is sent on [reqch], [Start]
    registers its channel and emits it, and when the response with its id
    arrives at [Rcv], [Process] returns the data of the response, or, when
    the response has an error, an error made by [errors.New] from the text
    of that error.  A second response with the same id is refused with
    [ErrSyncNoSuchRequest], and nothing is sent for it. *)
Theorem Sync_Process_gets_response (id : Z) (data : option Data) (s s1 s2 : sync)
    (ch : nat) (res : response) :
  sync_wf s → reqch s = [] →
  Process_submit id data s = Some (ch, s1) →
  Start_select SelReq s1 = Some s2 →
  res_ID res = id →
  emitted s2 = emitted s ++ [mkRequest id data] ∧
  ∃ s3 s4,
    Rcv res s2 = Some (None, s3) ∧
    Process_select id ch None SelReply s3
    = Some (match res_Err res with
            | Some e => (None, Some (errors_New (Error_text e)))
            | None => (res_Data res, None)
            end, s4) ∧
    Rcv res s3 = Some (Some ErrSyncNoSuchRequest, s3) ∧
    Rcv res s4 = Some (Some ErrSyncNoSuchRequest, s4) ∧
    Process_select id ch None SelReply s4 = None.
Proof.
  intros Hwf Hq Hp Hs Hid.
  pose proof (Process_submit_wf _ _ _ _ _ Hwf Hp) as [Hwf1 Hfresh].
  pose proof (Start_select_req_wf _ _ Hwf1 Hs) as Hwf2.
  unfold Process_submit in Hp. case_bool_decide; [|done].
  injection Hp as <- <-. rewrite Hq in Hs. simpl in Hs. injection Hs as <-.
  simpl. split; [done|].
  set (c := fresh (dom (chans s))) in *.
  eexists _, _. split; [|split; [|split; [|split]]].
  - rewrite (Rcv_known res _ c); [done|done|]. simpl. rewrite Hid.
    apply lookup_insert_eq.
  - unfold Process_select. simpl. rewrite lookup_insert_eq. reflexivity.
  - apply Rcv_unknown. simpl. rewrite Hid. apply lookup_delete_eq.
  - apply Rcv_unknown. simpl. rewrite Hid. apply lookup_delete_eq.
  - unfold Process_select. simpl. by rewrite lookup_insert_eq.
Qed.

(** X28. [drain] when no other goroutine comes in between, on a [Sync]
    whose waiting channels are empty and pairwise distinct: in whatever
    order [range] yields the entries of the map, [drain] comes back, no
    request is registered afterwards, the channel of every request that
    was registered holds the response with [ErrSyncStopped], and the other
    channels, [reqch] and what was emitted are as before. *)
Theorem drain_alone_any_order (order : list (Z * nat)) (s : sync) :
  sync_wf s → order ≡ₚ map_to_list (reqs s) →
  ∃ s', Start_select (SelDone order) s = Some s' ∧
    reqs s' = ∅ ∧ reqch s' = reqch s ∧ emitted s' = emitted s ∧
    (∀ id ch, reqs s !! id = Some ch →
       chans s' !! ch = Some [mkResponse id None (Some ErrSyncStopped)]) ∧
    (∀ ch, (∀ id, reqs s !! id ≠ Some ch) → chans s' !! ch = chans s !! ch).
Proof.
  intros Hwf Hperm. simpl. unfold drain.
  rewrite bool_decide_eq_true_2 by done.
  assert (Hel : ∀ id ch, (id, ch) ∈ order ↔ reqs s !! id = Some ch).
  { intros id ch. rewrite Hperm. apply elem_of_map_to_list. }
  destruct (drain_range_ok order s Hwf)
    as (s' & Hrun & _ & Hq & He & Hreqs & Hsent & Hrest).
  - rewrite Hperm. apply NoDup_fst_map_to_list.
  - intros id ch Hin. by apply Hel.
  - exists s'. split; [done|]. split; [|split; [done|split; [done|split]]].
    + apply map_eq. intros id. rewrite Hreqs, lookup_empty.
      case_decide as Hd; [done|].
      destruct (reqs s !! id) as [ch|] eqn:Hr; [|done].
      destruct Hd. apply list_elem_of_fmap. exists (id, ch). split; [done|].
      by apply Hel.
    + intros id ch Hr. apply Hsent. by apply Hel.
    + intros ch Hn. apply Hrest.
      intros ([id c] & Hc & Hin%Hel)%list_elem_of_fmap.
      simpl in Hc. subst c. by apply Hn in Hin.
Qed.

(** X19. The two orders of a cancellation and [Start] taking the request
    from [reqch].  When the context is done first, [deque] finds nothing
    and the request is registered afterwards: its entry stays in [reqs],
    with nobody waiting on the channel.  When [Start] takes the request
    first, the cancellation removes the entry. *)
Theorem cancel_before_serve_leaks (id : Z) (data : option Data) (s s1 : sync)
    (ch : nat) (e : ctx_error) :
  reqch s = [] → reqs s !! id = None →
  Process_submit id data s = Some (ch, s1) →
  (∃ s2 s3 x,
     Process_select id ch (Some e) SelCtxDone s1 = Some (x, s2) ∧
     x = (None, Some (ctx_Err e)) ∧
     Start_select SelReq s2 = Some s3 ∧
     reqs s3 !! id = Some ch ∧ reqch s3 = []) ∧
  (∃ s2 s3 x,
     Start_select SelReq s1 = Some s2 ∧
     Process_select id ch (Some e) SelCtxDone s2 = Some (x, s3) ∧
     x = (None, Some (ctx_Err e)) ∧
     reqs s3 = reqs s ∧ reqch s3 = []).
Proof.
  intros Hq Hr Hp. unfold Process_submit in Hp. case_bool_decide; [|done].
  injection Hp as <- <-. split.
  - eexists _, _, _. unfold Process_select, deque. simpl. rewrite Hr, Hq. simpl.
    split; [done|]. split; [done|]. split; [done|].
    split; [apply lookup_insert_eq|done].
  - eexists _, _, _. unfold Process_select, deque. simpl. rewrite Hq. simpl.
    split; [done|]. simpl. rewrite lookup_insert_eq. simpl.
    split; [done|]. split; [done|]. split; [|done].
    rewrite delete_insert_eq. by apply delete_id.
Qed.

(** ** The goroutines step by step: what holds all along *)

(** Nothing that a goroutine holds is taken from it: the channels stay,
    the new channels in [reqch] are new ones, and the new entries of [reqs]
    come from [reqch]. *)
Abbreviation sync_le s s' :=
  ((∀ ch : nat, is_Some (chans s !! ch) → is_Some (chans s' !! ch)) ∧
   (∀ ch : nat, ch ∈ (reqch s').*2 → ch ∈ (reqch s).*2 ∨ chans s !! ch = None) ∧
   (∀ (id : Z) (ch : nat), reqs s' !! id = Some ch →
      reqs s !! id = Some ch ∨ ch ∈ (reqch s).*2)).

Lemma held_by_step (s s' : sync) (oid : option Z) (ch : nat) :
  sync_le s s' → held_by s oid ch → held_by s' oid ch.
Proof.
  intros (Hc & Hq & Hr) (H1 & H2 & H3). split; [by apply Hc|]. split.
  - intros [Hin|Hn]%Hq; [done|]. rewrite Hn in H1. by destruct H1.
  - intros id [Hid|Hin]%Hr; [by apply H3|done].
Qed.

Lemma sync_le_chans (s : sync) (ch : nat) (l : list response) :
  sync_le s (mkSync (reqch s) (reqs s) (<[ch := l]> (chans s)) (emitted s)).
Proof.
  simpl. split; [|split].
  - intros ch' Hs. destruct (decide (ch' = ch)) as [->|Hne].
    + rewrite lookup_insert_eq. by eexists.
    + by rewrite lookup_insert_ne.
  - intros ch' Hin. by left.
  - intros id ch' Hr. by left.
Qed.

Lemma sync_le_delete (s : sync) (id : Z) :
  sync_le s (mkSync (reqch s) (delete id (reqs s)) (chans s) (emitted s)).
Proof.
  simpl. split; [done|]. split; [by left|].
  intros id' ch' [_ Hr]%lookup_delete_Some. by left.
Qed.

Lemma held_pc (c : conc) (s' : sync) (pc' : drain_pc) :
  sync_le (c_sync c) s' →
  pc' = c_pc c ∨ pc' = DLoop ∨ pc' = DIdle ∨
    (∃ id ch, c_pc c = DSend id ch ∧ pc' = DDelete id ch) →
  match c_pc c with
  | DSend id ch | DDelete id ch => held_by (c_sync c) (Some id) ch
  | _ => True
  end →
  match pc' with
  | DSend id ch | DDelete id ch => held_by s' (Some id) ch
  | _ => True
  end.
Proof.
  intros Hle [->|[->|[->|(id & ch & Hpc & ->)]]] H; [|done|done|].
  - destruct (c_pc c); [done|done| |]; by apply (held_by_step (c_sync c)).
  - rewrite Hpc in H. by apply (held_by_step (c_sync c)).
Qed.

Lemma conc_wf_sync_wf (c : conc) :
  conc_wf c → (∀ id ch, c_pc c ≠ DDelete id ch) → sync_wf (c_sync c).
Proof.
  intros (W1 & W2 & W3 & W4 & W5 & _) Hpc.
  split; [|done]. intros id ch Hr. destruct (W1 _ _ Hr) as [?|Hd]; [done|].
  by apply Hpc in Hd.
Qed.

Lemma registered_held (c : conc) (id : Z) (ch : nat) :
  conc_wf c → reqs (c_sync c) !! id = Some ch →
  held_by (c_sync c) (Some id) ch.
Proof.
  intros (W1 & W2 & W3 & W4 & W5 & W6 & W7) Hr. split; [|split].
  - destruct (W1 _ _ Hr) as [Hc|Hd]; [rewrite Hc; by eexists|].
    rewrite Hd in W7. by destruct W7 as (? & _).
  - intros ([q ch'] & Hc & Hin)%list_elem_of_fmap. simpl in Hc. subst ch'.
    destruct (W3 _ _ Hin) as [_ Hn]. by apply Hn in Hr.
  - intros id' Hr'. f_equal. by apply (W2 _ _ _ Hr Hr').
Qed.

Lemma deque_locked_wf (id : Z) (res : option response) (c : conc) :
  conc_wf c → conc_wf (deque_locked id res c).
Proof.
  intros Hwf. unfold deque_locked.
  destruct (reqs (c_sync c) !! id) as [ch|] eqn:Hr; [|done].
  pose proof (registered_held c id ch Hwf Hr) as Hheld.
  destruct Hwf as (W1 & W2 & W3 & W4 & W5 & W6 & W7).
  unfold conc_wf. simpl. do 5 (split; [done|]). split; [|done].
  intros i o [[_ <-]|[_ Ho]]%lookup_insert_Some; [done|]. by eapply W6.
Qed.

Lemma cstep_wf (l : label) (c c' : conc) :
  conc_wf c → cstep l c = Some c' → conc_wf c'.
Proof.
  intros Hwf. pose proof Hwf as (W1 & W2 & W3 & W4 & W5 & W6 & W7).
  destruct l as [id data| | |id| | | |res|id|i|i|id ch]; simpl.
  - (* LProcess *)
    unfold Process_submit. case_bool_decide as Hcap; [|done]. intros [= <-].
    set (f := fresh (dom (chans (c_sync c)))).
    assert (chans (c_sync c) !! f = None) as Hfresh.
    { apply not_elem_of_dom. apply is_fresh. }
    assert (Hle : sync_le (c_sync c)
              (mkSync (reqch (c_sync c) ++ [(mkRequest id data, f)])
                 (reqs (c_sync c)) (<[f := []]> (chans (c_sync c)))
                 (emitted (c_sync c)))).
    { simpl. split; [|split].
      - intros ch' Hs. destruct (decide (ch' = f)) as [->|Hne].
        + rewrite lookup_insert_eq. by eexists.
        + by rewrite lookup_insert_ne.
      - intros ch'. rewrite fmap_app. intros [Hin|Hin]%elem_of_app; [by left|].
        simpl in Hin. apply list_elem_of_singleton in Hin as ->. by right.
      - intros id' ch' Hr. by left. }
    assert (Hnf : ∀ id', reqs (c_sync c) !! id' ≠ Some f).
    { intros id' Hr. apply (registered_held c) in Hr as ([x Hx] & _); [|done].
      congruence. }
    unfold conc_wf. simpl. split; [|split; [|split; [|split; [|split; [|split]]]]].
    + intros id' ch' Hr. destruct (W1 _ _ Hr) as [Hc|Hd]; [|by right].
      left. rewrite lookup_insert_ne; [done|]. intros <-. congruence.
    + done.
    + intros q ch' [Hin|Hin]%elem_of_app.
      * destruct (W3 _ _ Hin) as [Hc Hn]. split; [|done].
        rewrite lookup_insert_ne; [done|]. intros <-. congruence.
      * apply list_elem_of_singleton in Hin. injection Hin as -> ->.
        split; [apply lookup_insert_eq|done].
    + rewrite fmap_app. simpl. apply NoDup_app. split; [done|]. split.
      * intros ch' Hin [->|Hn]%elem_of_cons; [|by apply elem_of_nil in Hn].
        apply list_elem_of_fmap in Hin as ([q c0] & Hc & Hin). simpl in Hc.
        subst c0. destruct (W3 _ _ Hin) as [Hc _]. congruence.
      * apply NoDup_singleton.
    + intros ch' l. destruct (decide (ch' = f)) as [->|Hne].
      * rewrite lookup_insert_eq. intros [= <-]. simpl. lia.
      * rewrite lookup_insert_ne by done. apply W5.
    + intros i o Ho. eapply held_by_step; [exact Hle|]. by eapply W6.
    + apply (held_pc c); [exact Hle|by left|exact W7].
  - (* LServe *)
    destruct (c_pc c) eqn:Hpc; try done.
    destruct (reqch (c_sync c)) as [|[req ch0] q] eqn:Hq; [done|].
    intros [= <-].
    assert (sync_wf (c_sync c)) as Hs.
    { apply conc_wf_sync_wf; [done|]. intros ? ?. by rewrite Hpc. }
    assert (Start_select SelReq (c_sync c)
            = Some (mkSync q (<[req_ID req := ch0]> (reqs (c_sync c)))
                      (chans (c_sync c)) (emitted (c_sync c) ++ [req]))) as Hst.
    { simpl. by rewrite Hq. }
    apply Start_select_req_wf in Hst as (S1 & S2 & S3 & S4 & S5); [|done].
    assert (Hle : sync_le (c_sync c)
              (mkSync q (<[req_ID req := ch0]> (reqs (c_sync c)))
                 (chans (c_sync c)) (emitted (c_sync c) ++ [req]))).
    { simpl. split; [done|]. split.
      - intros ch' Hin. left. rewrite Hq. simpl. apply elem_of_cons. by right.
      - intros id' ch' [[_ <-]|[_ Hr]]%lookup_insert_Some; [|by left].
        right. rewrite Hq. simpl. apply elem_of_cons. by left. }
    unfold conc_wf. simpl. split; [|split; [|split; [|split; [|split; [|split]]]]];
      try done.
    + intros id' ch' Hr. left. by eapply S1.
    + intros i o Ho. eapply held_by_step; [exact Hle|]. by eapply W6.
  - (* LStop *)
    destruct (c_pc c) eqn:Hpc; try done. intros [= <-].
    unfold conc_wf. simpl. split; [|done].
    intros id ch Hr. destruct (W1 _ _ Hr) as [?|?]; [by left|done].
  - (* LRange *)
    destruct (c_pc c) eqn:Hpc; try done.
    destruct (reqs (c_sync c) !! id) as [ch|] eqn:Hr; [|done]. intros [= <-].
    unfold conc_wf. simpl. split; [|do 5 (split; [done|])].
    + intros id' ch' Hr'. destruct (W1 _ _ Hr') as [?|?]; [by left|done].
    + by apply registered_held.
  - (* LDrainSend *)
    destruct (c_pc c) as [| |id ch|] eqn:Hpc; try done.
    destruct (chan_send _ _ _) as [cs|] eqn:Hsend; [|done]. intros [= <-].
    apply chan_send_Some in Hsend as [Hc ->].
    destruct W7 as (_ & Hnq & Hreg).
    unfold conc_wf. simpl. split; [|split; [|split; [|split; [|split; [|split]]]]];
      try done.
    + intros id' ch' Hr. destruct (decide (ch' = ch)) as [->|Hne].
      * right. apply Hreg in Hr. by injection Hr as ->.
      * left. rewrite lookup_insert_ne by done.
        destruct (W1 _ _ Hr) as [?|?]; done.
    + intros q ch' Hin. destruct (W3 _ _ Hin) as [Hc' Hn]. split; [|done].
      rewrite lookup_insert_ne; [done|]. intros <-. apply Hnq.
      apply list_elem_of_fmap. by exists (q, ch).
    + intros ch' l. destruct (decide (ch' = ch)) as [->|Hne].
      * rewrite lookup_insert_eq. intros [= <-]. simpl. lia.
      * rewrite lookup_insert_ne by done. apply W5.
    + intros i o Ho. eapply held_by_step; [apply sync_le_chans|]. by eapply W6.
    + eapply held_by_step; [apply sync_le_chans|]. done.
  - (* LDrainDelete *)
    destruct (c_pc c) as [| | |id ch] eqn:Hpc; try done. intros [= <-].
    unfold conc_wf. simpl. split; [|split; [|split; [|split; [|split; [|split]]]]];
      try done.
    + intros id' ch' [Hne Hr]%lookup_delete_Some.
      destruct (W1 _ _ Hr) as [?|Hd]; [by left|]. by injection Hd as -> ->.
    + intros id1 id2 ch' [_ Ha]%lookup_delete_Some [_ Hb]%lookup_delete_Some.
      by apply (W2 _ _ _ Ha Hb).
    + intros q ch' Hin. destruct (W3 _ _ Hin) as [Hc Hn]. split; [done|].
      intros id' [_ Hr']%lookup_delete_Some. by apply Hn in Hr'.
    + intros i o Ho. eapply held_by_step; [apply sync_le_delete|]. by eapply W6.
  - (* LUnlock *)
    destruct (c_pc c) eqn:Hpc; try done. case_bool_decide; [|done].
    intros [= <-]. unfold conc_wf. simpl. split; [|done].
    intros id ch Hr. destruct (W1 _ _ Hr) as [?|?]; [by left|done].
  - (* LRcv *)
    destruct (c_pc c); try done. intros [= <-]. by apply deque_locked_wf.
  - (* LCtxDone *)
    destruct (c_pc c); try done. intros [= <-]. by apply deque_locked_wf.
  - (* LDelete *)
    destruct (c_ops c !! i) as [[id ch r|]|] eqn:Ho; try done. intros [= <-].
    pose proof (W6 _ _ Ho) as (Hc & Hnq & Hreg). simpl in *.
    unfold conc_wf. simpl. split; [|split; [|split; [|split; [|split; [|split]]]]];
      try done.
    + intros id' ch' [Hne Hr]%lookup_delete_Some.
      destruct (W1 _ _ Hr) as [?|?]; [by left|by right].
    + intros id1 id2 ch' [_ Ha]%lookup_delete_Some [_ Hb]%lookup_delete_Some.
      by apply (W2 _ _ _ Ha Hb).
    + intros q ch' Hin. destruct (W3 _ _ Hin) as [Hc' Hn]. split; [done|].
      intros id' [_ Hr']%lookup_delete_Some. by apply Hn in Hr'.
    + intros j o. destruct r as [res|].
      * intros [[_ <-]|[_ Hj]]%lookup_insert_Some.
        -- unfold held_by. simpl. split; [done|]. split; [done|].
           intros id' [Hne Hr]%lookup_delete_Some. apply Hreg in Hr.
           by injection Hr as ->.
        -- eapply held_by_step; [apply sync_le_delete|]. by eapply W6.
      * intros [_ Hj]%lookup_delete_Some.
        eapply held_by_step; [apply sync_le_delete|]. by eapply W6.
    + apply (held_pc c); [apply sync_le_delete|by left|exact W7].
  - (* LSend *)
    destruct (c_ops c !! i) as [[|ch res]|] eqn:Ho; try done.
    destruct (chan_send _ _ _) as [cs|] eqn:Hsend; [|done]. intros [= <-].
    apply chan_send_Some in Hsend as [Hc ->].
    pose proof (W6 _ _ Ho) as (_ & Hnq & Hreg). simpl in *.
    unfold conc_wf. simpl. split; [|split; [|split; [|split; [|split; [|split]]]]];
      try done.
    + intros id' ch' Hr. rewrite lookup_insert_ne.
      * destruct (W1 _ _ Hr) as [?|?]; [by left|by right].
      * intros <-. by apply Hreg in Hr.
    + intros q ch' Hin. destruct (W3 _ _ Hin) as [Hc' Hn]. split; [|done].
      rewrite lookup_insert_ne; [done|]. intros <-. apply Hnq.
      apply list_elem_of_fmap. by exists (q, ch).
    + intros ch' l. destruct (decide (ch' = ch)) as [->|Hne].
      * rewrite lookup_insert_eq. intros [= <-]. simpl. lia.
      * rewrite lookup_insert_ne by done. apply W5.
    + intros j o [_ Hj]%lookup_delete_Some.
      eapply held_by_step; [apply sync_le_chans|]. by eapply W6.
    + apply (held_pc c); [apply sync_le_chans|by left|exact W7].
  - (* LReply *)
    destruct (chans (c_sync c) !! ch) as [[|r rest]|] eqn:Hc; try done.
    intros [= <-].
    assert (rest = []) as ->.
    { apply W5 in Hc. simpl in Hc. destruct rest; [done|simpl in Hc; lia]. }
    unfold conc_wf. simpl. split; [|split; [|split; [|split; [|split; [|split]]]]];
      try done.
    + intros id' ch' Hr. destruct (decide (ch' = ch)) as [->|Hne].
      * left. apply lookup_insert_eq.
      * rewrite lookup_insert_ne by done.
        destruct (W1 _ _ Hr) as [?|?]; [by left|by right].
    + intros q ch' Hin. destruct (W3 _ _ Hin) as [Hc' Hn]. split; [|done].
      rewrite lookup_insert_ne; [done|]. intros <-. congruence.
    + intros ch' l. destruct (decide (ch' = ch)) as [->|Hne].
      * rewrite lookup_insert_eq. intros [= <-]. simpl. lia.
      * rewrite lookup_insert_ne by done. apply W5.
    + intros j o Hj. eapply held_by_step; [apply sync_le_chans|]. by eapply W6.
    + apply (held_pc c); [apply sync_le_chans|by left|exact W7].
Qed.


Lemma crun_wf (ls : list label) (c c' : conc) :
  conc_wf c → crun ls c = Some c' → conc_wf c'.
Proof.
  revert c. induction ls as [|l ls IH]; intros c Hwf; simpl.
  - by intros [= <-].
  - destruct (cstep l c) as [c1|] eqn:Hs; [|done].
    apply IH. by apply (cstep_wf l c).
Qed.

Lemma conc_wf_NewConc : conc_wf (NewConc : conc).
Proof.
  unfold conc_wf, NewConc. simpl.
  split; [|split; [|split; [|split; [|split; [|split]]]]].
  - intros id ch H. by rewrite lookup_empty in H.
  - intros id1 id2 ch H. by rewrite lookup_empty in H.
  - intros q ch H. by apply elem_of_nil in H.
  - constructor.
  - intros ch l H. by rewrite lookup_empty in H.
  - intros i o H. by rewrite lookup_empty in H.
  - done.
Qed.

(** ** While [drain] holds the mutex *)

(** [drain] runs, no call of [Rcv] is under way, and the channel of the
    entry that [range] has yielded is empty. *)
Abbreviation draining c :=
  (conc_wf c ∧ c_pc c ≠ DIdle ∧
   (∀ (i : nat) (o : op), c_ops c !! i = Some o → sends o = false) ∧
   (∀ (id : Z) (ch : nat), c_pc c = DSend id ch →
      chans (c_sync c) !! ch = Some [])).

Lemma draining_step (l : label) (c c' : conc) :
  draining c → l ≠ LUnlock → cstep l c = Some c' → draining c'.
Proof.
  intros (Hwf & Hpc & Hns & Hch) Hl Hstep.
  split; [by apply (cstep_wf l c)|].
  pose proof Hwf as (W1 & W2 & W3 & W4 & W5 & W6 & W7).
  destruct l as [id data| | |id| | | |res|id|i|i|id ch]; simpl in Hstep.
  - unfold Process_submit in Hstep. case_bool_decide; [|done].
    injection Hstep as <-. simpl. split; [done|]. split; [done|].
    intros id' ch' Hd. rewrite lookup_insert_ne; [by eapply Hch|].
    intros <-. apply Hch in Hd.
    assert (chans (c_sync c) !! fresh (dom (chans (c_sync c))) = None) as Hf.
    { apply not_elem_of_dom. apply is_fresh. }
    congruence.
  - by destruct (c_pc c).
  - by destruct (c_pc c).
  - destruct (c_pc c) eqn:Hp; try done.
    destruct (reqs (c_sync c) !! id) as [ch|] eqn:Hr; [|done].
    injection Hstep as <-. simpl. split; [done|]. split; [done|].
    intros id' ch' [= <- <-]. destruct (W1 _ _ Hr) as [?|?]; done.
  - destruct (c_pc c) eqn:Hp; try done.
    destruct (chan_send _ _ _); [|done]. injection Hstep as <-. simpl.
    split; [done|]. split; [done|]. done.
  - destruct (c_pc c) eqn:Hp; try done. injection Hstep as <-. simpl.
    split; [done|]. split; [done|]. done.
  - done.
  - by destruct (c_pc c).
  - by destruct (c_pc c).
  - destruct (c_ops c !! i) as [[id ch r|]|] eqn:Ho; try done.
    pose proof (Hns _ _ Ho) as Hr. destruct r as [res|]; [done|].
    injection Hstep as <-. simpl. split; [done|]. split; [|done].
    intros j o [_ Hj]%lookup_delete_Some. by eapply Hns.
  - destruct (c_ops c !! i) as [[|ch res]|] eqn:Ho; try done.
    by apply Hns in Ho.
  - destruct (chans (c_sync c) !! ch) as [[|r rest]|] eqn:Hc; try done.
    injection Hstep as <-. simpl. split; [done|]. split; [done|].
    intros id' ch' Hd. rewrite lookup_insert_ne; [by eapply Hch|].
    intros <-. apply Hch in Hd. congruence.
Qed.

Lemma draining_run (ls : list label) (c c' : conc) :
  draining c → LUnlock ∉ ls → crun ls c = Some c' → draining c'.
Proof.
  revert c. induction ls as [|l ls IH]; intros c Hd Hn; simpl.
  - by intros [= <-].
  - destruct (cstep l c) as [c1|] eqn:Hs; [|done].
    apply IH.
    + apply (draining_step l c); [done| |done].
      intros ->. apply Hn. apply elem_of_cons. by left.
    + intros Hin. apply Hn. apply elem_of_cons. by right.
Qed.

Lemma draining_LStop (c c1 : conc) :
  conc_wf c → (∀ i o, c_ops c !! i = Some o → sends o = false) →
  cstep LStop c = Some c1 →
  draining c1 ∧ c_pc c = DIdle ∧
  c1 = mkConc (c_sync c) DLoop (c_ops c) (c_taken c).
Proof.
  intros Hwf Hns Hs. pose proof (cstep_wf _ _ _ Hwf Hs) as Hwf1.
  simpl in Hs. destruct (c_pc c) eqn:Hp; try done. injection Hs as <-.
  split; [|done]. split; [done|]. simpl. split; [done|]. split; [done|]. done.
Qed.

Lemma drain_loop_finishes (n : nat) (c : conc) :
  draining c → c_pc c = DLoop → (size (reqs (c_sync c)) ≤ n)%nat →
  ∃ lsd c2, Forall (λ l, is_drain l = true) lsd ∧ crun lsd c = Some c2 ∧
            c_pc c2 = DIdle.
Proof.
  revert c. induction n as [|n IH]; intros c Hd Hp Hn.
  - exists [LUnlock]. eexists. split; [by repeat constructor|]. simpl.
    rewrite Hp. rewrite bool_decide_eq_true_2; [done|].
    apply map_size_empty_iff. lia.
  - destruct (decide (reqs (c_sync c) = ∅)) as [He|Hne].
    + exists [LUnlock]. eexists. split; [by repeat constructor|]. simpl.
      rewrite Hp. by rewrite bool_decide_eq_true_2.
    + apply map_choose in Hne as (id & ch & Hr).
      set (c1 := mkConc (c_sync c) (DSend id ch) (c_ops c) (c_taken c)).
      assert (cstep (LRange id) c = Some c1) as H1.
      { simpl. by rewrite Hp, Hr. }
      pose proof (draining_step (LRange id) _ _ Hd ltac:(done) H1) as Hd1.
      destruct Hd1 as (Hwf1 & Hp1 & Hns1 & Hch1).
      pose proof (Hch1 id ch eq_refl) as Hc. simpl in Hc.
      set (s2 := mkSync (reqch (c_sync c)) (reqs (c_sync c))
                   (<[ch := [mkResponse id None (Some ErrSyncStopped)]]>
                      (chans (c_sync c))) (emitted (c_sync c))).
      set (c2 := mkConc s2 (DDelete id ch) (c_ops c) (c_taken c)).
      assert (cstep LDrainSend c1 = Some c2) as H2.
      { simpl. unfold chan_send. by rewrite Hc. }
      assert (draining c1) as Hd1 by done.
      pose proof (draining_step LDrainSend _ _ Hd1 ltac:(done) H2) as Hd2.
      set (c3 := mkConc (mkSync (reqch s2) (delete id (reqs s2)) (chans s2)
                           (emitted s2)) DLoop (c_ops c) (c_taken c)).
      assert (cstep LDrainDelete c2 = Some c3) as H3 by done.
      pose proof (draining_step LDrainDelete _ _ Hd2 ltac:(done) H3) as Hd3.
      destruct (IH c3 Hd3 eq_refl) as (lsd & c4 & Hf & Hrun & Hp4).
      { simpl. pose proof (map_size_delete id (reqs (c_sync c))) as Hsz.
        rewrite Hr in Hsz. simpl in Hsz. lia. }
      exists (LRange id :: LDrainSend :: LDrainDelete :: lsd), c4.
      split; [by repeat constructor|]. split; [|done].
      cbn [crun]. rewrite H1. cbn [crun]. rewrite H2. cbn [crun]. by rewrite H3.
Qed.

Lemma drain_finishes (c : conc) :
  draining c →
  ∃ lsd c2, Forall (λ l, is_drain l = true) lsd ∧ crun lsd c = Some c2 ∧
            c_pc c2 = DIdle.
Proof.
  intros Hd. assert (∃ pc, c_pc c = pc) as [pc Hp] by eauto.
  destruct pc as [| |id ch|id ch].
  - by destruct Hd as (_ & ? & _).
  - by apply (drain_loop_finishes (size (reqs (c_sync c)))).
  - pose proof Hd as (_ & _ & _ & Hch). pose proof (Hch id ch Hp) as Hc.
    set (s2 := mkSync (reqch (c_sync c)) (reqs (c_sync c))
                 (<[ch := [mkResponse id None (Some ErrSyncStopped)]]>
                    (chans (c_sync c))) (emitted (c_sync c))).
    set (c2 := mkConc s2 (DDelete id ch) (c_ops c) (c_taken c)).
    assert (cstep LDrainSend c = Some c2) as H2.
    { simpl. rewrite Hp. unfold chan_send. by rewrite Hc. }
    pose proof (draining_step LDrainSend _ _ Hd ltac:(done) H2) as Hd2.
    set (c3 := mkConc (mkSync (reqch s2) (delete id (reqs s2)) (chans s2)
                         (emitted s2)) DLoop (c_ops c) (c_taken c)).
    assert (cstep LDrainDelete c2 = Some c3) as H3 by done.
    pose proof (draining_step LDrainDelete _ _ Hd2 ltac:(done) H3) as Hd3.
    destruct (drain_loop_finishes (size (reqs (c_sync c3))) c3 Hd3 eq_refl)
      as (lsd & c4 & Hf & Hrun & Hp4); [done|].
    exists (LDrainSend :: LDrainDelete :: lsd), c4.
    split; [by repeat constructor|]. split; [|done].
    cbn [crun]. rewrite H2. cbn [crun]. by rewrite H3.
  - set (c3 := mkConc (mkSync (reqch (c_sync c)) (delete id (reqs (c_sync c)))
                         (chans (c_sync c)) (emitted (c_sync c)))
                 DLoop (c_ops c) (c_taken c)).
    assert (cstep LDrainDelete c = Some c3) as H3.
    { simpl. by rewrite Hp. }
    pose proof (draining_step LDrainDelete _ _ Hd ltac:(done) H3) as Hd3.
    destruct (drain_loop_finishes (size (reqs (c_sync c3))) c3 Hd3 eq_refl)
      as (lsd & c4 & Hf & Hrun & Hp4); [done|].
    exists (LDrainDelete :: lsd), c4.
    split; [by repeat constructor|]. split; [|done].
    cbn [crun]. by rewrite H3.
Qed.


(** What [drain] has done so far for the entries that were registered when
    it took the mutex, in the state [c0]: an entry that no call of [deque]
    was about to delete is still registered with its channel empty, or its
    channel got the response of [drain] (which the caller may have taken
    since). *)
Abbreviation stopped id := (mkResponse id None (Some ErrSyncStopped)).

Abbreviation answering c0 c :=
  (c_ops c ⊆ c_ops c0 ∧ reqs (c_sync c) ⊆ reqs (c_sync c0) ∧
   (∀ (id : Z) (ch : nat), c_pc c = DSend id ch ∨ c_pc c = DDelete id ch →
      reqs (c_sync c0) !! id = Some ch) ∧
   (∀ (id : Z) (ch : nat), reqs (c_sync c0) !! id = Some ch →
      (∀ (i : nat) (o : op), c_ops c0 !! i = Some o → op_id o ≠ Some id) →
      (reqs (c_sync c) !! id = Some ch ∧ chans (c_sync c) !! ch = Some [] ∧
       c_pc c ≠ DDelete id ch) ∨
      ((chans (c_sync c) !! ch = Some [stopped id] ∨
        (ch, stopped id) ∈ c_taken c) ∧
       (reqs (c_sync c) !! id = None ∨ c_pc c = DDelete id ch)))).

Lemma answering_step (l : label) (c0 c c' : conc) :
  conc_wf c0 → draining c → answering c0 c → l ≠ LUnlock →
  cstep l c = Some c' → answering c0 c'.
Proof.
  intros Hwf0 (Hwf & Hpc & Hns & Hch) (Hops & Hreqs & Hcur & Hst) Hl Hstep.
  pose proof Hwf0 as (_ & Hinj & _).
  destruct l as [id data| | |id| | | |res|id|i|i|id ch]; simpl in Hstep.
  - (* LProcess *)
    unfold Process_submit in Hstep. case_bool_decide; [|done].
    injection Hstep as <-. simpl. split; [done|]. split; [done|].
    split; [done|]. intros id' ch' Hr Hno.
    assert (chans (c_sync c) !! fresh (dom (chans (c_sync c))) = None) as Hf.
    { apply not_elem_of_dom. apply is_fresh. }
    destruct (Hst _ _ Hr Hno) as [(H1 & H2 & H3)|[[H1|H1] H2]].
    + left. split; [done|]. split; [|done].
      rewrite lookup_insert_ne; [done|]. intros <-. congruence.
    + right. split; [|done]. left.
      rewrite lookup_insert_ne; [done|]. intros <-. congruence.
    + right. split; [|done]. by right.
  - by destruct (c_pc c).
  - by destruct (c_pc c).
  - (* LRange *)
    destruct (c_pc c) eqn:Hp; try done.
    destruct (reqs (c_sync c) !! id) as [ch|] eqn:Hr; [|done].
    injection Hstep as <-. simpl. split; [done|]. split; [done|]. split.
    + intros id' ch' [[= <- <-]|[=]].
      by apply (lookup_weaken _ _ _ _ Hr) in Hreqs.
    + intros id' ch' Hr' Hno.
      destruct (Hst _ _ Hr' Hno) as [(H1 & H2 & H3)|[H1 [H2|H2]]].
      * left. by repeat split.
      * right. split; [done|]. by left.
      * done.
  - (* LDrainSend *)
    destruct (c_pc c) as [| |id ch|] eqn:Hp; try done.
    destruct (chan_send _ _ _) as [cs|] eqn:Hsend; [|done].
    injection Hstep as <-. apply chan_send_Some in Hsend as [Hc ->]. simpl.
    pose proof (Hcur id ch (or_introl eq_refl)) as Hr0.
    split; [done|]. split; [done|]. split.
    + intros id' ch' [[=]|[= <- <-]]. done.
    + intros id' ch' Hr' Hno. destruct (decide (id' = id)) as [->|Hne].
      * assert (ch' = ch) as -> by congruence.
        right. split; [|by right]. left. apply lookup_insert_eq.
      * assert (ch' ≠ ch) as Hnc.
        { intros ->. apply Hne. by apply (Hinj _ _ _ Hr' Hr0). }
        destruct (Hst _ _ Hr' Hno) as [(H1 & H2 & H3)|[H1 [H2|H2]]].
        -- left. split; [done|]. split; [by rewrite lookup_insert_ne|].
           intros [= -> ->]. done.
        -- right. split; [|by left]. destruct H1 as [H1|H1]; [|by right].
           left. by rewrite lookup_insert_ne.
        -- done.
  - (* LDrainDelete *)
    destruct (c_pc c) as [| | |id ch] eqn:Hp; try done.
    injection Hstep as <-. simpl. split; [done|]. split.
    { etrans; [apply delete_subseteq|done]. }
    split; [by intros id' ch' [?|?]|].
    intros id' ch' Hr' Hno. destruct (decide (id' = id)) as [->|Hne].
    + destruct (Hst _ _ Hr' Hno) as [(H1 & H2 & H3)|[H1 H2]].
      * destruct H3. f_equal.
        pose proof (Hcur id ch (or_intror eq_refl)). congruence.
      * right. split; [done|]. left. apply lookup_delete_eq.
    + destruct (Hst _ _ Hr' Hno) as [(H1 & H2 & H3)|[H1 [H2|H2]]].
      * left. split; [by rewrite lookup_delete_ne|]. done.
      * right. split; [done|]. left. by rewrite lookup_delete_ne.
      * by injection H2 as ->.
  - done.
  - by destruct (c_pc c).
  - by destruct (c_pc c).
  - (* LDelete *)
    destruct (c_ops c !! i) as [[id ch r|]|] eqn:Ho; try done.
    pose proof (Hns _ _ Ho) as Hr. destruct r as [res|]; [done|].
    injection Hstep as <-. simpl. split.
    { etrans; [apply delete_subseteq|done]. }
    split. { etrans; [apply delete_subseteq|done]. }
    split; [done|]. intros id' ch' Hr' Hno.
    assert (id' ≠ id) as Hne.
    { intros ->. apply (lookup_weaken _ _ _ _ Ho) in Hops.
      by apply Hno in Hops. }
    destruct (Hst _ _ Hr' Hno) as [(H1 & H2 & H3)|[H1 [H2|H2]]].
    + left. split; [by rewrite lookup_delete_ne|]. done.
    + right. split; [done|]. left. by rewrite lookup_delete_ne.
    + right. split; [done|]. by right.
  - destruct (c_ops c !! i) as [[|ch res]|] eqn:Ho; try done.
    by apply Hns in Ho.
  - (* LReply *)
    destruct (chans (c_sync c) !! ch) as [[|r rest]|] eqn:Hc; try done.
    injection Hstep as <-. simpl. split; [done|]. split; [done|].
    split; [done|]. intros id' ch' Hr' Hno.
    destruct (decide (ch' = ch)) as [->|Hne].
    + destruct (Hst _ _ Hr' Hno) as [(H1 & H2 & H3)|[[H1|H1] H2]].
      * congruence.
      * right. split; [|done]. right. apply elem_of_app. right.
        apply list_elem_of_singleton. congruence.
      * right. split; [|done]. right. apply elem_of_app. by left.
    + destruct (Hst _ _ Hr' Hno) as [(H1 & H2 & H3)|[[H1|H1] H2]].
      * left. split; [done|]. split; [|done]. by rewrite lookup_insert_ne.
      * right. split; [|done]. left. by rewrite lookup_insert_ne.
      * right. split; [|done]. right. apply elem_of_app. by left.
Qed.

Lemma answering_run (ls : list label) (c0 c c' : conc) :
  conc_wf c0 → draining c → answering c0 c → LUnlock ∉ ls →
  crun ls c = Some c' → answering c0 c'.
Proof.
  intros Hwf0. revert c. induction ls as [|l ls IH]; intros c Hd Ha Hn; simpl.
  - by intros [= <-].
  - destruct (cstep l c) as [c1|] eqn:Hs; [|done].
    assert (l ≠ LUnlock) as Hl.
    { intros ->. apply Hn. apply elem_of_cons. by left. }
    apply IH.
    + by apply (draining_step l c).
    + by apply (answering_step l c0 c).
    + intros Hin. apply Hn. apply elem_of_cons. by right.
Qed.

(** ** While a call of [Rcv] is under way *)

(** [drain] does not run, at most one call of [Rcv] is under way, and its
    channel is empty. *)
Abbreviation receiving c :=
  (conc_wf c ∧ c_pc c = DIdle ∧
   (∀ (i j : nat) (oi oj : op), c_ops c !! i = Some oi → c_ops c !! j = Some oj →
      sends oi = true → sends oj = true → i = j) ∧
   (∀ (i : nat) (o : op), c_ops c !! i = Some o → sends o = true →
      chans (c_sync c) !! op_chan o = Some [])).

Lemma receiving_step (l : label) (c c' : conc) :
  receiving c → (∀ res, l ≠ LRcv res) → l ≠ LStop →
  cstep l c = Some c' → receiving c'.
Proof.
  intros (Hwf & Hpc & Hone & Hch) Hl1 Hl2 Hstep.
  split; [by apply (cstep_wf l c)|].
  destruct l as [id data| | |id| | | |res|id|i|i|id ch]; simpl in Hstep;
    rewrite ?Hpc in Hstep; try done.
  - (* LProcess *)
    unfold Process_submit in Hstep. case_bool_decide; [|done].
    injection Hstep as <-. simpl. split; [done|]. split; [done|].
    intros i o Ho Hs. rewrite lookup_insert_ne; [by eapply Hch|].
    intros Heq. pose proof (Hch _ _ Ho Hs) as Hc. rewrite <- Heq in Hc.
    assert (chans (c_sync c) !! fresh (dom (chans (c_sync c))) = None) as Hf.
    { apply not_elem_of_dom. apply is_fresh. }
    congruence.
  - (* LServe *)
    destruct (reqch (c_sync c)) as [|[req ch0] q]; [done|].
    injection Hstep as <-. simpl. done.
  - by destruct (Hl1 res).
  - (* LCtxDone *)
    injection Hstep as <-. unfold deque_locked.
    destruct (reqs (c_sync c) !! id) as [ch|]; [|done]. simpl.
    split; [done|]. split.
    + intros i j oi oj [[_ <-]|[_ Hi]]%lookup_insert_Some
        [[_ <-]|[_ Hj]]%lookup_insert_Some; try done. by eapply Hone.
    + intros i o [[_ <-]|[_ Hi]]%lookup_insert_Some; [done|]. by eapply Hch.
  - (* LDelete *)
    destruct (c_ops c !! i) as [[id ch r|]|] eqn:Ho; try done.
    injection Hstep as <-. simpl. split; [done|].
    destruct r as [res|].
    + assert (∀ j o, <[i := OpSend ch res]> (c_ops c) !! j = Some o →
                ∃ o', c_ops c !! j = Some o' ∧ sends o' = sends o ∧
                      op_chan o' = op_chan o) as Hold.
      { intros j o [[<- <-]|[_ Hj]]%lookup_insert_Some; eauto. }
      split.
      * intros j1 j2 o1 o2 (o1' & H1 & Hs1 & _)%Hold (o2' & H2 & Hs2 & _)%Hold.
        rewrite <- Hs1, <- Hs2. by eapply Hone.
      * intros j o (o' & H1 & Hs1 & Hc1)%Hold. rewrite <- Hs1, <- Hc1.
        by eapply Hch.
    + split.
      * intros j1 j2 o1 o2 [_ H1]%lookup_delete_Some [_ H2]%lookup_delete_Some.
        by eapply Hone.
      * intros j o [_ H1]%lookup_delete_Some. by eapply Hch.
  - (* LSend *)
    destruct (c_ops c !! i) as [[|ch res]|] eqn:Ho; try done.
    destruct (chan_send _ _ _) as [cs|] eqn:Hsend; [|done].
    injection Hstep as <-. simpl. split; [done|].
    assert (∀ j o, delete i (c_ops c) !! j = Some o → sends o = false) as Hno.
    { intros j o [Hne Hj]%lookup_delete_Some.
      destruct (sends o) eqn:Hs; [|done]. destruct Hne.
      by apply (Hone i j _ o Ho Hj). }
    split.
    + intros j1 j2 o1 o2 H1%Hno. congruence.
    + intros j o H1%Hno. congruence.
  - (* LReply *)
    destruct (chans (c_sync c) !! ch) as [[|r rest]|] eqn:Hc; try done.
    injection Hstep as <-. simpl. split; [done|]. split; [done|].
    intros i o Ho Hs. rewrite lookup_insert_ne; [by eapply Hch|].
    intros Heq. pose proof (Hch _ _ Ho Hs) as Hc'. congruence.
Qed.

Lemma receiving_run (ls : list label) (c c' : conc) :
  receiving c → Forall (λ l, (∀ res, l ≠ LRcv res) ∧ l ≠ LStop) ls →
  crun ls c = Some c' → receiving c'.
Proof.
  revert c. induction ls as [|l ls IH]; intros c Hr Hn; simpl.
  - by intros [= <-].
  - destruct (cstep l c) as [c1|] eqn:Hs; [|done].
    apply Forall_cons in Hn as [[Hl1 Hl2] Hn].
    apply IH; [|done]. by apply (receiving_step l c).
Qed.

Lemma receiving_LRcv (res : response) (c c1 : conc) :
  conc_wf c → (∀ i o, c_ops c !! i = Some o → sends o = false) →
  cstep (LRcv res) c = Some c1 → receiving c1.
Proof.
  intros Hwf Hns Hs. pose proof (cstep_wf _ _ _ Hwf Hs) as Hwf1.
  simpl in Hs. destruct (c_pc c) eqn:Hp; try done. injection Hs as <-.
  split; [done|]. unfold deque_locked in *.
  destruct (reqs (c_sync c) !! res_ID res) as [ch|] eqn:Hr; simpl.
  - split; [done|]. split.
    + intros i j oi oj [[<- <-]|[_ Hi]]%lookup_insert_Some
        [[<- <-]|[_ Hj]]%lookup_insert_Some; try done.
      * intros _ Hsj. apply Hns in Hj. congruence.
      * intros Hsi. apply Hns in Hi. congruence.
      * intros Hsi. apply Hns in Hi. congruence.
    + intros i o [[_ <-]|[_ Hi]]%lookup_insert_Some.
      * intros _. simpl. destruct Hwf as (W1 & _).
        destruct (W1 _ _ Hr) as [?|Hd]; [done|]. congruence.
      * intros Hsi. apply Hns in Hi. congruence.
  - split; [done|]. split.
    + intros i j oi oj Hi Hj Hsi. apply Hns in Hi. congruence.
    + intros i o Hi Hsi. apply Hns in Hi. congruence.
Qed.


(** ** The properties of the goroutines *)

(** X16. In every state that the goroutines of a [Sync] reach from
    [NewSync], step by step and in whatever order: no channel holds more
    than one response, and the channel of a registered request is empty,
    unless [drain] has just sent on it and is about to delete the entry.
    When no call of [Rcv] is under way: if [drain] takes the mutex now, no
    call of [Rcv] is under way while it holds it and none of its sends
    blocks, whatever the other goroutines do meanwhile; and if a call of
    [Rcv] starts now, its send does not block, whatever the other goroutines
    do meanwhile, as long as no other call of [Rcv] starts and [drain] does
    not take the mutex. *)
Theorem Sync_sends_never_block (ls : list label) (c : conc) :
  crun ls NewConc = Some c →
  (∀ ch l, chans (c_sync c) !! ch = Some l → (length l ≤ 1)%nat) ∧
  (∀ id ch, reqs (c_sync c) !! id = Some ch →
     chans (c_sync c) !! ch = Some [] ∨ c_pc c = DDelete id ch) ∧
  ((∀ i o, c_ops c !! i = Some o → sends o = false) →
   (∀ ls' c', crun (LStop :: ls') c = Some c' → LUnlock ∉ ls' →
      (∀ i o, c_ops c' !! i = Some o → sends o = false) ∧
      (∀ id ch, c_pc c' = DSend id ch → is_Some (cstep LDrainSend c'))) ∧
   (∀ res ls' c', crun (LRcv res :: ls') c = Some c' →
      Forall (λ l, (∀ res', l ≠ LRcv res') ∧ l ≠ LStop) ls' →
      ∀ i ch r, c_ops c' !! i = Some (OpSend ch r) →
                is_Some (cstep (LSend i) c'))).
Proof.
  intros Hrun. apply crun_wf in Hrun; [|apply conc_wf_NewConc].
  split; [by destruct Hrun as (_ & _ & _ & _ & ? & _)|].
  split; [by destruct Hrun as (? & _)|]. intros Hns. split.
  - intros ls' c'. cbn [crun].
    destruct (cstep LStop c) as [c1|] eqn:Hs; [|done]. intros Hrun' Hn.
    apply draining_LStop in Hs as (Hd & _); [|done|done].
    pose proof (draining_run _ _ _ Hd Hn Hrun') as (_ & _ & Hns' & Hch).
    split; [done|]. intros id ch Hp. simpl. rewrite Hp.
    unfold chan_send. rewrite (Hch _ _ Hp). by eexists.
  - intros res ls' c'. cbn [crun].
    destruct (cstep (LRcv res) c) as [c1|] eqn:Hs; [|done]. intros Hrun' Hn.
    apply receiving_LRcv in Hs; [|done|done].
    pose proof (receiving_run _ _ _ Hs Hn Hrun') as (_ & _ & _ & Hch).
    intros i ch r Ho. simpl. rewrite Ho.
    pose proof (Hch _ _ Ho eq_refl) as Hc. simpl in Hc.
    unfold chan_send. rewrite Hc. by eexists.
Qed.

(** X18. [drain], from a state that the goroutines reach from [NewSync] in
    which no call of [Rcv] is under way, and whatever the other goroutines
    do while it runs: [drain] can always go on until it has given the mutex
    back; when it gives the mutex back no request is registered any more,
    and for every request that was registered when it took the mutex, and
    that no call of [deque] was about to delete, the channel holds the
    response with [ErrSyncStopped], for which [Process] returns an error
    with the text of [ErrSyncStopped], or the caller has taken that
    response already. *)
Theorem drain_answers_everyone (ls ls' : list label) (c c1 : conc) :
  crun ls NewConc = Some c →
  (∀ i o, c_ops c !! i = Some o → sends o = false) →
  crun (LStop :: ls') c = Some c1 → LUnlock ∉ ls' →
  (∃ lsd c2, Forall (λ l, is_drain l = true) lsd ∧ crun lsd c1 = Some c2 ∧
             c_pc c2 = DIdle) ∧
  (∀ c2, cstep LUnlock c1 = Some c2 →
     c_pc c2 = DIdle ∧ reqs (c_sync c2) = ∅ ∧
     ∀ id ch, reqs (c_sync c) !! id = Some ch →
       (∀ i o, c_ops c !! i = Some o → op_id o ≠ Some id) →
       (chans (c_sync c2) !! ch
        = Some [mkResponse id None (Some ErrSyncStopped)] ∧
        fst <$> Process_select id ch None SelReply (c_sync c2)
        = Some (None, Some (errors_New (Error_text ErrSyncStopped)))) ∨
       (ch, mkResponse id None (Some ErrSyncStopped)) ∈ c_taken c2).
Proof.
  intros Hrun Hns. cbn [crun].
  destruct (cstep LStop c) as [c0|] eqn:Hs; [|done]. intros Hrun' Hn.
  apply crun_wf in Hrun; [|apply conc_wf_NewConc].
  apply draining_LStop in Hs as (Hd0 & Hp & ->); [|done|done].
  pose proof (draining_run _ _ _ Hd0 Hn Hrun') as Hd1.
  split; [by apply drain_finishes|].
  intros c2 Hu. simpl in Hu. destruct (c_pc c1) eqn:Hp1; try done.
  case_bool_decide as He; [|done]. injection Hu as <-. simpl.
  split; [done|]. split; [done|]. intros id ch Hr Hno.
  assert (answering c (mkConc (c_sync c) DLoop (c_ops c) (c_taken c))) as Ha0.
  { simpl. split; [done|]. split; [done|]. split; [by intros ? ? [?|?]|].
    intros id' ch' Hr' _. left. split; [done|]. split; [|done].
    destruct Hrun as (W1 & _). destruct (W1 _ _ Hr') as [?|?]; [done|].
    congruence. }
  pose proof (answering_run _ _ _ _ Hrun Hd0 Ha0 Hn Hrun') as (_ & _ & _ & Hst).
  destruct (Hst _ _ Hr Hno) as [(H1 & _)|[[H1|H1] _]].
  - rewrite He in H1. by rewrite lookup_empty in H1.
  - left. split; [done|]. unfold Process_select. by rewrite H1.
  - by right.
Qed.

(** ** The handlers of sync requests *)
Lemma responses_app (l1 l2 : list (Z * payload Data Err)) :
  responses (l1 ++ l2) = responses l1 ++ responses l2.
Proof. unfold responses. apply omap_app. Qed.

Lemma handler_Rcv_replies (h : handler Data Err) (sc : syncRcvContext Data Err) :
  ∃ new,
    sc_id (handler_Rcv h sc).2 = sc_id sc ∧
    sc_from (handler_Rcv h sc).2 = sc_from sc ∧
    sc_sent (handler_Rcv h sc).2 = sc_sent sc ++ new ∧
    (responses new = [] ∧ sc_replied (handler_Rcv h sc).2 = sc_replied sc ∨
     sc_replied sc = false ∧ sc_replied (handler_Rcv h sc).2 = true ∧
     ∃ d, responses new = [(sc_from sc, mkResponse (sc_id sc) d None)]).
Proof.
  revert sc. induction h as [err|from data k IH]; intros sc; simpl.
  - exists []. rewrite app_nil_r. split; [done|]. split; [done|].
    split; [done|]. by left.
  - unfold syncRcvContext_ReplyTo, under_ReplyTo.
    case_bool_decide as Hf.
    + match goal with |- context [handler_Rcv (k ?e) ?sc'] =>
        destruct (IH e sc') as (new & Hi & Hfr & Hs & Hn) end.
      simpl in *. exists ((from, Plain data) :: new).
      split; [done|]. split; [done|]. split.
      { rewrite Hs. by rewrite <- app_assoc. }
      exact Hn.
    + assert (from = sc_from sc) as -> by (by destruct (decide (from = sc_from sc));
                                            [|destruct Hf]).
      destruct (sc_replied sc) eqn:Hrep.
      * destruct (IH (Some ErrSyncDuplicateResponse) sc)
          as (new & Hi & Hfr & Hs & Hn).
        exists new. split; [done|]. split; [done|]. split; [done|].
        rewrite Hrep in Hn. exact Hn.
      * match goal with |- context [handler_Rcv (k ?e) ?sc'] =>
          destruct (IH e sc') as (new & Hi & Hfr & Hs & Hn) end.
        simpl in *.
        exists ((sc_from sc, payload_of (mkResponse (sc_id sc) data None)) :: new).
        split; [done|]. split; [done|]. split.
        { rewrite Hs. by rewrite <- app_assoc. }
        right. split; [done|].
        destruct Hn as [[Hn Hr]|[? _]]; [|done].
        split; [done|]. exists data.
        change (?x :: new) with ([x] ++ new). rewrite responses_app, Hn. done.
Qed.

(** X20. [syncHandler.Rcv] answers the sender of the request, whatever the
    handler does: every response goes to that sender and has the id of the
    request.  When the handler returns no error there is exactly one
    response, the first reply of the handler or else an empty one.  When
    it returns an error the transaction is aborted and a response with that
    error is sent, after the reply of the handler if there was one. *)
Theorem syncHandler_Rcv_responds (h : option Data → Z → handler Data Err)
    (req : request) (from : Z) :
  let '(err, aborted, sent) := syncHandler_Rcv h req from in
  Forall (λ x, x.1 = from ∧ res_ID x.2 = req_ID req) (responses sent) ∧
  match err with
  | None =>
    aborted = false ∧
    ∃ d, responses sent = [(from, mkResponse (req_ID req) d None)]
  | Some e =>
    aborted = true ∧
    let r := mkResponse (req_ID req) None (Some (gob_Error (Error_text e))) in
    responses sent = [(from, r)] ∨
    ∃ d, responses sent = [(from, mkResponse (req_ID req) d None); (from, r)]
  end.
Proof.
  unfold syncHandler_Rcv.
  destruct (handler_Rcv_replies (h (req_Data req) from)
              (mkCtx (req_ID req) from false []))
    as (new & Hi & Hf & Hs & Hn).
  destruct (handler_Rcv _ _) as [err sc'] eqn:Hh. simpl in *.
  destruct err as [e|].
  - rewrite Hs, responses_app.
    destruct Hn as [[Hn Hr]|(_ & Hr & d & Hn)]; rewrite Hn; simpl.
    + split; [by repeat constructor|]. split; [done|]. by left.
    + split; [by repeat constructor|]. split; [done|]. right. by exists d.
  - destruct Hn as [[Hn Hr]|(_ & Hr & d & Hn)]; rewrite Hr; simpl.
    + rewrite Hs, responses_app, Hn. simpl.
      split; [by repeat constructor|]. split; [done|]. by exists None.
    + rewrite Hs, Hn. simpl.
      split; [by repeat constructor|]. split; [done|]. by exists d.
Qed.

End SyncFacts.

(** ** The properties, at the examples *)

Lemma Sync_Process_gets_response_witness :
  ∃ s3 s4,
    Rcv ex_pong ex_sync = Some (None, s3) ∧
    Process_select 7 0%nat None SelReply s3 = Some ((Some "pong", None), s4) ∧
    Rcv ex_pong s4 = Some (Some "sync: request not found", s4).
Proof.
  assert (∃ s1, Process_submit 7 (Some "ping") NewSync = Some (0%nat, s1) ∧
                Start_select SelReq s1 = Some ex_sync) as (s1 & Hp & Hs)
    by (eexists; split; vm_compute; reflexivity).
  destruct (Sync_Process_gets_response 7 (Some "ping") NewSync s1 ex_sync
              0%nat ex_pong sync_wf_NewSync eq_refl Hp Hs eq_refl)
    as (_ & s3 & s4 & H1 & H2 & _ & H4 & _).
  exists s3, s4. split; [exact H1|]. split; [exact H2|exact H4].
Defined.

Lemma drain_alone_any_order_witness :
  ∃ s', Start_select (SelDone [(7, 0%nat)]) ex_sync = Some s' ∧
        reqs s' = ∅ ∧
        chans s' !! 0%nat = Some [mkResponse 7 None (Some "sync: stopped")].
Proof.
  destruct (drain_alone_any_order [(7, 0%nat)] ex_sync)
    as (s' & H1 & H2 & _ & _ & H3 & _).
  - unfold sync_wf, ex_sync. simpl. split; [|split; [|split; [|split]]].
    + intros id ch [<- <-]%lookup_singleton_Some. reflexivity.
    + by intros id1 id2 ch [<- <-]%lookup_singleton_Some
        [<- _]%lookup_singleton_Some.
    + intros q ch H. by apply elem_of_nil in H.
    + constructor.
    + intros ch l [<- <-]%lookup_singleton_Some. simpl. lia.
  - vm_compute. reflexivity.
  - exists s'. split; [exact H1|]. split; [exact H2|].
    apply (H3 7). reflexivity.
Defined.

Lemma cancel_before_serve_leaks_witness :
  ∃ s1 s2 s3 : sync string string,
    Process_submit 7 (Some "ping") NewSync = Some (0%nat, s1) ∧
    snd <$> Process_select 7 0%nat (Some Canceled) SelCtxDone s1 = Some s2 ∧
    Start_select SelReq s2 = Some s3 ∧
    reqs s3 !! 7 = Some 0%nat.
Proof.
  assert (∃ s1 : sync string string,
            Process_submit 7 (Some "ping") NewSync = Some (0%nat, s1))
    as (s1 & Hp) by (eexists; vm_compute; reflexivity).
  destruct (cancel_before_serve_leaks 7 (Some "ping") NewSync s1 0%nat
              Canceled eq_refl eq_refl Hp)
    as ((s2 & s3 & x & H1 & _ & H2 & H3 & _) & _).
  exists s1, s2, s3. split; [exact Hp|]. rewrite H1.
  split; [reflexivity|]. split; [exact H2|exact H3].
Defined.

Lemma Sync_sends_never_block_witness :
  (∃ c' : conc string string,
     crun [LStop; LRange 7] ex_conc = Some c' ∧ is_Some (cstep LDrainSend c')) ∧
  (∃ c' : conc string string,
     crun [LRcv ex_pong; LDelete 0] ex_conc = Some c' ∧
     is_Some (cstep (LSend 0) c')).
Proof.
  destruct (Sync_sends_never_block [LProcess 7 (Some "ping"); LServe] ex_conc)
    as (_ & _ & H); [vm_compute; reflexivity|].
  destruct H as [HD HR].
  { intros i o Ho. simpl in Ho. by rewrite lookup_empty in Ho. }
  split.
  - eexists. split; [vm_compute; reflexivity|].
    eapply (HD [LRange 7]); [vm_compute; reflexivity| |reflexivity].
    intros [=]%list_elem_of_singleton.
  - eexists. split; [vm_compute; reflexivity|].
    eapply (HR ex_pong [LDelete 0%nat]); [vm_compute; reflexivity| |].
    + apply Forall_cons. split; [split; [intros res; discriminate|discriminate]|].
      constructor.
    + vm_compute. reflexivity.
Defined.

Lemma drain_answers_everyone_witness :
  ∃ c2 : conc string string,
    crun [LProcess 7 (Some "ping"); LServe; LStop; LRange 7; LDrainSend;
          LDrainDelete; LUnlock] NewConc = Some c2 ∧
    reqs (c_sync c2) = ∅ ∧
    chans (c_sync c2) !! 0%nat = Some [mkResponse 7 None (Some "sync: stopped")] ∧
    fst <$> Process_select 7 0%nat None SelReply (c_sync c2)
    = Some (None, Some "sync: stopped").
Proof.
  assert (∃ c1 c2 : conc string string,
            crun [LStop; LRange 7; LDrainSend; LDrainDelete] ex_conc = Some c1 ∧
            cstep LUnlock c1 = Some c2 ∧ c_taken c2 = [] ∧
            crun [LProcess 7 (Some "ping"); LServe; LStop; LRange 7; LDrainSend;
                  LDrainDelete; LUnlock] NewConc = Some c2)
    as (c1 & c2 & H1 & H2 & H3 & H4)
    by (do 2 eexists; repeat split; vm_compute; reflexivity).
  destruct (drain_answers_everyone [LProcess 7 (Some "ping"); LServe]
              [LRange 7; LDrainSend; LDrainDelete] ex_conc c1) as [_ H].
  - vm_compute. reflexivity.
  - intros i o Ho. simpl in Ho. by rewrite lookup_empty in Ho.
  - exact H1.
  - intros Hin. repeat (apply elem_of_cons in Hin as [Hin|Hin]; [discriminate|]).
    by apply elem_of_nil in Hin.
  - destruct (H c2 H2) as (_ & Hr & Hans). exists c2.
    split; [exact H4|]. split; [exact Hr|].
    destruct (Hans 7 0%nat) as [[Ha Hb]|Ht].
    + reflexivity.
    + intros i o Ho. simpl in Ho. by rewrite lookup_empty in Ho.
    + split; [exact Ha|exact Hb].
    + rewrite H3 in Ht. by apply elem_of_nil in Ht.
Defined.

(** X27. A call of [Rcv] that overlaps [drain].  [Rcv] finds the channel
    of request 7 and gives the mutex back; [drain] takes the mutex and
    [range] yields the entry of 7; [Rcv] deletes the entry and sends its
    response.  The send of [drain] now blocks, with the mutex held: [Start]
    takes no request, and no call of [Rcv] or [deque] gets the mutex.  The
    only steps left are those of new callers of [Process] and the caller of
    request 7 taking the response from its channel. *)
Theorem Rcv_during_drain_blocks :
  crun ex_overlap NewConc = Some ex_stuck ∧
  c_pc ex_stuck = DSend 7 0 ∧
  chans (c_sync ex_stuck) !! 0%nat = Some [ex_pong] ∧
  cstep LDrainSend ex_stuck = None ∧
  ∀ l, is_Some (cstep l ex_stuck) →
       (∃ id data, l = LProcess id data) ∨ (∃ id, l = LReply id 0).
Proof.
  split; [vm_compute; reflexivity|]. split; [reflexivity|].
  split; [reflexivity|]. split; [reflexivity|].
  intros l [c' Hs].
  destruct l as [id data| | |id| | | |res|id|i|i|id ch]; try done.
  - left. by exists id, data.
  - right. exists id. f_equal. simpl in Hs. unfold ex_stuck in Hs. simpl in Hs.
    destruct (decide (ch = 0%nat)) as [->|Hne]; [done|].
    by rewrite lookup_singleton_ne in Hs.
Qed.

End SyncFacts.

(** * More properties of the node *)

Module RaftExtra.

Import raftpb Raft Instances RegistryFacts RaftFacts.

(** ** Conf changes and their callers *)

Section ConfExtra.
Context {Any S E : Type} `{!Codec Any} `{!Engine E} `{!Store Any S}.

Abbreviation node := (Node Any S E).

Lemma ProcessConfChange_submit_waiting (cc : ConfChange) (info : NodeInfo)
    (n n1 : node) (p : pending) :
  ProcessConfChange_submit cc info n = (inr p, n1) →
  waiting p (n_line n1) ∧ n_store n1 = n_store n ∧ n_done n1 = n_done n ∧
  ∃ b, encode_Request (mkRequest (p_id p) (Some (of_NodeInfo info))) = Some b ∧
       n_node n1 = raft_ProposeConfChange (with_Context cc b) (n_node n).
Proof.
  unfold ProcessConfChange_submit, genID, GenID. simpl.
  destruct (encode_Request _) as [b|] eqn:Hb; [|done].
  intros [= <- <-]. simpl. split; [apply line_wait_waiting|].
  repeat split; try done. by exists b.
Qed.

Lemma validConfChange_accepts (cc : ConfChange) (confs : ConfState) :
  valid_against cc confs →
  cc_Type cc = ConfChangeAddNode ∨ cc_Type cc = ConfChangeRemoveNode →
  validConfChange cc confs = Ret None.
Proof.
  intros (Hz & Ha & Hr) Ht. unfold validConfChange, None_.
  rewrite bool_decide_eq_false_2 by done.
  destruct Ht as [Ht|Ht]; rewrite Ht.
  - destruct (containsNode _ _) eqn:Hc; [|done].
    apply containsNode_spec in Hc. by destruct (Ha Ht).
  - destruct (containsNode _ _) eqn:Hc; [done|].
    specialize (Hr Ht). apply containsNode_spec in Hr. congruence.
Qed.

(** X22. A conf change through [ProcessConfChange] (so through [AddNode]
    and [RemoveNode]) that is valid when its entry is applied: the
    [ConfState] is the one that the engine gives back, the store is told
    about the change with the [NodeInfo] of the caller, and
    [ProcessConfChange] returns what [Store.ApplyConfChange] returned. *)
Theorem ProcessConfChange_returns_store_error (n n1 : node) (cc : ConfChange)
    (info : NodeInfo) (p : pending) (e : Entry) (confs : ConfState)
    (b : bytes) (err : option error) (s' : S) :
  n_done n = false →
  ProcessConfChange_submit cc info n = (inr p, n1) →
  encode_Request (mkRequest (p_id p) (Some (of_NodeInfo info))) = Some b →
  unmarshal_ConfChange (Data e) = Some (with_Context cc b) →
  b ≠ [] → decode_NodeInfo b = None →
  decode_Request b = Some (mkRequest (p_id p) (Some (of_NodeInfo info))) →
  as_NodeInfo (of_NodeInfo info) = Some info →
  valid_against cc confs →
  cc_Type cc = ConfChangeAddNode ∨ cc_Type cc = ConfChangeRemoveNode →
  store_ApplyConfChange (with_Context cc b) info (n_store n1) = Ret (err, s') →
  ∃ n2 n3,
    applyConfChange e confs n1
    = Ret (None, (raft_ApplyConfChange (with_Context cc b) (n_node n1)).1, n2) ∧
    n_store n2 = s' ∧
    ProcessConfChange_select p None CaseReply n2 = Some (err, n3) ∧
    ProcessConfChange_select p None CaseCtxDone n2 = None ∧
    ProcessConfChange_select p None CaseNodeDone n2 = None.
Proof.
  intros Hdone Hsub Henc Hun Hne Hni Hdec Has Hvalid Ht Happ.
  apply ProcessConfChange_submit_waiting in Hsub as (Hw & Hs & Hd & _).
  unfold applyConfChange. rewrite Hun.
  rewrite validConfChange_accepts by done.
  destruct (raft_ApplyConfChange _ _) as [cs eng] eqn:He. simpl.
  rewrite bool_decide_eq_false_2.
  2:{ intros Hl. apply Hne. by apply nil_length_inv. }
  rewrite Hni, Hdec. simpl. rewrite Has. simpl. rewrite Happ.
  destruct (line_call_delivers p (mkResponse (p_id p) None err) (n_line n1))
    as [Hc Hr]; [done|done|].
  eexists _, _. split; [reflexivity|]. split; [done|].
  unfold ProcessConfChange_select, Process_select, chan_recv. simpl.
  rewrite Hc. simpl. split; [reflexivity|]. split; [done|].
  by rewrite Hd, Hdone.
Qed.

(** X23. A conf change through [ProcessConfChange] that is not valid when
    its entry is applied: nobody answers the caller.  The caller stays
    registered in the line, the store is as before, and no case of the
    [select] is ready until the context is done or the node stops. *)
Theorem invalid_conf_change_leaves_caller_waiting (n n1 : node)
    (cc : ConfChange) (info : NodeInfo) (p : pending) (e : Entry)
    (confs : ConfState) (b : bytes) :
  n_done n = false →
  ProcessConfChange_submit cc info n = (inr p, n1) →
  unmarshal_ConfChange (Data e) = Some (with_Context cc b) →
  ¬ valid_against cc confs →
  ∃ err n2,
    applyConfChange e confs n1 = Ret (Some err, confs, n2) ∧
    waiting p (n_line n2) ∧ n_store n2 = n_store n ∧
    ∀ c, ProcessConfChange_select p None c n2 = None.
Proof.
  intros Hdone Hsub Hun Hinv.
  apply ProcessConfChange_submit_waiting in Hsub as (Hw & Hs & Hd & _).
  destruct (validConfChange_invalid (with_Context cc b) confs) as [err Herr];
    [done|].
  exists err. eexists. unfold applyConfChange. rewrite Hun, Herr.
  split; [reflexivity|]. simpl. split; [done|]. split; [done|].
  intros c. unfold ProcessConfChange_select, Process_select, chan_recv. simpl.
  destruct Hw as [_ Hc]. destruct c; simpl.
  - by rewrite Hc.
  - done.
  - by rewrite Hd, Hdone.
Qed.

End ConfExtra.

(** ** Cancellation, [apply], and the indices of [Start] *)

Section NodeExtra.
Context {Any S E T : Type} `{!Codec Any} `{!Engine E} `{!Store Any S}
  `{!Saver S} `{!Storage T} {snaplib : SnapLib}.

Abbreviation node := (Node Any S E).

(** X21. A request that [Process] has proposed and whose context is done
    before it is applied: [Process] returns the error of the context and
    the request is not registered in the line any more; when its entry is
    applied later, the store is still updated, and nothing is sent on the
    channel of the caller. *)
Theorem Process_cancelled_still_applied (n n1 : node) (d : Any) (p : pending)
    (ce : ctx_error) (e : Entry) (reply : option Any) (err : option error)
    (s' : S) :
  Process_submit (Some d) n = (inr p, n1) →
  Data e ≠ [] →
  decode_Request (Data e) = Some (mkRequest (p_id p) (Some d)) →
  store_Apply d (n_store n1) = Ret ((reply, err), s') →
  ∃ n2 n3,
    Process_select p (Some ce) CaseCtxDone n1
    = Some ((None, Some (ErrCtx ce)), n2) ∧
    reqs (n_line n2) !! p_id p = None ∧
    applyEntry e n2 = Ret n3 ∧
    n_store n3 = s' ∧ n_line n3 = n_line n2 ∧
    chans (n_line n3) !! p_ch p = Some None.
Proof.
  intros Hsub Hne Hdec Happ.
  apply Process_submit_waiting in Hsub as ([Hr Hc] & Hs & _).
  eexists _, _. split; [reflexivity|]. simpl.
  split; [apply lookup_delete_eq|].
  unfold applyEntry. rewrite bool_decide_eq_false_2.
  2:{ intros Hl. apply Hne. by apply nil_length_inv. }
  rewrite Hdec. simpl. rewrite Happ. split; [reflexivity|]. simpl.
  unfold line_call, line_cancel. simpl. rewrite lookup_delete_eq.
  split; [done|]. split; [done|]. done.
Qed.

Lemma applyEntry_frame (e : Entry) (n n' : node) :
  applyEntry e n = Ret n' →
  n_id n' = n_id n ∧ n_gen n' = n_gen n ∧ n_snapCount n' = n_snapCount n ∧
  n_done n' = n_done n ∧ n_node n' = n_node n.
Proof.
  unfold applyEntry. case_bool_decide; [by intros [= <-]|].
  destruct (decode_Request _) as [req|]; [|done].
  destruct (req_Data req) as [d|]; [|by intros [= <-]].
  destruct (store_Apply _ _) as [[[data err] s']|]; [|done].
  by intros [= <-].
Qed.

Lemma applyConfChange_frame (e : Entry) (confs confs' : ConfState)
    (n n' : node) (err : option error) :
  applyConfChange e confs n = Ret (err, confs', n') →
  n_id n' = n_id n ∧ n_gen n' = n_gen n ∧ n_snapCount n' = n_snapCount n ∧
  n_done n' = n_done n.
Proof.
  unfold applyConfChange.
  destruct (unmarshal_ConfChange _) as [cc|]; [|done].
  destruct (validConfChange cc confs) as [[e0|]|]; [by intros [= <- <- <-]| |done].
  destruct (raft_ApplyConfChange cc (n_node n)) as [cs eng].
  case_bool_decide.
  - simpl. destruct (store_ApplyConfChange _ _ _) as [[r s']|]; [|done].
    by intros [= <- <- <-].
  - destruct (decode_NodeInfo _) as [info|].
    + case_bool_decide; [done|]. simpl.
      destruct (store_ApplyConfChange _ _ _) as [[r s']|]; [|done].
      by intros [= <- <- <-].
    + destruct (decode_Request _) as [req|]; [|done].
      destruct (req_Data req ≫= as_NodeInfo) as [info|]; [|done]. simpl.
      destruct (store_ApplyConfChange _ _ _) as [[r s']|]; [|done].
      by intros [= <- <- <-].
Qed.

Lemma apply_from_result (es : list Entry) (i0 : Z) (confs : ConfState)
    (n : node) i stop confs' n' :
  apply_from es i0 confs n = Ret (i, stop, confs', n') →
  stop = false ∧ i = default i0 (Index <$> last es) ∧
  n_id n' = n_id n ∧ n_gen n' = n_gen n ∧ n_snapCount n' = n_snapCount n ∧
  n_done n' = n_done n.
Proof.
  revert i0 confs n. induction es as [|e es IH]; intros i0 confs n; simpl.
  - by intros [= <- <- <- <-].
  - destruct (Type_ e).
    + destruct (applyEntry e n) as [n1|] eqn:He; [|done].
      intros H. apply IH in H as (-> & -> & Hi & Hg & Hk & Hd).
      apply applyEntry_frame in He as (? & ? & ? & ? & _).
      split; [done|]. split; [rewrite last_cons; by destruct (last es)|].
      split; [congruence|]. split; [congruence|]. split; congruence.
    + destruct (applyConfChange e confs n) as [[[err c1] n1]|] eqn:He; [|done].
      intros H. apply IH in H as (-> & -> & Hi & Hg & Hk & Hd).
      apply applyConfChange_frame in He as (? & ? & ? & ?).
      split; [done|]. split; [rewrite last_cons; by destruct (last es)|].
      split; [congruence|]. split; [congruence|]. split; congruence.
    + done.
Qed.

Lemma apply_from_other (es : list Entry) (i0 : Z) (confs : ConfState) (n : node) :
  Exists (λ e, ∃ t, Type_ e = EntryOther t) es →
  apply_from es i0 confs n = Fatal.
Proof.
  revert i0 confs n. induction es as [|e es IH]; intros i0 confs n Hex; simpl.
  - by apply Exists_nil in Hex.
  - apply Exists_cons in Hex as [[t Ht]|Hex].
    + by rewrite Ht.
    + destruct (Type_ e); [| |done].
      * destruct (applyEntry e n); [|done]. by apply IH.
      * destruct (applyConfChange e confs n) as [[[err c1] n1]|]; [|done].
        by apply IH.
Qed.

(** X24. [apply] never asks for the node to be stopped: when it returns,
    [shouldStop] is false, the index is the one of the last entry, and the
    id, the generator, [snapCount] and [done] of the node are as before.
    And it terminates the process when one of the entries is neither normal
    nor a conf change. *)
Theorem apply_never_stops (es : list Entry) (confs : ConfState) (n : node) :
  (∀ i stop confs' n',
     apply es confs n = Ret (i, stop, confs', n') →
     stop = false ∧ i = final_index es ∧
     n_id n' = n_id n ∧ n_gen n' = n_gen n ∧
     n_snapCount n' = n_snapCount n ∧ n_done n' = n_done n) ∧
  (Exists (λ e, ∃ t, Type_ e = EntryOther t) es → apply es confs n = Fatal).
Proof.
  split.
  - intros i stop confs' n' H. unfold apply in H.
    apply apply_from_result in H as (-> & -> & ?). split; [done|].
    split; [|done]. unfold final_index. by destruct (last es).
  - apply apply_from_other.
Qed.

(** The committed entries that [Start] applies *)
Lemma consecutive_from_last (f : Z) (es : list Entry) (e : Entry) :
  consecutive_from f es → last es = Some e →
  Index e = f + Z.of_nat (length es) - 1.
Proof.
  revert f. induction es as [|e0 es IH]; intros f Hc Hl; [done|].
  destruct Hc as [Hf Hc]. destruct es as [|e1 es].
  - simpl in *. injection Hl as <-. lia.
  - change (last (e0 :: e1 :: es)) with (last (e1 :: es)) in Hl.
    rewrite (IH _ Hc Hl). simpl length. lia.
Qed.

Lemma consecutive_from_ge (f : Z) (es : list Entry) :
  consecutive_from f es → Forall (λ e, f ≤ Index e) es.
Proof.
  revert f. induction es as [|e es IH]; intros f Hc; [constructor|].
  destruct Hc as [Hf Hc]. constructor; [lia|].
  eapply Forall_impl; [by apply IH|]. simpl. intros. lia.
Qed.

Lemma filter_all {A} (P : A → Prop) `{!∀ x, Decision (P x)} (l : list A) :
  Forall P l → filter P l = l.
Proof.
  induction 1 as [|x l Hx Hl IH]; [done|].
  rewrite filter_cons_True by done. by rewrite IH.
Qed.

Lemma last_drop_lt {A} (k : nat) (l : list A) :
  (k < length l)%nat → last (drop k l) = last l.
Proof.
  revert k. induction l as [|x l IH]; intros k Hk; [simpl in Hk; lia|].
  destruct k as [|k]; [done|]. simpl in Hk. simpl drop.
  rewrite IH by lia. destruct l; [simpl in Hk; lia|done].
Qed.

Lemma consecutive_from_drop (f a : Z) (es : list Entry) :
  consecutive_from f es → f ≤ a + 1 →
  drop (Z.to_nat (a + 1 - f)) es = filter (λ e, a < Index e) es.
Proof.
  revert f. induction es as [|e es IH]; intros f Hc Hf.
  - by rewrite drop_nil.
  - destruct Hc as [He Hc]. destruct (decide (f = a + 1)) as [->|Hne].
    + replace (a + 1 - (a + 1)) with 0 by lia. simpl drop. symmetry.
      apply filter_all. constructor; [lia|].
      apply consecutive_from_ge in Hc.
      eapply Forall_impl; [exact Hc|]. simpl. intros. lia.
    + replace (Z.to_nat (a + 1 - f)) with (Datatypes.S (Z.to_nat (a + 1 - (f + 1))))
        by lia.
      simpl drop. rewrite filter_cons_False by lia. apply IH; [done|lia].
Qed.

Lemma committed_after_window (a : Z) (e0 : Entry) (es : list Entry) :
  consecutive (e0 :: es) → 0 ≤ a → a + 1 < uint64_modulus → 0 ≤ Index e0 →
  Index e0 ≤ a + 1 →
  committed_after a (e0 :: es)
  = Ret (drop (Z.to_nat (a + 1 - Index e0)) (e0 :: es)).
Proof.
  intros Hc Ha Hb H0 Hf. unfold committed_after.
  rewrite wrap64_small by done.
  rewrite bool_decide_eq_false_2 by lia.
  rewrite wrap64_id by range.
  case_bool_decide as Hlen; [done|].
  rewrite drop_ge; [done|]. lia.
Qed.

(** X25. The committed entries that [Start] applies, when their indices go
    up by one: if the first index is beyond [appliedi + 1] the process is
    terminated; otherwise the entries handed to [apply] are exactly those
    with an index above [appliedi], in order. *)
Theorem committed_after_skips_applied (a : Z) (es : list Entry) :
  consecutive es → 0 ≤ a → a + 1 < uint64_modulus →
  Forall (λ e, 0 ≤ Index e) es →
  match es with
  | [] => committed_after a es = Ret []
  | e0 :: _ =>
    (a + 1 < Index e0 → committed_after a es = Fatal) ∧
    (Index e0 ≤ a + 1 →
     committed_after a es = Ret (filter (λ e, a < Index e) es))
  end.
Proof.
  intros Hc Ha Hb Hpos. destruct es as [|e0 es]; [done|].
  apply Forall_cons in Hpos as [H0 _]. split.
  - intros Hgap. unfold committed_after. rewrite wrap64_small by done.
    by rewrite bool_decide_eq_true_2 by lia.
  - intros Hf. rewrite committed_after_window by done.
    f_equal. by apply consecutive_from_drop.
Qed.

Lemma apply_committed_result (es : list Entry) (a : Z) (confs : ConfState)
    (n : node) i stop confs' n' :
  consecutive es → 0 ≤ a → a + 1 < uint64_modulus →
  Forall (λ e, 0 ≤ Index e) es →
  apply_committed es a confs n = Ret (i, stop, confs', n') →
  stop = false ∧ i = Z.max a (final_index es) ∧
  n_snapCount n' = n_snapCount n ∧ n_id n' = n_id n ∧ n_gen n' = n_gen n ∧
  n_done n' = n_done n.
Proof.
  intros Hc Ha Hb Hpos. unfold apply_committed.
  destruct es as [|e0 es].
  { simpl. intros [= <- <- <- <-]. unfold final_index. simpl.
    split; [done|]. split; [lia|done]. }
  rewrite bool_decide_eq_true_2 by done.
  pose proof Hpos as Hpos'. apply Forall_cons in Hpos' as [H0 _].
  destruct (decide (Index e0 ≤ a + 1)) as [Hf|Hgap].
  2:{ unfold committed_after. rewrite wrap64_small by done.
      by rewrite bool_decide_eq_true_2 by lia. }
  rewrite committed_after_window by done.
  set (k := Z.to_nat (a + 1 - Index e0)).
  assert (∃ el, last (e0 :: es) = Some el) as [el Hl].
  { destruct (last (e0 :: es)) eqn:Hl; [eauto|].
    by apply last_None in Hl. }
  pose proof (consecutive_from_last _ _ _ Hc Hl) as Hel.
  assert (final_index (e0 :: es) = Index el) as Hli.
  { unfold final_index. by rewrite Hl. }
  case_bool_decide as Hlen.
  - intros H. unfold apply in H.
    apply apply_from_result in H as (-> & -> & ? & ? & ? & ?).
    assert (k < length (e0 :: es))%nat as Hk.
    { rewrite length_drop in Hlen. lia. }
    split; [done|]. split; [|done].
    rewrite last_drop_lt by done. rewrite Hl. simpl default.
    rewrite Hli. subst k. simpl length in *. lia.
  - intros [= <- <- <- <-]. split; [done|]. split; [|done].
    rewrite length_drop in Hlen. rewrite Hli. subst k. simpl length in *. lia.
Qed.

(** X26. The indices of [Start] over one [Ready] whose committed entries
    have indices that go up by one: the goroutine never stops the node;
    [appliedi] becomes the largest of [appliedi], the index of the snapshot
    and the index of the last committed entry; [snapi] does not go down
    and stays at or below [appliedi] (so [appliedi - snapi] does not wrap
    around); and afterwards [appliedi - snapi] is at most [snapCount]. *)
Theorem Start_ready_indices (rd : Ready) (v v' : loop_vars) (t t' : T)
    (n n' : node) (stopped : bool) (changes : list (Z * Z)) :
  0 ≤ v_snapi v → v_snapi v ≤ v_appliedi v →
  0 ≤ n_snapCount n →
  0 ≤ snap_Index (rd_Snapshot rd) →
  Z.max (v_appliedi v) (snap_Index (rd_Snapshot rd)) + 1 < uint64_modulus →
  consecutive (rd_CommittedEntries rd) →
  Forall (λ e, 0 ≤ Index e < uint64_modulus) (rd_CommittedEntries rd) →
  Start_ready rd v t n = Ret (stopped, changes, v', t', n') →
  stopped = false ∧
  v_appliedi v' = Z.max (Z.max (v_appliedi v) (incoming_index (rd_Snapshot rd)))
                  (final_index (rd_CommittedEntries rd)) ∧
  v_snapi v ≤ v_snapi v' ∧ v_snapi v' ≤ v_appliedi v' ∧
  v_appliedi v' - v_snapi v' ≤ n_snapCount n ∧
  (v_snapi v' = v_appliedi v' ∨
   v_snapi v' = Z.max (v_snapi v) (incoming_index (rd_Snapshot rd))).
Proof.
  intros Hs0 Hsa Hk Hsn Hmax Hc Hrange. unfold Start_ready.
  destruct (status_change _ _) as [chg pss].
  set (sn := rd_Snapshot rd) in *.
  assert (0 ≤ incoming_index sn ≤ snap_Index sn) as Hinc.
  { unfold incoming_index. destruct (IsEmptySnap sn); lia. }
  assert (∀ x, 0 ≤ x →
            (negb (IsEmptySnap sn) && bool_decide (snap_Index sn > x))
            = bool_decide (incoming_index sn > x)) as Hguard.
  { intros x Hx. unfold incoming_index.
    destruct (IsEmptySnap sn); simpl; [|done].
    symmetry. apply bool_decide_eq_false_2. lia. }
  assert (∀ x, 0 ≤ x → incoming_index sn > x →
               snap_Index sn = incoming_index sn) as Hidx.
  { intros x Hx. unfold incoming_index. destruct (IsEmptySnap sn); [|done].
    lia. }
  assert (save_incoming sn (v_snapi v) t = Fatal ∨
          ∃ t1, save_incoming sn (v_snapi v) t
                = Ret (Z.max (v_snapi v) (incoming_index sn), t1)) as Hsave.
  { unfold save_incoming. rewrite Hguard by done. case_bool_decide as Hg.
    - destruct (storage_SaveSnap sn t); [|by left].
      right. eexists. do 2 f_equal. pose proof (Hidx _ Hs0 Hg). lia.
    - right. eexists. do 2 f_equal. lia. }
  destruct Hsave as [->|(t1 & ->)]; [done|].
  set (s1 := Z.max (v_snapi v) (incoming_index sn)).
  destruct (storage_Save _ t1) as [t2|]; [|done].
  assert (recover sn (v_appliedi v) n = Fatal ∨
          ∃ n1, recover sn (v_appliedi v) n
                = Ret (Z.max (v_appliedi v) (incoming_index sn), n1) ∧
                n_snapCount n1 = n_snapCount n) as Hrec.
  { unfold recover. rewrite Hguard by lia. case_bool_decide as Hg.
    - destruct (store_Restore _ _) as [[[e|] s']|]; [by left| |by left].
      assert (0 ≤ v_appliedi v) as Ha0 by lia. pose proof (Hidx _ Ha0 Hg).
      right. eexists. split; [do 2 f_equal; lia|done].
    - right. eexists. split; [do 2 f_equal; lia|done]. }
  destruct Hrec as [->|(n1 & -> & Hk1)]; [done|].
  set (a1 := Z.max (v_appliedi v) (incoming_index sn)).
  destruct (apply_committed _ a1 (v_confState v) n1)
    as [[[[a2 stop] c2] n2]|] eqn:Hap; [|done].
  apply apply_committed_result in Hap as (-> & Ha2 & Hk2 & _);
    [|done|lia|lia|].
  2:{ eapply Forall_impl; [exact Hrange|]. simpl. intros. lia. }
  assert (final_index (rd_CommittedEntries rd) < uint64_modulus) as Hlast.
  { unfold final_index. destruct (last _) as [el|] eqn:Hl; [|range].
    apply last_Some_elem_of in Hl. rewrite Forall_forall in Hrange.
    apply Hrange in Hl. lia. }
  assert (0 ≤ a2 - s1 < uint64_modulus) as Hdiff by lia.
  rewrite wrap64_id by done.
  case_bool_decide as Hsnap.
  - destruct (snapshot _ _ _ _) as [t4|]; [|done].
    intros [= <- <- <- <- <-]. simpl.
    split; [done|]. split; [lia|]. split; [lia|]. split; [lia|].
    split; [lia|]. by left.
  - intros [= <- <- <- <- <-]. simpl.
    split; [done|]. split; [lia|]. split; [lia|]. split; [lia|].
    split; [lia|]. right. lia.
Qed.

(** X29. The generator of a node that [NewNode] constructs on an existing
    WAL starts from [lastIndex + 2*snapCount] (in 64 bits), [lastIndex]
    being the index of the last entry of the WAL, and the first id drawn
    has the id of the node and the sequence number after that; the older
    variant starts from [lastIndex].  Without a WAL the newer variant
    starts from [2*snapCount]. *)
Theorem NewNode_seeds_generator `{!OldStore Any S} (id : Z)
    (peers : list (Z * bytes)) (w : WAL) (sn : option Snapshot) (store : S)
    (snapCount : Z) :
  (∀ n : node, NewNode id peers (mkDisk (Some w) sn) store snapCount = Ret n →
     ∃ e, last (wal_ents w) = Some e ∧
          n_gen n = wrap64 (Index e + 2 * snapCount) ∧
          (genID n).1
          = mkRequestID id (wrap64 (Index e + 2 * snapCount + 1))) ∧
  (∀ n : node,
     Old_NewNode id peers (mkDisk (Some w) sn) store snapCount = Ret n →
     ∃ e, last (wal_ents w) = Some e ∧ n_gen n = Index e) ∧
  (∀ n : node, NewNode id peers (mkDisk None sn) store snapCount = Ret n →
     n_gen n = wrap64 (2 * snapCount)).
Proof.
  split; [|split].
  - intros n Hn. apply NewNode_seed in Hn as (e & He & Hg & Hi & _).
    exists e. split; [done|]. split; [done|].
    unfold genID, GenID. simpl. rewrite Hg, Hi. f_equal.
    rewrite (Z.add_comm (wrap64 _) 1), wrap64_wrap64_add. f_equal. lia.
  - intros n Hn. by apply Old_NewNode_seed in Hn.
  - unfold NewNode, NewNode_boot. simpl. case_bool_decide; [done|].
    intros n [= <-]. simpl. unfold NewSeqIDGen.
    by rewrite wrap64_wrap64_add.
Qed.

End NodeExtra.

(** ** The properties, at the examples *)

Lemma NewNode_seeds_generator_witness :
  ∃ n : tiny_node,
    NewNode 1 []
      (mkDisk (Some (mkWAL (Some 1) [mkEntry EntryNormal 1 7 []])) None)
      Registry.newRegistry 10 = Ret n ∧
    n_gen n = 27 ∧ (genID n).1 = mkRequestID 1 28.
Proof.
  assert (∃ n : tiny_node,
            NewNode 1 []
              (mkDisk (Some (mkWAL (Some 1) [mkEntry EntryNormal 1 7 []])) None)
              Registry.newRegistry 10 = Ret n) as [n Hn]
    by (eexists; vm_compute; reflexivity).
  destruct (NewNode_seeds_generator 1 []
              (mkWAL (Some 1) [mkEntry EntryNormal 1 7 []]) None
              Registry.newRegistry 10) as (H & _).
  destruct (H n Hn) as (e & He & Hg & Hid).
  simpl in He. injection He as <-.
  exists n. split; [exact Hn|]. split; [exact Hg|exact Hid].
Defined.

Lemma Process_cancelled_still_applied_witness :
  ∃ n2 n3,
    Process_select ex_pending (Some Canceled) CaseCtxDone ex_submit_newBeeID.2
    = Some ((None, Some (ErrCtx Canceled)), n2) ∧
    applyEntry ex_entry_newBeeID n2 = Ret n3 ∧
    n_store n3 = Registry.set_BeeID 1 Registry.newRegistry ∧
    chans (n_line n3) !! 0%nat = Some None.
Proof.
  destruct (Process_cancelled_still_applied ex_node ex_submit_newBeeID.2
              (AnyRequest Registry.newBeeID) ex_pending Canceled
              ex_entry_newBeeID (Some (AnyUint64 1)) None
              (Registry.set_BeeID 1 Registry.newRegistry))
    as (n2 & n3 & H1 & _ & H2 & H3 & _ & H4);
    [vm_compute; reflexivity | discriminate | vm_compute; reflexivity
    | vm_compute; reflexivity |].
  exists n2, n3. split; [exact H1|]. split; [exact H2|].
  split; [exact H3|exact H4].
Defined.

Lemma ProcessConfChange_returns_store_error_witness :
  ∃ n1 n2 n3 confs',
    AddNode_submit 3 "" ex_node = (inr ex_pending, n1) ∧
    applyConfChange ex_entry_add3 ex_confs n1 = Ret (None, confs', n2) ∧
    ProcessConfChange_select ex_pending None CaseReply n2 = Some (None, n3).
Proof.
  assert (∃ n1, AddNode_submit 3 "" ex_node = (inr ex_pending, n1))
    as (n1 & Hsub) by (eexists; vm_compute; reflexivity).
  destruct (ProcessConfChange_returns_store_error ex_node n1 ex_add3
              (mkNodeInfo 3 "") ex_pending ex_entry_add3 ex_confs ex_context3
              None Registry.newRegistry)
    as (n2 & n3 & H1 & _ & H2 & _).
  - reflexivity.
  - exact Hsub.
  - vm_compute. reflexivity.
  - vm_compute. reflexivity.
  - discriminate.
  - reflexivity.
  - vm_compute. reflexivity.
  - reflexivity.
  - split; [simpl; lia|]. split; [|discriminate].
    intros _ Hin. simpl in Hin.
    apply elem_of_cons in Hin as [?|Hin]; [lia|].
    apply elem_of_cons in Hin as [?|Hin]; [lia|]. by apply elem_of_nil in Hin.
  - by left.
  - vm_compute in Hsub. injection Hsub as <-. vm_compute. reflexivity.
  - exists n1, n2, n3. eexists. split; [exact Hsub|]. split; [exact H1|exact H2].
Defined.

Lemma invalid_conf_change_leaves_caller_waiting_witness :
  ∃ n1 err n2,
    AddNode_submit 2 "" ex_node = (inr ex_pending, n1) ∧
    applyConfChange ex_entry_add2 ex_confs n1 = Ret (Some err, ex_confs, n2) ∧
    ∀ c, ProcessConfChange_select ex_pending None c n2 = None.
Proof.
  assert (∃ n1, AddNode_submit 2 "" ex_node = (inr ex_pending, n1))
    as (n1 & Hsub) by (eexists; vm_compute; reflexivity).
  destruct (invalid_conf_change_leaves_caller_waiting ex_node n1 ex_cc
              (mkNodeInfo 2 "") ex_pending ex_entry_add2 ex_confs ex_context2)
    as (err & n2 & H1 & _ & _ & H2).
  - reflexivity.
  - exact Hsub.
  - vm_compute. reflexivity.
  - intros (_ & Hadd & _). apply (Hadd eq_refl).
    apply elem_of_cons. right. apply elem_of_cons. by left.
  - exists n1, err, n2. split; [exact Hsub|]. split; [exact H1|exact H2].
Defined.

Lemma committed_after_skips_applied_witness :
  committed_after 3 ex_committed
  = Ret [mkEntry EntryNormal 1 4 []; mkEntry EntryNormal 1 5 []].
Proof.
  destruct (committed_after_skips_applied 3 ex_committed) as [_ H].
  - simpl. repeat split; lia.
  - lia.
  - vm_compute. reflexivity.
  - repeat constructor; simpl; lia.
  - apply H. simpl. lia.
Defined.

Lemma Start_ready_indices_witness :
  ∃ stopped changes v' t' n',
    Start_ready ex_ready ex_vars (mkMemory [] None) ex_node
    = Ret (stopped, changes, v', t', n') ∧
    stopped = false ∧ v_appliedi v' = 1 ∧ v_snapi v' ≤ v_appliedi v'.
Proof.
  assert (∃ x, Start_ready ex_ready ex_vars (mkMemory [] None) ex_node = Ret x)
    as ([[[[stopped changes] v'] t'] n'] & H)
    by (eexists; vm_compute; reflexivity).
  exists stopped, changes, v', t', n'. split; [exact H|].
  destruct (Start_ready_indices ex_ready ex_vars v' (mkMemory [] None) t'
              ex_node n' stopped changes) as (H1 & H2 & _ & H3 & _).
  - simpl. lia.
  - simpl. lia.
  - vm_compute. discriminate.
  - simpl. lia.
  - vm_compute. reflexivity.
  - simpl. split; [reflexivity|exact I].
  - repeat constructor; simpl; lia.
  - exact H.
  - split; [exact H1|]. split; [|exact H3]. rewrite H2. vm_compute. reflexivity.
Defined.

End RaftExtra.
